(** * DobbyX: a shallow embedding of the game core

    The definitions below follow [src/index.js] (class [DobbysRebellion]),
    [src/commands/raid.js] (the slash-command raid), the rebel data
    access layer ([RebelDAL]) and [src/config/scalability.js].

    Conventions of the embedding.
    - JavaScript numbers that the code keeps integral (levels, health,
      credits, counters, millisecond time stamps) are [Z].
    - Expressions that multiply by a decimal constant or by a random draw
      ([Math.random()], class and formation multipliers, the house fee)
      are computed over the rationals [Q] and brought back with [Qfloor]:
      the floor of the exact product.  The code computes them in IEEE
      doubles, where a constant such as 1.3 is not exact and every
      operation rounds, so that at some inputs [Math.floor] of the double
      is one away from the floor of the exact product:
      300 * (1 + 130 / 1000) is 338.99999999999994 in doubles and 339
      exactly, (250 / 3) * 1.2 is 99.99999999999999 and 100.  The
      statements are about the exact products.  The house fee
      [Math.floor(bid * 0.1)] is the exact tenth rounded down for every
      bid below 2^52 in absolute value, and at a draw of 1/2 the factor
      0.8 + 0.5 * 0.4 of a solo raid is 1 in doubles as well.
    - [Math.random()] is an oracle [random : nat -> Q]; the world carries
      the index of the next draw, every call consumes one draw.
    - [Date.now()] / [new Date()] is the parameter [now] (milliseconds).
    - A JS [Map] keyed by user, corporation or party id and reached only
      through [get]/[set]/[delete] is a [gmap string _]; a [Map] that a
      sweep iterates over ([auctions], [marketplace]) is an association
      list in insertion order.
    - Objects are shared by reference in the source: the [rebel] handed to
      [executeRaid] is the object stored in [this.rebels].  The embedding
      names an object by its key and updates the store in place. *)

From Stdlib Require Import ZArith QArith Qround Lia List.
From stdpp Require Import gmap strings list fin_maps.

Local Open Scope Z_scope.

(** ** Numbers *)

Definition Qltb (a b : Q) : bool := negb (Qle_bool b a).

Arguments Qltb : simpl never.

Definition floorQ (q : Q) : Z := Qfloor q.

Definition tenths (n : Z) : Q := Qmake n 10.

Arguments floorQ : simpl never.
Arguments tenths : simpl never.

(** ** Rebels *)

Record Stats := mkStats {
  strength : Z;
  intelligence : Z;
  charisma : Z;
  stealth : Z
}.

Record Rebel := mkRebel {
  rclass : string;
  level : Z;
  experience : Z;
  energy : Z;
  maxEnergy : Z;
  loyaltyScore : Z;
  corporateDamage : Z;
  totalRaids : Z;
  corporationsDefeated : Z;
  lastActive : Z;
  stats : Stats
}.

(** [classMultipliers[rebel.class] || 1.0] *)
Definition classMultipliers : list (string * Q) :=
  [ ("Protocol Hacker", tenths 12);
    ("Model Trainer", tenths 10);
    ("Data Liberator", tenths 11);
    ("Community Organizer", tenths 9);
    ("Enclave Guardian", tenths 8) ].

Fixpoint assoc {A} (k : string) (l : list (string * A)) : option A :=
  match l with
  | [] => None
  | (k', v) :: t => if String.eqb k k' then Some v else assoc k t
  end.

Definition orDefault {A} (o : option A) (d : A) : A :=
  match o with Some x => x | None => d end.

Arguments assoc : simpl never.

(** [calculateDamage] of the game class, index.js *)
Module Game.
Definition calculateDamage (rebel : Rebel) : Z :=
  let baseClassDamage := 50 in
  let levelBonus := level rebel * 10 in
  let loyaltyBonus := (loyaltyScore rebel / 100) * 5 in
  let classMultiplier := orDefault (assoc (rclass rebel) classMultipliers) (tenths 10) in
  floorQ (Qmult (inject_Z (baseClassDamage + levelBonus + loyaltyBonus)) classMultiplier).
End Game.

(** [calculateDamage] of the slash command, commands/raid.js *)
Module RaidCommand.
Definition classMultipliers : list (string * Q) :=
  [ ("Protocol Hacker", tenths 12);
    ("Model Trainer", tenths 10);
    ("Data Liberator", tenths 11);
    ("Community Organizer", tenths 9);
    ("Enclave Guardian", tenths 8) ].

Definition calculateDamage (rebel : Rebel) : Z :=
  let baseClassDamage := 50 in
  let levelBonus := level rebel * 10 in
  let loyaltyBonus := (loyaltyScore rebel / 100) * 5 in
  let classMultiplier := orDefault (assoc (rclass rebel) classMultipliers) (tenths 10) in
  floorQ (Qmult (inject_Z (baseClassDamage + levelBonus + loyaltyBonus)) classMultiplier).
End RaidCommand.

Definition set_level (v : Z) (r : Rebel) : Rebel :=
  mkRebel (rclass r) v (experience r) (energy r) (maxEnergy r) (loyaltyScore r)
          (corporateDamage r) (totalRaids r) (corporationsDefeated r) (lastActive r) (stats r).
Definition set_experience (v : Z) (r : Rebel) : Rebel :=
  mkRebel (rclass r) (level r) v (energy r) (maxEnergy r) (loyaltyScore r)
          (corporateDamage r) (totalRaids r) (corporationsDefeated r) (lastActive r) (stats r).
Definition set_energy (v : Z) (r : Rebel) : Rebel :=
  mkRebel (rclass r) (level r) (experience r) v (maxEnergy r) (loyaltyScore r)
          (corporateDamage r) (totalRaids r) (corporationsDefeated r) (lastActive r) (stats r).
Definition set_maxEnergy (v : Z) (r : Rebel) : Rebel :=
  mkRebel (rclass r) (level r) (experience r) (energy r) v (loyaltyScore r)
          (corporateDamage r) (totalRaids r) (corporationsDefeated r) (lastActive r) (stats r).
Definition set_loyaltyScore (v : Z) (r : Rebel) : Rebel :=
  mkRebel (rclass r) (level r) (experience r) (energy r) (maxEnergy r) v
          (corporateDamage r) (totalRaids r) (corporationsDefeated r) (lastActive r) (stats r).
Definition set_corporateDamage (v : Z) (r : Rebel) : Rebel :=
  mkRebel (rclass r) (level r) (experience r) (energy r) (maxEnergy r) (loyaltyScore r)
          v (totalRaids r) (corporationsDefeated r) (lastActive r) (stats r).
Definition set_totalRaids (v : Z) (r : Rebel) : Rebel :=
  mkRebel (rclass r) (level r) (experience r) (energy r) (maxEnergy r) (loyaltyScore r)
          (corporateDamage r) v (corporationsDefeated r) (lastActive r) (stats r).
Definition set_corporationsDefeated (v : Z) (r : Rebel) : Rebel :=
  mkRebel (rclass r) (level r) (experience r) (energy r) (maxEnergy r) (loyaltyScore r)
          (corporateDamage r) (totalRaids r) v (lastActive r) (stats r).
Definition set_lastActive (v : Z) (r : Rebel) : Rebel :=
  mkRebel (rclass r) (level r) (experience r) (energy r) (maxEnergy r) (loyaltyScore r)
          (corporateDamage r) (totalRaids r) (corporationsDefeated r) v (stats r).
Definition set_stats (v : Stats) (r : Rebel) : Rebel :=
  mkRebel (rclass r) (level r) (experience r) (energy r) (maxEnergy r) (loyaltyScore r)
          (corporateDamage r) (totalRaids r) (corporationsDefeated r) (lastActive r) v.

(** ** Items and inventories *)

(** Item identifiers are strings built from the clock and a random draw;
    the embedding keeps the ingredients instead of the formatted text. *)
Inductive ItemId :=
| LootId (now : Z) (draw : Q)     (* generateItemId(): ITM_<now>_<random> *)
| DropId (now : Z) (i : nat)      (* `${Date.now()}_${i}` *)
| ShopId (now : Z) (draw : Q)     (* `${Date.now()}_${random}` *)
| GivenId (s : string).           (* an id that was already a string *)

Record Item := mkItem {
  itemId : ItemId;
  itemName : string;
  itemType : string;
  rarity : string;
  value : Z;
  acquiredFrom : string;
  acquiredAt : Z;
  activatedAt : option Z
}.

Record Inventory := mkInventory {
  items : list Item;
  capacity : Z;
  credits : Z
}.

Definition itemCount (inv : Inventory) : Z := Z.of_nat (length (items inv)).

(** [inventory.items.push(item)] *)
Definition pushItem (it : Item) (inv : Inventory) : Inventory :=
  mkInventory (items inv ++ [it]) (capacity inv) (credits inv).

Definition set_credits (v : Z) (inv : Inventory) : Inventory :=
  mkInventory (items inv) (capacity inv) v.

Record DefensiveItem := mkDefensiveItem {
  dname : string;
  protection : Z;
  duration : Z;
  drarity : string;
  cost : Z
}.

(** [this.defensiveItems], in insertion order *)
Definition defensiveItems : list (string * DefensiveItem) :=
  [ ("digital_shield", mkDefensiveItem "Digital Shield" 75 3600000 "rare" 500);
    ("encryption_cloak", mkDefensiveItem "Encryption Cloak" 50 7200000 "uncommon" 300);
    ("proxy_network", mkDefensiveItem "Proxy Network" 90 1800000 "epic" 800);
    ("sanctuary_pass", mkDefensiveItem "Sanctuary Pass" 100 10800000 "legendary" 1200) ].

(** ** Corporations and countermeasures *)

Record CountermeasureType := mkCountermeasureType {
  cmName : string;
  cmEffect : string;
  cmSeverity : string;
  cmDuration : Z
}.

(** [this.countermeasureTypes], in insertion order *)
Definition countermeasureTypes : list (string * CountermeasureType) :=
  [ ("cyber_attack", mkCountermeasureType "Cyber Attack" "energy_drain" "medium" 1800000);
    ("surveillance_sweep", mkCountermeasureType "Surveillance Sweep" "reduced_stealth" "low" 3600000);
    ("economic_warfare", mkCountermeasureType "Economic Warfare" "credit_loss" "high" 2700000);
    ("propaganda_campaign", mkCountermeasureType "Propaganda Campaign" "loyalty_reduction" "medium" 5400000);
    ("legal_action", mkCountermeasureType "Legal Action" "activity_restriction" "high" 7200000) ].

Record Countermeasure := mkCountermeasure {
  cmIdNow : Z;
  cmIdDraw : Q;
  ctype : string;
  target : string;
  corporation : string;
  startTime : Z;
  endTime : Z;
  severity : string;
  effect : string;
  blocked : bool
}.

Record Corporation := mkCorporation {
  cname : string;
  health : Z;
  maxHealth : Z;
  loot : list string;
  alertLevel : Z;
  active : list Countermeasure;
  lastActivated : option Z;
  knownRebels : gset string;
  threatAssessment : gmap string Q
}.

Definition set_health (v : Z) (c : Corporation) : Corporation :=
  mkCorporation (cname c) v (maxHealth c) (loot c) (alertLevel c) (active c)
                (lastActivated c) (knownRebels c) (threatAssessment c).
Definition set_alertLevel (v : Z) (c : Corporation) : Corporation :=
  mkCorporation (cname c) (health c) (maxHealth c) (loot c) v (active c)
                (lastActivated c) (knownRebels c) (threatAssessment c).
Definition set_intelligence (k : gset string) (t : gmap string Q) (c : Corporation) : Corporation :=
  mkCorporation (cname c) (health c) (maxHealth c) (loot c) (alertLevel c) (active c)
                (lastActivated c) k t.
Definition push_countermeasure (cm : Countermeasure) (now : Z) (c : Corporation) : Corporation :=
  mkCorporation (cname c) (health c) (maxHealth c) (loot c) (alertLevel c) (active c ++ [cm])
                (Some now) (knownRebels c) (threatAssessment c).

(** ** Raid parties and formations *)

Record Formation := mkFormation {
  fname : string;
  damageBonus : Q;
  energyCost : Q;
  stealthBonus : option Q;
  lootBonus : option Q
}.

(** [this.formations] *)
Definition formations : list (string * Formation) :=
  [ ("assault_formation", mkFormation "Assault Formation" (tenths 15) (tenths 12) None None);
    ("stealth_formation", mkFormation "Stealth Formation" (tenths 12) (tenths 8) (Some (tenths 7)) None);
    ("guardian_formation", mkFormation "Guardian Formation" (tenths 11) (tenths 9) None None);
    ("balanced_formation", mkFormation "Balanced Formation" (tenths 13) (tenths 10) None (Some (tenths 12))) ].

Record MemberResult := mkMemberResult {
  member : string;
  damage : Z;
  energyUsed : Z
}.

Record TeamLoot := mkTeamLoot {
  lootCredits : Z;
  lootItems : list Item
}.

Record PartyResults := mkPartyResults {
  totalDamage : Z;
  memberResults : list MemberResult;
  teamLoot : TeamLoot;
  timestamp : Z
}.

Record RaidParty := mkRaidParty {
  leader : string;
  members : list string;
  readyMembers : gset string;
  ptarget : string;
  formation : string;
  pstate : string;
  results : option PartyResults
}.

Definition complete_party (res : PartyResults) (p : RaidParty) : RaidParty :=
  mkRaidParty (leader p) (members p) (readyMembers p) (ptarget p) (formation p)
              "completed" (Some res).

(** ** Marketplace listings and auctions *)

Record Listing := mkListing {
  litem : Item;
  lsellerId : string;
  lprice : Z;
  expiresAt : Z
}.

Record Auction := mkAuction {
  aitem : Item;
  sellerId : string;
  startingBid : Z;
  currentBid : Z;
  currentBidder : option string;
  astatus : string;
  aendTime : Z;
  winner : option string
}.

Definition set_auction_status (s : string) (w : option string) (a : Auction) : Auction :=
  mkAuction (aitem a) (sellerId a) (startingBid a) (currentBid a) (currentBidder a)
            s (aendTime a) w.

(** ** The world: the maps owned by [DobbysRebellion]

    [globalEvents], [dailyMissions], [leaderboard] and the other maps that
    none of the functions below read are left out; [updateEventParticipation],
    the last state-changing call of [executeRaid], writes only to
    [globalEvents]. *)

Record World := mkWorld {
  rebels : gmap string Rebel;
  corporations : gmap string Corporation;
  inventory : gmap string Inventory;
  achievements : gmap string (list string);
  raidParties : gmap string RaidParty;
  marketplace : list (string * Listing);
  auctions : list (string * Auction);
  rng : nat
}.

Definition set_rebels (f : gmap string Rebel -> gmap string Rebel) (w : World) : World :=
  mkWorld (f (rebels w)) (corporations w) (inventory w) (achievements w) (raidParties w)
          (marketplace w) (auctions w) (rng w).
Definition set_corporations (f : gmap string Corporation -> gmap string Corporation) (w : World) : World :=
  mkWorld (rebels w) (f (corporations w)) (inventory w) (achievements w) (raidParties w)
          (marketplace w) (auctions w) (rng w).
Definition set_inventory (f : gmap string Inventory -> gmap string Inventory) (w : World) : World :=
  mkWorld (rebels w) (corporations w) (f (inventory w)) (achievements w) (raidParties w)
          (marketplace w) (auctions w) (rng w).
Definition set_achievements (f : gmap string (list string) -> gmap string (list string)) (w : World) : World :=
  mkWorld (rebels w) (corporations w) (inventory w) (f (achievements w)) (raidParties w)
          (marketplace w) (auctions w) (rng w).
Definition set_raidParties (f : gmap string RaidParty -> gmap string RaidParty) (w : World) : World :=
  mkWorld (rebels w) (corporations w) (inventory w) (achievements w) (f (raidParties w))
          (marketplace w) (auctions w) (rng w).
Definition set_marketplace (m : list (string * Listing)) (w : World) : World :=
  mkWorld (rebels w) (corporations w) (inventory w) (achievements w) (raidParties w)
          m (auctions w) (rng w).
Definition set_auctions (a : list (string * Auction)) (w : World) : World :=
  mkWorld (rebels w) (corporations w) (inventory w) (achievements w) (raidParties w)
          (marketplace w) a (rng w).
Definition set_rng (n : nat) (w : World) : World :=
  mkWorld (rebels w) (corporations w) (inventory w) (achievements w) (raidParties w)
          (marketplace w) (auctions w) n.

(** ** Stateful code: a state monad over the world, with exceptions

    A method of the game class reads and writes [this]; a [TypeError]
    (a property read on [undefined]) aborts the method and leaves the
    writes done so far in place. *)

Inductive Res (A : Type) : Type :=
| Ok (a : A)
| Throw.
Arguments Ok {A} a.
Arguments Throw {A}.

Definition M (A : Type) : Type := World -> Res A * World.

Definition ret {A} (a : A) : M A := fun w => (Ok a, w).
Definition bind {A B} (m : M A) (k : A -> M B) : M B :=
  fun w => match m w with
           | (Ok a, w') => k a w'
           | (Throw, w') => (Throw, w')
           end.
Definition throw {A} : M A := fun w => (Throw, w).
Definition gets {A} (f : World -> A) : M A := fun w => (Ok (f w), w).
Definition modify (f : World -> World) : M unit := fun w => (Ok tt, f w).
Definition when (b : bool) (m : M unit) : M unit := if b then m else ret tt.
Definition fromOption {A} (o : option A) : M A :=
  match o with Some a => ret a | None => throw end.

Declare Scope game_scope.
Delimit Scope game_scope with game.
Notation "x <- m ;; k" := (bind m (fun x => k))
  (at level 200, m at level 99, k at level 200, right associativity) : game_scope.
Notation "m ;;; k" := (bind m (fun _ => k))
  (at level 200, k at level 200, right associativity) : game_scope.
Local Open Scope game_scope.

Definition modRebel (userId : string) (f : Rebel -> Rebel) : M unit :=
  modify (set_rebels (alter f userId)).
Definition modCorp (corpId : string) (f : Corporation -> Corporation) : M unit :=
  modify (set_corporations (alter f corpId)).
Definition modInventory (userId : string) (f : Inventory -> Inventory) : M unit :=
  modify (set_inventory (alter f userId)).

Definition execM {A} (m : M A) (w : World) : World := snd (m w).
Definition evalM {A} (m : M A) (w : World) : Res A := fst (m w).

(** ** Small library functions of JavaScript *)

(** [s.includes(sub)] *)
Fixpoint includes (s sub : string) : bool :=
  if String.prefix sub s then true
  else match s with
       | EmptyString => false
       | String _ t => includes t sub
       end.

(** [arr[Math.floor(r * arr.length)]], [None] for [undefined] *)
Definition pick {A} (l : list A) (r : Q) : option A :=
  let i := floorQ (Qmult r (inject_Z (Z.of_nat (length l)))) in
  if i <? 0 then None else nth_error l (Z.to_nat i).

Arguments pick : simpl never.

Definition Qminimum (a b : Q) : Q := if Qle_bool a b then a else b.

(** a value used as a condition: [null], [undefined] and [0] are falsy *)
Definition truthyTime (t : option Z) : bool :=
  match t with Some v => negb (v =? 0) | None => false end.

Definition truthyString (s : option string) : bool :=
  match s with Some v => negb (String.eqb v "") | None => false end.

(** [this.achievementTemplates]: id and points *)
Definition achievementTemplates : list (string * Z) :=
  [ ("first_rebel", 10); ("first_raid", 25); ("first_victory", 50);
    ("damage_1k", 100); ("damage_10k", 250); ("damage_100k", 500);
    ("loyalty_100", 50); ("loyalty_1k", 150); ("loyalty_10k", 400);
    ("mentor", 200); ("team_leader", 150); ("alliance_warrior", 300);
    ("daily_streak_7", 100); ("all_corps_defeated", 500); ("legendary_rebel", 1000) ].

Definition getItemType (itemName : string) : string :=
  if includes itemName "Model" || includes itemName "AI" then "ai_model"
  else if includes itemName "Data" || includes itemName "Information" then "data"
  else if includes itemName "Tool" || includes itemName "Software" then "tool"
  else if includes itemName "Secret" || includes itemName "Intel" then "intel"
  else "resource".

Definition getItemRarity (damage : Z) : string :=
  if 500 <? damage then "legendary"
  else if 300 <? damage then "epic"
  else if 150 <? damage then "rare"
  else if 75 <? damage then "uncommon"
  else "common".

(** ** Progression, achievements, loot *)

(** [gainExperience(userId, amount)], index.js *)
Definition gainExperience (userId : string) (amount : Z) : M bool :=
  rebel <- gets (fun w => rebels w !! userId) ;;
  match rebel with
  | None => ret false
  | Some rebel =>
      let experience' := experience rebel + amount in
      modRebel userId (set_experience experience') ;;;
      let newLevel := experience' / 100 + 1 in
      if level rebel <? newLevel then
        modRebel userId (fun r =>
          let r := set_level newLevel r in
          let r := set_maxEnergy (100 + (newLevel - 1) * 10) r in
          let r := set_energy (maxEnergy r) r in
          set_stats (mkStats (strength (stats r) + 2) (intelligence (stats r) + 2)
                             (charisma (stats r) + 1) (stealth (stats r) + 1)) r) ;;;
        ret true
      else ret false
  end.

(** [calculateLevel(experience)] of the rebel data access layer, with its
    comment "Level formula: level = floor(sqrt(experience / 100)) + 1".
    For a non-negative integer [e], [floor (sqrt (e / 100))] is the
    integer square root of [e / 100] rounded down. *)
Module RebelDAL.
Definition calculateLevel (experience : Z) : Z :=
  Z.min 100 (Z.sqrt (experience / 100) + 1).
End RebelDAL.

Definition hasAchievement (userId achievementId : string) : M bool :=
  ua <- gets (fun w => achievements w !! userId) ;;
  match ua with
  | Some unlocked => ret (existsb (String.eqb achievementId) unlocked)
  | None => ret false
  end.

Definition awardAchievement (userId achievementId : string) : M bool :=
  ua <- gets (fun w => achievements w !! userId) ;;
  match ua, assoc achievementId achievementTemplates with
  | Some unlocked, Some points =>
      if existsb (String.eqb achievementId) unlocked then ret false
      else
        modify (set_achievements (alter (fun l => l ++ [achievementId]) userId)) ;;;
        modRebel userId (fun r => set_loyaltyScore (loyaltyScore r + points) r) ;;;
        ret true
  | _, _ => ret false
  end.

(** one [if (cond && !this.hasAchievement(..)) { award; push }] of
    [checkAchievements]; the condition reads the live rebel *)
Definition checkOne (userId : string) (cond : Rebel -> bool) (achievementId : string)
    (newAchievements : list string) : M (list string) :=
  rebel <- gets (fun w => rebels w !! userId) ;;
  has <- hasAchievement userId achievementId ;;
  match rebel with
  | Some rebel =>
      if cond rebel && negb has then
        awardAchievement userId achievementId ;;;
        ret (newAchievements ++ [achievementId])
      else ret newAchievements
  | None => ret newAchievements
  end.

Definition checkAchievements (userId : string) : M (list string) :=
  rebel <- gets (fun w => rebels w !! userId) ;;
  match rebel with
  | None => ret []
  | Some _ =>
      a <- checkOne userId (fun r => 1000 <=? corporateDamage r) "damage_1k" [] ;;
      a <- checkOne userId (fun r => 10000 <=? corporateDamage r) "damage_10k" a ;;
      a <- checkOne userId (fun r => 100000 <=? corporateDamage r) "damage_100k" a ;;
      a <- checkOne userId (fun r => 100 <=? loyaltyScore r) "loyalty_100" a ;;
      a <- checkOne userId (fun r => 1000 <=? loyaltyScore r) "loyalty_1k" a ;;
      a <- checkOne userId (fun r => 10000 <=? loyaltyScore r) "loyalty_10k" a ;;
      checkOne userId (fun r => 5 <=? corporationsDefeated r) "all_corps_defeated" a
  end.

Section Engine.

(** the results of the successive calls of [Math.random()] *)
Variable random : nat -> Q.

Definition Math_random : M Q :=
  fun w => (Ok (random (rng w)), set_rng (S (rng w)) w).

(** one iteration of the loop of [addLootToInventory]; [true] is [break].
    The item literal is evaluated in the order of its properties: the id
    (one draw) comes before [getItemType(randomItem)], which throws when
    the loot table gave [undefined]. *)
Definition lootStep (now : Z) (userId : string) (corp : Corporation) (damage : Z)
    (i : nat) : M bool :=
  inv <- gets (fun w => inventory w !! userId) ;;
  match inv with
  | None => ret true
  | Some inv =>
      if capacity inv <=? itemCount inv then ret true
      else
        isDefensiveItem <-
          (if 200 <? damage
           then (r <- Math_random ;; ret (Qltb r (Qmake 15 100)))
           else ret false) ;;
        if (isDefensiveItem : bool) then
          r <- Math_random ;;
          ty <- fromOption (pick (map fst defensiveItems) r) ;;
          d <- fromOption (assoc ty defensiveItems) ;;
          modInventory userId (pushItem
            (mkItem (DropId now i) (dname d) ty (drarity d)
                    (floorQ (Qmult (inject_Z (cost d)) (tenths 8)))
                    (cname corp) now None)) ;;;
          ret false
        else
          r <- Math_random ;;
          let randomItem := pick (loot corp) r in
          rid <- Math_random ;;
          randomItem <- fromOption randomItem ;;
          rv <- Math_random ;;
          modInventory userId (pushItem
            (mkItem (LootId now rid) randomItem (getItemType randomItem)
                    (getItemRarity damage)
                    (damage / 10 + floorQ (Qmult rv (inject_Z 50)))
                    (cname corp) now None)) ;;;
          ret false
  end.

Fixpoint lootLoop (now : Z) (userId : string) (corp : Corporation) (damage : Z)
    (numItems : nat) (i : nat) : M unit :=
  match numItems with
  | O => ret tt
  | S n =>
      stop <- lootStep now userId corp damage i ;;
      if (stop : bool) then ret tt else lootLoop now userId corp damage n (S i)
  end.

(** [addLootToInventory(userId, corporation, damage)] *)
Definition addLootToInventory (now : Z) (userId : string) (corp : Corporation)
    (damage : Z) : M unit :=
  inv <- gets (fun w => inventory w !! userId) ;;
  match inv with
  | None => ret tt
  | Some _ =>
      let numItems := Z.min 3 (damage / 100 + 1) in
      lootLoop now userId corp damage (Z.to_nat numItems) 0 ;;;
      modInventory userId (fun inv => set_credits (credits inv + damage / 5) inv)
  end.

(** ** Corporate countermeasures *)

Definition getCountermeasurePower (sev : string) : Z :=
  if String.eqb sev "high" then 80
  else if String.eqb sev "medium" then 50 else 25.

Definition bySeverity (sev : string) (high medium low : Z) : Z :=
  if String.eqb sev "high" then high
  else if String.eqb sev "medium" then medium else low.

(** [getRebelProtection(userId)]: the highest protection among the
    activated defensive items that have not run out, [None] for [null] *)
Definition getRebelProtection (now : Z) (userId : string) : M (option Z) :=
  inv <- gets (fun w => inventory w !! userId) ;;
  match inv with
  | None => ret None
  | Some inv =>
      let activeDefenses :=
        List.filter (fun it =>
          match assoc (itemType it) defensiveItems with
          | Some d => truthyTime (activatedAt it)
                      && (now - orDefault (activatedAt it) 0 <? duration d)
          | None => false
          end) (items inv) in
      match map (fun it => orDefault (protection <$> assoc (itemType it) defensiveItems) 0)
                activeDefenses with
      | [] => ret None
      | p :: ps => ret (Some (fold_left Z.max ps p))
      end
  end.

(** [countermeasure.blocked = true] on the record that was just pushed *)
Definition markLastBlocked (c : Corporation) : Corporation :=
  match rev (active c) with
  | [] => c
  | cm :: t =>
      mkCorporation (cname c) (health c) (maxHealth c) (loot c) (alertLevel c)
        (rev t ++ [mkCountermeasure (cmIdNow cm) (cmIdDraw cm) (ctype cm) (target cm)
                     (corporation cm) (startTime cm) (endTime cm) (severity cm)
                     (effect cm) true])
        (lastActivated c) (knownRebels c) (threatAssessment c)
  end.

(** [applyCountermeasureEffects(rebel, countermeasure)] *)
Definition applyCountermeasureEffects (now : Z) (userId : string) (cm : Countermeasure) : M unit :=
  protection <- getRebelProtection now userId ;;
  if match protection with
     | Some lvl => getCountermeasurePower (severity cm) <=? lvl
     | None => false
     end
  then modCorp (corporation cm) markLastBlocked
  else if String.eqb (effect cm) "energy_drain" then
    modRebel userId (fun r =>
      set_energy (Z.max 0 (energy r - bySeverity (severity cm) 30 20 10)) r)
  else if String.eqb (effect cm) "credit_loss" then
    modInventory userId (fun inv =>
      set_credits (Z.max 0 (credits inv - bySeverity (severity cm) 200 100 50)) inv)
  else if String.eqb (effect cm) "loyalty_reduction" then
    modRebel userId (fun r =>
      set_loyaltyScore (Z.max 0 (loyaltyScore r - bySeverity (severity cm) 50 25 10)) r)
  else ret tt.

(** [activateCountermeasure(targetCorp, rebel)] *)
Definition activateCountermeasure (now : Z) (targetCorp userId : string) : M unit :=
  c <- gets (fun w => corporations w !! targetCorp) ;;
  match c with
  | None => ret tt
  | Some _ =>
      r <- Math_random ;;
      let selectedType := pick (map fst countermeasureTypes) r in
      idr <- Math_random ;;
      ty <- fromOption selectedType ;;
      cmt <- fromOption (assoc ty countermeasureTypes) ;;
      let activeCountermeasure :=
        mkCountermeasure now idr ty userId targetCorp now (now + cmDuration cmt)
                         (cmSeverity cmt) (cmEffect cmt) false in
      modCorp targetCorp (push_countermeasure activeCountermeasure now) ;;;
      applyCountermeasureEffects now userId activeCountermeasure
  end.

(** [checkCountermeasureActivation(targetCorp, rebel, damage)] *)
Definition checkCountermeasureActivation (now : Z) (targetCorp userId : string)
    (damage : Q) : M unit :=
  c <- gets (fun w => corporations w !! targetCorp) ;;
  match c with
  | None => ret tt
  | Some c =>
      let activationChance := alertLevel c * 15 in
      r <- Math_random ;;
      let randomRoll := Qmult r (inject_Z 100) in
      when (Qltb randomRoll (inject_Z activationChance))
           (activateCountermeasure now targetCorp userId) ;;;
      if Qltb (inject_Z 300) damage then
        let immediateChance := Qminimum (inject_Z 80) (Qdiv damage (inject_Z 5)) in
        r <- Math_random ;;
        when (Qltb (Qmult r (inject_Z 100)) immediateChance)
             (activateCountermeasure now targetCorp userId)
      else ret tt
  end.

(** [processCorporateResponse(targetCorp, rebel, damage)] *)
Definition processCorporateResponse (now : Z) (targetCorp userId : string)
    (damage : Q) : M unit :=
  c <- gets (fun w => corporations w !! targetCorp) ;;
  match c with
  | None => ret tt
  | Some _ =>
      modCorp targetCorp (fun c =>
        let currentThreat := orDefault (threatAssessment c !! userId) (inject_Z 0) in
        set_intelligence ({[ userId ]} ∪ knownRebels c)
          (<[ userId := Qplus currentThreat damage ]> (threatAssessment c)) c) ;;;
      let alertIncrease := floorQ (Qdiv damage (inject_Z 200)) in
      modCorp targetCorp (fun c => set_alertLevel (Z.min 5 (alertLevel c + alertIncrease)) c) ;;;
      checkCountermeasureActivation now targetCorp userId damage
  end.

(** ** The solo raid *)

Inductive RaidReply :=
| NotEnlisted
| NotEnoughEnergy
| InvalidTarget
| Raided (actualDamage : Z) (expGained : Z) (leveledUp isDefeated : bool)
         (newAchievements : list string).

(** the two writes to [corporation.health] of a raid: the damage
    (line 1790) and the reset on defeat (lines 1804-1806) *)
Definition damageCorp (actualDamage : Z) (c : Corporation) : Corporation :=
  set_health (Z.max 0 (health c - actualDamage)) c.

Definition resetIfDefeated (c : Corporation) : Corporation :=
  if health c <=? 0 then set_health (maxHealth c) c else c.

(** [executeRaid(interaction, targetCorp, rebel)]: everything up to the
    first [await]; what follows only builds the reply *)
Definition executeRaid (now : Z) (targetCorp userId : string) : M RaidReply :=
  c <- gets (fun w => corporations w !! targetCorp) ;;
  match c with
  | None => ret InvalidTarget
  | Some corp =>
      rebel <- gets (fun w => rebels w !! userId) ;;
      rebel <- fromOption rebel ;;
      let damage := Game.calculateDamage rebel in
      r <- Math_random ;;
      let actualDamage :=
        floorQ (Qmult (inject_Z damage) (Qplus (tenths 8) (Qmult r (tenths 4)))) in
      modCorp targetCorp (damageCorp actualDamage) ;;;
      modRebel userId (fun r =>
        let r := set_energy (energy r - 25) r in
        let r := set_corporateDamage (corporateDamage r + actualDamage) r in
        let r := set_loyaltyScore (loyaltyScore r + actualDamage / 10) r in
        let r := set_totalRaids (totalRaids r + 1) r in
        set_lastActive now r) ;;;
      let expGained := actualDamage / 20 + 10 in
      leveledUp <- gainExperience userId expGained ;;
      h <- gets (fun w => health <$> corporations w !! targetCorp) ;;
      let isDefeated := orDefault h 0 <=? 0 in
      when isDefeated (
        modCorp targetCorp (fun c => set_health (maxHealth c) c) ;;;
        modRebel userId (fun r =>
          let r := set_loyaltyScore (loyaltyScore r + 100) r in
          set_corporationsDefeated (corporationsDefeated r + 1) r) ;;;
        raids <- gets (fun w => totalRaids <$> rebels w !! userId) ;;
        (if orDefault raids 0 =? 1
         then (awardAchievement userId "first_raid" ;;; ret tt)
         else ret tt) ;;;
        awardAchievement userId "first_victory" ;;; ret tt) ;;;
      addLootToInventory now userId corp actualDamage ;;;
      newAchievements <- checkAchievements userId ;;
      processCorporateResponse now targetCorp userId (inject_Z actualDamage) ;;;
      ret (Raided actualDamage expGained leveledUp isDefeated newAchievements)
  end.

(** [handleRaidAction(interaction)]: the button handler in front of
    [executeRaid] *)
Definition handleRaidAction (now : Z) (targetCorp userId : string) : M RaidReply :=
  rebel <- gets (fun w => rebels w !! userId) ;;
  match rebel with
  | None => ret NotEnlisted
  | Some rebel =>
      if energy rebel <? 25 then ret NotEnoughEnergy
      else executeRaid now targetCorp userId
  end.

(** ** The slash command [/raid], commands/raid.js

    [execute(interaction, game)] awaits the narrative service twice: for
    the briefing, after its checks and before its writes, and for the
    result message, after the damage and before the reset of a defeated
    corporation.  The three functions below are the code between these
    suspension points.  The [rebel] and [corporation] objects fetched by
    the checks are used after the awaits; here they are fetched again by
    key, which is the same as long as no rebel is deleted in between
    (only the debug method [resetUser] deletes one). *)

(** up to [await dobby.generateRaidBriefing(..)]; [true]: the raid goes on *)
Definition slashCheck (targetCorp userId : string) : M bool :=
  rebel <- gets (fun w => rebels w !! userId) ;;
  match rebel with
  | None => ret false
  | Some rebel =>
      if energy rebel <? 25 then ret false
      else
        c <- gets (fun w => corporations w !! targetCorp) ;;
        match c with
        | None => ret false
        | Some _ => ret true
        end
  end.

(** from the briefing to [await dobby.generateVictoryMessage(..)]: the
    damage and whether the corporation is defeated *)
Definition slashStrike (now : Z) (targetCorp userId : string) : M (Z * bool) :=
  rebel <- gets (fun w => rebels w !! userId) ;;
  rebel <- fromOption rebel ;;
  let baseDamage := RaidCommand.calculateDamage rebel in
  r <- Math_random ;;
  let actualDamage :=
    floorQ (Qmult (inject_Z baseDamage) (Qplus (tenths 8) (Qmult r (tenths 4)))) in
  modCorp targetCorp (damageCorp actualDamage) ;;;
  modRebel userId (fun r =>
    let r := set_energy (energy r - 25) r in
    let r := set_corporateDamage (corporateDamage r + actualDamage) r in
    let r := set_loyaltyScore (loyaltyScore r + actualDamage / 10) r in
    set_lastActive now r) ;;;
  h <- gets (fun w => health <$> corporations w !! targetCorp) ;;
  ret (actualDamage, orDefault h 0 <=? 0).

Fixpoint drawN (n : nat) : M unit :=
  match n with
  | O => ret tt
  | S n => _ <- Math_random ;; drawN n
  end.

(** after the result message: the reset of a defeated corporation, the
    defeat bonus, and the draws of [generateLoot] for the reply *)
Definition slashFinish (targetCorp userId : string) (actualDamage : Z)
    (isDefeated : bool) : M unit :=
  when isDefeated (
    modCorp targetCorp (fun c => set_health (maxHealth c) c) ;;;
    modRebel userId (fun r => set_loyaltyScore (loyaltyScore r + 100) r)) ;;;
  drawN (Z.to_nat (Z.min 3 (actualDamage / 100 + 1))).

(** ** The coordinated team raid *)

(** the body of the member loop of [executeCoordinatedRaid]; a member
    id without a rebel is skipped ([continue]) *)
Definition memberStrike (f : option Formation) (memberId : string)
    (acc : Z * list MemberResult) : M (Z * list MemberResult) :=
  m <- gets (fun w => rebels w !! memberId) ;;
  match m with
  | None => ret acc
  | Some mem =>
      r <- Math_random ;;
      let baseDamage := floorQ (Qmult r (inject_Z 200)) + 100 in
      fm <- fromOption f ;;
      let formationDamage := floorQ (Qmult (inject_Z baseDamage) (damageBonus fm)) in
      let finalDamage :=
        floorQ (Qmult (inject_Z formationDamage)
                      (Qplus (inject_Z 1) (Qmake (loyaltyScore mem) 1000))) in
      let cost := floorQ (Qmult (inject_Z 30) (energyCost fm)) in
      modRebel memberId (fun r => set_energy (Z.max 0 (energy r - cost)) r) ;;;
      ret (fst acc + finalDamage, snd acc ++ [mkMemberResult memberId finalDamage cost])
  end.

Fixpoint strikeLoop (f : option Formation) (ms : list string)
    (acc : Z * list MemberResult) : M (Z * list MemberResult) :=
  match ms with
  | [] => ret acc
  | memberId :: rest =>
      acc' <- memberStrike f memberId acc ;;
      strikeLoop f rest acc'
  end.

Fixpoint teamItems (now : Z) (corp : Corporation) (total : Z) (len : Z)
    (itemCount : nat) (acc : list Item) : M (list Item) :=
  match itemCount with
  | O => ret acc
  | S n =>
      r <- Math_random ;;
      let randomItem := pick (loot corp) r in
      rid <- Math_random ;;
      randomItem <- fromOption randomItem ;;
      rv <- Math_random ;;
      let item :=
        mkItem (LootId now rid) randomItem (getItemType randomItem) (getItemRarity total)
               (floorQ (Qdiv (Qdiv (inject_Z total) (inject_Z len)) (inject_Z 8))
                + floorQ (Qmult rv (inject_Z 50)))
               ("Team Raid - " ++ cname corp) now None in
      teamItems now corp total len n (acc ++ [item])
  end.

(** [generateTeamLoot(raidParty, totalDamage)] *)
Definition generateTeamLoot (now : Z) (party : RaidParty) (total : Z) : M TeamLoot :=
  c <- gets (fun w => corporations w !! ptarget party) ;;
  fm <- fromOption (assoc (formation party) formations) ;;
  let lootMultiplier := orDefault (lootBonus fm) (inject_Z 1) in
  let teamCredits := floorQ (Qmult (Qdiv (inject_Z total) (inject_Z 3)) lootMultiplier) in
  let len := Z.of_nat (length (members party)) in
  let itemCount := Z.min (len * 2) (total / 150) in
  match Z.to_nat itemCount with
  | O => ret (mkTeamLoot teamCredits [])
  | n =>
      corp <- fromOption c ;;
      its <- teamItems now corp total len n [] ;;
      ret (mkTeamLoot teamCredits its)
  end.

(** the inner [teamLoot.items.forEach] of [distributeTeamLoot]: the
    member at position [index] is offered every item whose position is
    [index] modulo the team size, and takes it while there is room *)
Definition takeShare (len index : nat) (its : list Item) (inv : Inventory) : Inventory :=
  fold_left
    (fun inv p =>
       if Nat.eqb (fst p mod len) index then
         if itemCount inv <? capacity inv then pushItem (snd p) inv else inv
       else inv)
    (combine (seq 0 (length its)) its) inv.

(** [distributeTeamLoot(raidParty, teamLoot)] on the inventory map *)
Definition distributeTeamLoot (party : RaidParty) (tl : TeamLoot)
    (invs : gmap string Inventory) : gmap string Inventory :=
  let len := length (members party) in
  let creditsPerMember := lootCredits tl / Z.of_nat len in
  fold_left
    (fun invs p =>
       alter (fun inv =>
                takeShare len (fst p) (lootItems tl)
                  (set_credits (credits inv + creditsPerMember) inv))
             (snd p) invs)
    (combine (seq 0 len) (members party)) invs.

Fixpoint respondToAll (now : Z) (corpId : string) (ms : list string) (share : Q) : M unit :=
  match ms with
  | [] => ret tt
  | memberId :: rest =>
      m <- gets (fun w => rebels w !! memberId) ;;
      when (bool_decide (is_Some m)) (processCorporateResponse now corpId memberId share) ;;;
      respondToAll now corpId rest share
  end.

(** [executeCoordinatedRaid(raidParty, interaction)] up to its [await];
    the party is the entry [partyId] of [this.raidParties] *)
Definition executeCoordinatedRaid (now : Z) (partyId : string) (party : RaidParty) : M Z :=
  c <- gets (fun w => corporations w !! ptarget party) ;;
  let fm := assoc (formation party) formations in
  res <- strikeLoop fm (members party) (0, []) ;;
  let total := fst res in
  _ <- fromOption c ;;
  modCorp (ptarget party) (damageCorp total) ;;;
  tl <- generateTeamLoot now party total ;;
  modify (set_inventory (distributeTeamLoot party tl)) ;;;
  fm <- fromOption fm ;;
  let stealth := orDefault (stealthBonus fm) (inject_Z 0) in
  r <- Math_random ;;
  when (Qltb stealth r)
       (respondToAll now (ptarget party) (members party)
          (Qdiv (inject_Z total) (inject_Z (Z.of_nat (length (members party)))))) ;;;
  modify (set_raidParties
            (alter (complete_party (mkPartyResults total (snd res) tl now)) partyId)) ;;;
  ret total.

Inductive TeamReply :=
| PartyNotFound
| OnlyLeaderCanExecute
| NotAllReady (ready total : nat)
| CoordinatedRaidDone (totalDamage : Z).

(** [handleExecuteTeamRaid(interaction)] *)
Definition handleExecuteTeamRaid (now : Z) (partyId userId : string) : M TeamReply :=
  p <- gets (fun w => raidParties w !! partyId) ;;
  match p with
  | None => ret PartyNotFound
  | Some raidParty =>
      if negb (String.eqb (leader raidParty) userId) then ret OnlyLeaderCanExecute
      else if (size (readyMembers raidParty) <? length (members raidParty))%nat
      then ret (NotAllReady (size (readyMembers raidParty)) (length (members raidParty)))
      else
        total <- executeCoordinatedRaid now partyId raidParty ;;
        ret (CoordinatedRaidDone total)
  end.

(** ** The defence shop *)

Inductive BuyReply :=
| InventoryNotFound
| InvalidDefensiveItem
| NotEnoughCredits
| InventoryFull
| Purchased.

(** [handleBuyDefensiveItem(interaction)] *)
Definition handleBuyDefensiveItem (now : Z) (userId itemType : string) : M BuyReply :=
  inv <- gets (fun w => inventory w !! userId) ;;
  match inv with
  | None => ret InventoryNotFound
  | Some inv =>
      match assoc itemType defensiveItems with
      | None => ret InvalidDefensiveItem
      | Some d =>
          if credits inv <? cost d then ret NotEnoughCredits
          else if capacity inv <=? itemCount inv then ret InventoryFull
          else
            modInventory userId (fun inv => set_credits (credits inv - cost d) inv) ;;;
            r <- Math_random ;;
            modInventory userId (pushItem
              (mkItem (ShopId now r) (dname d) itemType (drarity d) (cost d)
                      "Defense Shop" now None)) ;;;
            ret Purchased
      end
  end.

End Engine.

(** ** Market sweeps *)

(** [if (sellerInventory && sellerInventory.items.length <
    sellerInventory.capacity) sellerInventory.items.push(item)] *)
Definition returnToSeller (seller : string) (it : Item)
    (invs : gmap string Inventory) : gmap string Inventory :=
  alter (fun inv => if itemCount inv <? capacity inv then pushItem it inv else inv) seller invs.

Definition expired (now : Z) (l : Listing) : bool := expiresAt l <=? now.

(** [cleanupExpiredListings()] *)
Definition cleanupExpiredListings (now : Z) (w : World) : World :=
  let invs :=
    fold_left
      (fun invs p =>
         if expired now (snd p)
         then returnToSeller (lsellerId (snd p)) (litem (snd p)) invs
         else invs)
      (marketplace w) (inventory w) in
  set_marketplace (List.filter (fun p => negb (expired now (snd p))) (marketplace w))
                  (set_inventory (fun _ => invs) w).

(** the body of the loop of [processAuctionTimers] for one auction;
    [Math.floor(auction.currentBid * 0.1)] is the exact tenth rounded down *)
Definition settleAuction (now : Z) (invs : gmap string Inventory) (a : Auction)
    : gmap string Inventory * Auction :=
  if String.eqb (astatus a) "active" && (aendTime a <=? now) then
    if (startingBid a <? currentBid a) && truthyString (currentBidder a) then
      match currentBidder a with
      | Some bidder =>
          match invs !! bidder with
          | Some winnerInventory =>
              if itemCount winnerInventory <? capacity winnerInventory then
                let invs := <[ bidder := pushItem (aitem a) winnerInventory ]> invs in
                let houseFee := floorQ (Qmult (inject_Z (currentBid a)) (tenths 1)) in
                let sellerAmount := currentBid a - houseFee in
                let invs :=
                  alter (fun s => set_credits (credits s + sellerAmount) s) (sellerId a) invs in
                (invs, set_auction_status "completed" (Some bidder) a)
              else (invs, a)
          | None => (invs, a)
          end
      | None => (invs, a)
      end
    else
      (returnToSeller (sellerId a) (aitem a) invs,
       set_auction_status "expired" (winner a) a)
  else (invs, a).

Fixpoint sweepAuctions (now : Z) (invs : gmap string Inventory)
    (l : list (string * Auction)) : gmap string Inventory * list (string * Auction) :=
  match l with
  | [] => (invs, [])
  | (auctionId, a) :: rest =>
      let (invs1, a') := settleAuction now invs a in
      let (invs2, rest') := sweepAuctions now invs1 rest in
      (invs2, (auctionId, a') :: rest')
  end.

(** [processAuctionTimers()] *)
Definition processAuctionTimers (now : Z) (w : World) : World :=
  let (invs, l) := sweepAuctions now (inventory w) (auctions w) in
  set_auctions l (set_inventory (fun _ => invs) w).

(** ** Snapshots: [createBackup] and [loadBackup]

    The snapshot code does not look inside the entities: it turns every
    map of the game into a plain object, writes the lot with
    [JSON.stringify] and reads it back with [JSON.parse].  Here an entity
    is therefore an untyped JavaScript value. *)

Module Backup.

#[local] Set Warnings "-register-all".

Inductive jsval :=
| JUndefined
| JNull
| JBool (b : bool)
| JNum (n : Z)
| JNaN
| JStr (s : string)
| JDate (ms : Z)
| JArr (l : list jsval)
| JObj (l : list (string * jsval))
| JMap (l : list (string * jsval))
| JSet (l : list jsval).

Section Json.

(** [Date.prototype.toISOString] *)
Variable toISOString : Z -> string.

(** [JSON.parse(JSON.stringify(v))]; [None] when [stringify] gives
    [undefined].  A [Map] or a [Set] has no enumerable property of its own
    and is written as an empty object; a [Date] is written as its ISO
    string; [undefined] is dropped from an object and written as [null]
    in an array; [NaN] is written as [null]. *)
Fixpoint throughJSON (v : jsval) : option jsval :=
  match v with
  | JUndefined => None
  | JNull => Some JNull
  | JBool b => Some (JBool b)
  | JNum n => Some (JNum n)
  | JNaN => Some JNull
  | JStr s => Some (JStr s)
  | JDate ms => Some (JStr (toISOString ms))
  | JArr l =>
      Some (JArr (map (fun x => match throughJSON x with Some y => y | None => JNull end) l))
  | JObj l =>
      Some (JObj ((fix props (l : list (string * jsval)) : list (string * jsval) :=
                     match l with
                     | [] => []
                     | (k, x) :: t =>
                         match throughJSON x with
                         | Some y => (k, y) :: props t
                         | None => props t
                         end
                     end) l))
  | JMap _ => Some (JObj [])
  | JSet _ => Some (JObj [])
  end.

(** the thirteen maps that [createBackup] saves and [loadBackup] restores *)
Record Maps := mkMaps {
  rebels : gmap string jsval;
  corporations : gmap string jsval;
  inventory : gmap string jsval;
  achievements : gmap string jsval;
  activeTrades : gmap string jsval;
  marketplace : gmap string jsval;
  auctions : gmap string jsval;
  dailyMissions : gmap string jsval;
  globalEvents : gmap string jsval;
  raidParties : gmap string jsval;
  resistanceCells : gmap string jsval;
  leaderboard : gmap string jsval;
  cooldowns : gmap string jsval
}.

(** [Object.fromEntries(map)] *)
Definition fromEntries (m : gmap string jsval) : jsval := JObj (map_to_list m).

(** [new Map(Object.entries(o || {}))] *)
Definition entriesMap (o : option jsval) : gmap string jsval :=
  match o with
  | Some (JObj l) => list_to_map l
  | _ => ∅
  end.

(** [createBackup()]: the object handed to [JSON.stringify] *)
Definition backupData (now : Z) (w : Maps) : jsval :=
  JObj [ ("timestamp", JStr (toISOString now));
         ("rebels", fromEntries (rebels w));
         ("corporations", fromEntries (corporations w));
         ("inventory", fromEntries (inventory w));
         ("achievements", fromEntries (achievements w));
         ("activeTrades", fromEntries (activeTrades w));
         ("marketplace", fromEntries (marketplace w));
         ("auctions", fromEntries (auctions w));
         ("dailyMissions", fromEntries (dailyMissions w));
         ("globalEvents", fromEntries (globalEvents w));
         ("raidParties", fromEntries (raidParties w));
         ("resistanceCells", fromEntries (resistanceCells w));
         ("leaderboard", fromEntries (leaderboard w));
         ("cooldowns", fromEntries (cooldowns w)) ].

(** the content of the backup file, as [JSON.parse] returns it *)
Definition createBackup (now : Z) (w : Maps) : option jsval :=
  throughJSON (backupData now w).

Definition field (k : string) (v : jsval) : option jsval :=
  match v with
  | JObj l => assoc k l
  | _ => None
  end.

(** [loadBackup(backupFile)], from the parsed file *)
Definition loadBackup (data : jsval) : Maps :=
  mkMaps (entriesMap (field "rebels" data))
         (entriesMap (field "corporations" data))
         (entriesMap (field "inventory" data))
         (entriesMap (field "achievements" data))
         (entriesMap (field "activeTrades" data))
         (entriesMap (field "marketplace" data))
         (entriesMap (field "auctions" data))
         (entriesMap (field "dailyMissions" data))
         (entriesMap (field "globalEvents" data))
         (entriesMap (field "raidParties" data))
         (entriesMap (field "resistanceCells" data))
         (entriesMap (field "leaderboard" data))
         (entriesMap (field "cooldowns" data)).

Definition restore (now : Z) (w : Maps) : option Maps :=
  loadBackup <$> createBackup now w.

(** a value used as a condition *)
Definition truthy (v : jsval) : bool :=
  match v with
  | JUndefined | JNull | JNaN | JBool false => false
  | JNum n => negb (n =? 0)
  | JStr s => negb (String.eqb s "")
  | _ => true
  end.

(** [setCooldown(userId, action, duration)]: [this.cooldowns.get(userId)
    || new Map()], then [set] on it, which is a [TypeError] on a value
    that is not a [Map] *)
Definition setCooldown (now : Z) (userId action : string) (duration : Z) (w : Maps)
    : Res Maps :=
  let entry := (action, JNum (now + duration * 1000)) in
  let store l :=
    let l' := if bool_decide (is_Some (assoc action l))
              then map (fun p => if String.eqb (fst p) action then entry else p) l
              else l ++ [entry] in
    Ok (mkMaps (rebels w) (corporations w) (inventory w) (achievements w) (activeTrades w)
               (marketplace w) (auctions w) (dailyMissions w) (globalEvents w)
               (raidParties w) (resistanceCells w) (leaderboard w)
               (<[ userId := JMap l' ]> (cooldowns w))) in
  match cooldowns w !! userId with
  | None => store []
  | Some (JMap l) => store l
  | Some v => if truthy v then Throw else store []
  end.

(** [isOnCooldown(userId, action)]; calling [get] on an entry that is not
    a [Map] is a [TypeError].  The ends of cooldowns are numbers. *)
Definition isOnCooldown (now : Z) (userId action : string) (w : Maps) : Res bool :=
  match cooldowns w !! userId with
  | None => Ok false
  | Some (JMap l) =>
      match assoc action l with
      | Some (JNum cooldownEnd) => Ok (negb (cooldownEnd =? 0) && (now <? cooldownEnd))
      | _ => Ok false
      end
  | Some v => if truthy v then Throw else Ok false
  end.

End Json.
End Backup.

(** ** Concurrent raids under the event loop

    The event loop runs the code between two suspension points to
    completion, and may run the pieces of different requests in any order
    that keeps the pieces of one request in order.

    A raid through the button runs in two pieces: [handleRaidAction]
    with [executeRaid] up to its first [await], which contains every
    write of the raid, and the reply.  A raid through the slash command
    runs in three: the checks, the strike, and the finish, which resets a
    corporation that the strike defeated.

    A schedule names, step by step, the request whose next piece runs.
    Every request leaves one entry in the log: the damage and the defeat
    flag of its strike, or [None] when it was turned down or threw. *)

Inductive Request :=
| ButtonRaid (now : Z) (userId : string)
| SlashRaid (now : Z) (userId : string).

Inductive Task :=
| Waiting (req : Request)
| Briefing (now : Z) (userId : string)
| Narrating (finish : option (string * Z * bool))
| Finished.

Definition Log : Type := list (option (Z * bool)).

(** what a raid through the button reports *)
Definition reported (r : Res RaidReply) : option (Z * bool) :=
  match r with
  | Ok (Raided d _ _ isDefeated _) => Some (d, isDefeated)
  | _ => None
  end.

Section Concurrency.

Variable random : nat -> Q.

(** the next piece of a task; [None]: the task has nothing left to run *)
Definition runTask (corpId : string) (t : Task) (st : World * Log)
    : option (Task * (World * Log)) :=
  match t with
  | Waiting (ButtonRaid now userId) =>
      let res := handleRaidAction random now corpId userId (fst st) in
      Some (Narrating None, (snd res, snd st ++ [reported (fst res)]))
  | Waiting (SlashRaid now userId) =>
      let res := slashCheck corpId userId (fst st) in
      match fst res with
      | Ok true => Some (Briefing now userId, (snd res, snd st))
      | _ => Some (Finished, (snd res, snd st ++ [None]))
      end
  | Briefing now userId =>
      let res := slashStrike random now corpId userId (fst st) in
      match fst res with
      | Ok (d, isDefeated) =>
          Some (Narrating (Some (userId, d, isDefeated)),
                (snd res, snd st ++ [Some (d, isDefeated)]))
      | Throw => Some (Finished, (snd res, snd st ++ [None]))
      end
  | Narrating None => Some (Finished, st)
  | Narrating (Some (userId, d, isDefeated)) =>
      Some (Finished, (execM (slashFinish random corpId userId d isDefeated) (fst st), snd st))
  | Finished => None
  end.

Fixpoint runSchedule (corpId : string) (sched : list nat) (tasks : list Task)
    (st : World * Log) : option (list Task * (World * Log)) :=
  match sched with
  | [] => Some (tasks, st)
  | i :: rest =>
      match tasks !! i with
      | Some t =>
          match runTask corpId t st with
          | Some (t', st') => runSchedule corpId rest (<[ i := t' ]> tasks) st'
          | None => None
          end
      | None => None
      end
  end.

End Concurrency.

(** every request has run to its end *)
Definition allDone (tasks : list Task) : bool :=
  forallb (fun t => match t with Finished => true | _ => false end) tasks.

Definition sumZ (l : list Z) : Z := fold_right Z.add 0 l.

(** ** Sample data: the catalogue and a new rebel *)

(** the rebel record of [createRebel], as written there (the
    achievement that [createRebel] then awards adds 10 loyalty) *)
Definition newRebel (rebelClass : string) (now : Z) : Rebel :=
  mkRebel rebelClass 1 0 100 100 0 0 0 0 now (mkStats 10 10 10 10).

(** the inventory that [createRebel] builds *)
Definition newInventory : Inventory := mkInventory [] 20 100.

(** the entry ['openai'] of [initializeGameData] *)
Definition openai : Corporation :=
  mkCorporation "OpenAI Corp" 10000 10000
    ["Proprietary Models"; "Closed APIs"; "Corporate Secrets"] 0 [] None ∅ ∅.

Definition emptyWorld : World := mkWorld ∅ ∅ ∅ ∅ ∅ [] [] 0.

(** a world with rebels of the given ids (all of one class, loyalty 0,
    no achievement yet), their inventories and one corporation *)
Definition worldOf (ids : list string) (rebelClass : string) (corp : Corporation) : World :=
  mkWorld (list_to_map (map (fun u => (u, newRebel rebelClass 0)) ids))
          {[ "openai" := corp ]}
          (list_to_map (map (fun u => (u, newInventory)) ids))
          (list_to_map (map (fun u => (u, @nil string)) ids))
          ∅ [] [] 0.

Definition junk (n : nat) : Item :=
  mkItem (DropId 0 n) "Corporate Secrets" "intel" "common" 5 "OpenAI Corp" 0 None.

(** ** Vocabulary of the statements, and more sample data *)

Definition emptyMaps : Backup.Maps :=
  Backup.mkMaps ∅ ∅ ∅ ∅ ∅ ∅ ∅ ∅ ∅ ∅ ∅ ∅ ∅.

(** the maps after [setCooldown('u1', 'raid', 300)] at time 1000 *)
Definition cooldownMaps : Backup.Maps :=
  Backup.mkMaps ∅ ∅ ∅ ∅ ∅ ∅ ∅ ∅ ∅ ∅ ∅ ∅
    {[ "u1" := Backup.JMap [("raid", Backup.JNum 301000)] ]}.

(** Values made of numbers, strings, booleans, [null], arrays and plain
    objects come back from the file as they were. *)
Fixpoint plain (v : Backup.jsval) : bool :=
  match v with
  | Backup.JNull | Backup.JBool _ | Backup.JNum _ | Backup.JStr _ => true
  | Backup.JArr l => forallb plain l
  | Backup.JObj l =>
      (fix all (l : list (string * Backup.jsval)) : bool :=
         match l with
         | [] => true
         | (_, x) :: t => plain x && all t
         end) l
  | _ => false
  end.

(** An inventory [y] is a later state of [x] when it has the same
    capacity, at least as many items, and no more items than capacity
    unless [x] already had them.  Every write to an item list below is a
    guarded [push]. *)
Definition grows (x y : Inventory) : Prop :=
  capacity y = capacity x
  /\ (length (items x) <= length (items y))%nat
  /\ itemCount y <= Z.max (itemCount x) (capacity x).

(** the same, for every owner of a map of inventories *)
Definition invLe (a b : gmap string Inventory) : Prop :=
  forall u, match a !! u, b !! u with
            | Some x, Some y => grows x y
            | None, None => True
            | _, _ => False
            end.

(** every entity of every map is plain data *)
Definition plainMaps (w : Backup.Maps) : Prop :=
  map_Forall (fun _ v => plain v = true) (Backup.rebels w)
  /\ map_Forall (fun _ v => plain v = true) (Backup.corporations w)
  /\ map_Forall (fun _ v => plain v = true) (Backup.inventory w)
  /\ map_Forall (fun _ v => plain v = true) (Backup.achievements w)
  /\ map_Forall (fun _ v => plain v = true) (Backup.activeTrades w)
  /\ map_Forall (fun _ v => plain v = true) (Backup.marketplace w)
  /\ map_Forall (fun _ v => plain v = true) (Backup.auctions w)
  /\ map_Forall (fun _ v => plain v = true) (Backup.dailyMissions w)
  /\ map_Forall (fun _ v => plain v = true) (Backup.globalEvents w)
  /\ map_Forall (fun _ v => plain v = true) (Backup.raidParties w)
  /\ map_Forall (fun _ v => plain v = true) (Backup.resistanceCells w)
  /\ map_Forall (fun _ v => plain v = true) (Backup.leaderboard w)
  /\ map_Forall (fun _ v => plain v = true) (Backup.cooldowns w).

(** the number of team-loot items that [takeShare] offers to the member at
    position [index] *)
Definition offered (len index : nat) (its : list Item) : nat :=
  length (List.filter (fun p => Nat.eqb (fst p mod len) index)
                      (combine (seq 0 (length its)) its)).

Definition withinCapacity (invs : gmap string Inventory) : Prop :=
  forall u inv, invs !! u = Some inv -> itemCount inv <= capacity inv.

Definition auctionA1 : Auction :=
  mkAuction (junk 1) "seller" 100 200 (Some "bidder") "active" 1000 None.

(** the bidder of [auctionA1] has one slot and one item in it *)
Definition fullBidderWorld : World :=
  set_auctions [("A1", auctionA1)]
    (set_inventory
       (fun _ => {[ "seller" := newInventory; "bidder" := mkInventory [junk 0] 1 500 ]})
       emptyWorld).

(** the bidder of [auctionA1] has room *)
Definition roomyBidderWorld : World :=
  set_auctions [("A1", auctionA1)]
    (set_inventory
       (fun _ => {[ "seller" := newInventory; "bidder" := mkInventory [junk 0] 5 500 ]})
       emptyWorld).

Definition Steps {A} (R : World -> World -> Prop) (m : M A) : Prop :=
  forall w, R w (snd (m w)).

(** [keeps proj]: the part [proj] of the world is unchanged *)
Definition keeps {B} (proj : World -> B) : World -> World -> Prop :=
  fun w w' => proj w' = proj w.

(** the inventories have only grown, within capacity *)
Definition invGrows : World -> World -> Prop :=
  fun w w' => invLe (inventory w) (inventory w').

(** health and maximum health of every corporation *)
Definition corpVitals (w : World) : gmap string (Z * Z) :=
  (fun c => (health c, maxHealth c)) <$> corporations w.

Definition crowdedInventory : Inventory := mkInventory (map junk (seq 0 19)) 20 100.

Definition crowdedWorld : World :=
  set_inventory (fun _ => {[ "u1" := crowdedInventory ]})
                (worldOf ["u1"] "Model Trainer" openai).

(** no [/raid] stands between a strike that defeated the corporation
    and its finish, which resets the health *)
Definition noPendingReset (tasks : list Task) : Prop :=
  Forall (fun t => forall u d, t <> Narrating (Some (u, d, true))) tasks.

(** [Settled corpId h0 mh ds w tasks]: with [ds] the damages and defeat
    flags reported so far against a corporation that started at health
    [h0]: either the damages have reached [h0] and a defeat was reported,
    or they have not, no defeat was reported, no reset is pending and the
    health is [h0] minus their sum. *)
Definition Settled (corpId : string) (h0 mh : Z) (ds : list (Z * bool)) (w : World)
    (tasks : list Task) : Prop :=
  (h0 <= sumZ (map fst ds) /\ Exists (fun p => snd p = true) ds)
  \/ (sumZ (map fst ds) < h0
      /\ corpVitals w !! corpId = Some (h0 - sumZ (map fst ds), mh)
      /\ Forall (fun p => snd p = false) ds
      /\ noPendingReset tasks).

(** a task that has not yet left its entry in the log *)
Definition unlogged (t : Task) : bool :=
  match t with
  | Waiting _ | Briefing _ _ => true
  | _ => false
  end.

Definition countUnlogged (tasks : list Task) : nat :=
  length (List.filter unlogged tasks).

(** a raid through the button by a new rebel and a raid through the slash
    command by another; the slash command passes its checks first, the
    button raid runs during the briefing, the slash command strikes
    before the button raid has replied *)
Definition twoRaids : list Request := [ButtonRaid 5000 "u1"; SlashRaid 5001 "u2"].
Definition twoRaidsSchedule : list nat := [1%nat; 0%nat; 1%nat; 0%nat; 1%nat].
Definition twoRaidsRun :=
  runSchedule (fun _ => Qmake 1 2) "openai" twoRaidsSchedule (map Waiting twoRaids)
              (worldOf ["u1"; "u2"] "Model Trainer" openai, []).
Definition twoRaidsWorld : World :=
  match twoRaidsRun with Some (_, (w, _)) => w | None => emptyWorld end.

(** a draw of [Math.random()] lies in [0, 1) *)
Definition inUnit (r : Q) : Prop := Qle (inject_Z 0) r /\ Qlt r (inject_Z 1).

(** ** The inventory desk: selling, upgrading, training *)

Inductive SellReply :=
| SellInventoryNotFound
| NoItemsToSell
| NoCommonItemsToSell
| Sold (count : nat) (totalValue creditsNow : Z).

(** [item.rarity === 'common' || item.rarity === 'uncommon'] *)
Definition sellable (it : Item) : bool :=
  String.eqb (rarity it) "common" || String.eqb (rarity it) "uncommon".

(** [item.rarity !== 'common' && item.rarity !== 'uncommon'] *)
Definition kept (it : Item) : bool :=
  negb (String.eqb (rarity it) "common") && negb (String.eqb (rarity it) "uncommon").

Definition set_items (l : list Item) (inv : Inventory) : Inventory :=
  mkInventory l (capacity inv) (credits inv).

Definition set_capacity (v : Z) (inv : Inventory) : Inventory :=
  mkInventory (items inv) v (credits inv).

(** [handleSellItems(interaction)] *)
Definition handleSellItems (userId : string) : M SellReply :=
  inv <- gets (fun w => inventory w !! userId) ;;
  rebel <- gets (fun w => rebels w !! userId) ;;
  match inv, rebel with
  | Some inv, Some _ =>
      if (length (items inv) =? 0)%nat then ret NoItemsToSell
      else
        let itemsToSell := List.filter sellable (items inv) in
        if (length itemsToSell =? 0)%nat then ret NoCommonItemsToSell
        else
          let totalValue := fold_left (fun sum it => sum + value it) itemsToSell 0 in
          modInventory userId (fun inv => set_credits (credits inv + totalValue) inv) ;;;
          modInventory userId (fun inv => set_items (List.filter kept (items inv)) inv) ;;;
          ret (Sold (length itemsToSell) totalValue (credits inv + totalValue))
  | _, _ => ret SellInventoryNotFound
  end.

Inductive UpgradeReply :=
| UpgradeInventoryNotFound
| UpgradeTooExpensive (upgradeCost : Z)
| Upgraded (capacityNow creditsNow : Z).

(** [handleUpgradeInventory(interaction)] *)
Definition handleUpgradeInventory (userId : string) : M UpgradeReply :=
  inv <- gets (fun w => inventory w !! userId) ;;
  match inv with
  | None => ret UpgradeInventoryNotFound
  | Some inv =>
      let upgradeCost := capacity inv * 10 in
      if credits inv <? upgradeCost then ret (UpgradeTooExpensive upgradeCost)
      else
        modInventory userId (fun inv => set_credits (credits inv - upgradeCost) inv) ;;;
        modInventory userId (fun inv => set_capacity (capacity inv + 5) inv) ;;;
        ret (Upgraded (capacity inv + 5) (credits inv - upgradeCost))
  end.

Inductive TrainReply :=
| TrainNotEnlisted
| TrainTooExpensive (trainingCost : Z)
| Trained (creditsNow : Z).

(** [handleTrainAbilities(interaction)] *)
Definition handleTrainAbilities (userId : string) : M TrainReply :=
  rebel <- gets (fun w => rebels w !! userId) ;;
  match rebel with
  | None => ret TrainNotEnlisted
  | Some rebel =>
      inv <- gets (fun w => inventory w !! userId) ;;
      let trainingCost := level rebel * 100 in
      match inv with
      | None => ret (TrainTooExpensive trainingCost)
      | Some inv =>
          if credits inv <? trainingCost then ret (TrainTooExpensive trainingCost)
          else
            modInventory userId (fun inv => set_credits (credits inv - trainingCost) inv) ;;;
            modRebel userId (fun r =>
              set_stats (mkStats (strength (stats r) + 1) (intelligence (stats r) + 1)
                                 (charisma (stats r) + 1) (stealth (stats r) + 1)) r) ;;;
            ret (Trained (credits inv - trainingCost))
      end
  end.

(** ** The timers: the callbacks that [setInterval] runs

    Each is one synchronous sweep over a map. *)

(** the body of the loop of [startEnergyRegeneration] for one rebel; the
    time stamp [lastEnergyRegen] that the loop also writes is read nowhere
    and is not a field of [Rebel] *)
Definition regenerateEnergy (rebel : Rebel) : Rebel :=
  if energy rebel <? maxEnergy rebel
  then set_energy (Z.min (energy rebel + 1) (maxEnergy rebel)) rebel
  else rebel.

(** the callback of [startEnergyRegeneration], every minute *)
Definition energyRegeneration (w : World) : World :=
  set_rebels (fmap regenerateEnergy) w.

(** the body of the loop of [startCorporateHealthRegeneration] for one
    corporation; [Math.floor(corp.maxHealth * 0.005)] is the exact
    two-hundredth rounded down *)
Definition regenerateHealth (corp : Corporation) : Corporation :=
  if health corp <? maxHealth corp then
    let regenAmount := floorQ (Qmult (inject_Z (maxHealth corp)) (Qmake 5 1000)) in
    set_health (Z.min (health corp + regenAmount) (maxHealth corp)) corp
  else corp.

(** the callback of [startCorporateHealthRegeneration], every five minutes *)
Definition corporateHealthRegeneration (w : World) : World :=
  set_corporations (fmap regenerateHealth) w.

(** the callback of [startDailyReset], every minute, with the local hour
    and minute of the clock: at midnight every rebel is set to 100
    energy ([dailyMissions] is not part of the world) *)
Definition dailyReset (hours minutes : Z) (w : World) : World :=
  if (hours =? 0) && (minutes =? 0)
  then set_rebels (fmap (set_energy 100)) w
  else w.

(** the callback of [startMarketUpdates], every two minutes:
    [updateMarketPrices], which writes to [marketPriceFluctuations] only,
    then the two sweeps, each of which reads the clock for itself *)
Definition marketUpdate (nowListings nowAuctions : Z) (w : World) : World :=
  processAuctionTimers nowAuctions (cleanupExpiredListings nowListings w).

(** ** Enlisting *)

(** [createRebel(userId, username, rebelClass)] *)
Definition createRebel (now : Z) (userId rebelClass : string) : M unit :=
  modify (set_inventory (insert userId newInventory)) ;;;
  modify (set_achievements (insert userId [])) ;;;
  modify (set_rebels (insert userId (newRebel rebelClass now))) ;;;
  awardAchievement userId "first_rebel" ;;;
  ret tt.

(** [getClassNameFromId(customId)]: [classMap[customId] || 'Protocol Hacker'] *)
Definition getClassNameFromId (customId : string) : string :=
  orDefault (assoc customId
               [ ("class_protocol_hacker", "Protocol Hacker");
                 ("class_model_trainer", "Model Trainer");
                 ("class_data_liberator", "Data Liberator");
                 ("class_community_organizer", "Community Organizer");
                 ("class_enclave_guardian", "Enclave Guardian") ])
            "Protocol Hacker".

Inductive ClassReply :=
| AlreadyRebel
| Welcome (className : string).

(** [handleClassSelection(interaction)] up to its first [await] *)
Definition handleClassSelection (now : Z) (customId userId : string) : M ClassReply :=
  let className := getClassNameFromId customId in
  rebel <- gets (fun w => rebels w !! userId) ;;
  match rebel with
  | Some _ => ret AlreadyRebel
  | None =>
      createRebel now userId className ;;;
      ret (Welcome className)
  end.

(** ** The buttons of a raid party *)

Definition set_readyMembers (s : gset string) (p : RaidParty) : RaidParty :=
  mkRaidParty (leader p) (members p) s (ptarget p) (formation p) (pstate p) (results p).
Definition set_members (l : list string) (p : RaidParty) : RaidParty :=
  mkRaidParty (leader p) l (readyMembers p) (ptarget p) (formation p) (pstate p) (results p).
Definition set_leader (u : string) (p : RaidParty) : RaidParty :=
  mkRaidParty u (members p) (readyMembers p) (ptarget p) (formation p) (pstate p) (results p).

Definition modParty (partyId : string) (f : RaidParty -> RaidParty) : M unit :=
  modify (set_raidParties (alter f partyId)).

Inductive ReadyReply :=
| ReadyPartyNotFound
| ReadyNotAMember
| NoLongerReady
| NowReady (ready total : nat).

(** [handleReadyForRaid(interaction)], with the party id that the handler
    cuts out of the custom id *)
Definition handleReadyForRaid (partyId userId : string) : M ReadyReply :=
  p <- gets (fun w => raidParties w !! partyId) ;;
  match p with
  | None => ret ReadyPartyNotFound
  | Some raidParty =>
      if negb (existsb (String.eqb userId) (members raidParty)) then ret ReadyNotAMember
      else if bool_decide (userId ∈ readyMembers raidParty) then
        modParty partyId (fun p => set_readyMembers (readyMembers p ∖ {[ userId ]}) p) ;;;
        ret NoLongerReady
      else
        modParty partyId (fun p => set_readyMembers (readyMembers p ∪ {[ userId ]}) p) ;;;
        ret (NowReady (size (readyMembers raidParty ∪ {[ userId ]}))
                      (length (members raidParty)))
  end.

Inductive LeaveReply :=
| LeavePartyNotFound
| LeadershipTransferred (newLeader : string)
| PartyDisbanded
| LeftParty.

(** [handleLeavePartyButton(interaction)], with the party id that the
    handler cuts out of the custom id *)
Definition handleLeavePartyButton (partyId userId : string) : M LeaveReply :=
  p <- gets (fun w => raidParties w !! partyId) ;;
  match p with
  | None => ret LeavePartyNotFound
  | Some raidParty =>
      let remaining := List.filter (fun id => negb (String.eqb id userId)) (members raidParty) in
      modParty partyId (set_members remaining) ;;;
      modParty partyId (fun p => set_readyMembers (readyMembers p ∖ {[ userId ]}) p) ;;;
      if String.eqb (leader raidParty) userId then
        match remaining with
        | first :: _ =>
            modParty partyId (set_leader first) ;;;
            ret (LeadershipTransferred first)
        | [] =>
            modify (set_raidParties (delete partyId)) ;;;
            ret PartyDisbanded
        end
      else ret LeftParty
  end.

(** ** Cooldowns and abilities

    In memory an entry of [this.cooldowns] is either the [Map] from
    actions to end times that [setCooldown] keeps under a user id, or the
    time stamp that [handleUseAbility] stores under an ability key. *)

Inductive CooldownEntry :=
| UserCooldowns (ends : gmap string Z)
| LastUsed (at_ : Z).

(** [this.cooldowns.get(userId)] used as a [Map]: [None] when the entry
    is missing or falsy, a [TypeError] when it is a non-zero number *)
Definition userCooldowns (userId : string) (cds : gmap string CooldownEntry)
    : Res (option (gmap string Z)) :=
  match cds !! userId with
  | None => Ok None
  | Some (UserCooldowns ends) => Ok (Some ends)
  | Some (LastUsed t) => if t =? 0 then Ok None else Throw
  end.

(** [setCooldown(userId, action, duration)] *)
Definition setCooldown (now : Z) (userId action : string) (duration : Z)
    (cds : gmap string CooldownEntry) : Res (gmap string CooldownEntry) :=
  match userCooldowns userId cds with
  | Ok ends =>
      Ok (<[ userId := UserCooldowns (<[ action := now + duration * 1000 ]> (orDefault ends ∅)) ]>
            cds)
  | Throw => Throw
  end.

(** [isOnCooldown(userId, action)] *)
Definition isOnCooldown (now : Z) (userId action : string)
    (cds : gmap string CooldownEntry) : Res bool :=
  match userCooldowns userId cds with
  | Ok None => Ok false
  | Ok (Some ends) =>
      match ends !! action with
      | None => Ok false
      | Some cooldownEnd => if cooldownEnd =? 0 then Ok false else Ok (now <? cooldownEnd)
      end
  | Throw => Throw
  end.

(** [Math.ceil(n / d)] for a positive [d] *)
Definition ceilDiv (n d : Z) : Z := - ((- n) / d).

(** [getCooldownRemaining(userId, action)] *)
Definition getCooldownRemaining (now : Z) (userId action : string)
    (cds : gmap string CooldownEntry) : Res Z :=
  match userCooldowns userId cds with
  | Ok None => Ok 0
  | Ok (Some ends) =>
      match ends !! action with
      | None => Ok 0
      | Some cooldownEnd =>
          if cooldownEnd =? 0 then Ok 0
          else
            let remaining := cooldownEnd - now in
            Ok (Z.max 0 (ceilDiv remaining 1000))
      end
  | Throw => Throw
  end.

(** an ability: its [name] and its [energyCost] *)
Record Ability := mkAbility {
  abilityName : string;
  abilityCost : Z
}.

(** [getRebelAbilities(rebel)]: name and energy cost *)
Definition classAbilities : list (string * list Ability) :=
  [ ("Protocol Hacker", [mkAbility "System Breach" 30; mkAbility "Code Injection" 25]);
    ("Model Trainer", [mkAbility "AI Loyalty" 20; mkAbility "Neural Network" 35]);
    ("Data Liberator", [mkAbility "Data Liberation" 25; mkAbility "Encryption Shield" 40]);
    ("Community Organizer", [mkAbility "Rally Call" 30; mkAbility "Coordination" 25]);
    ("Enclave Guardian", [mkAbility "Shield Wall" 35; mkAbility "Fortress Mode" 45]) ].

Definition getRebelAbilities (rebel : Rebel) : list Ability :=
  orDefault (assoc (rclass rebel) classAbilities)
            [mkAbility "Basic Attack" 15; mkAbility "Focus" 10].

Inductive AbilityReply :=
| AbilityNotEnlisted
| AbilityNotFound
| AbilityOnCooldown (minutesLeft : Z)
| AbilityNotEnoughEnergy (needed have : Z)
| AbilityActivated (name : string) (cost : Z).

(** the cooldown key [`ability_${userId}_${abilityKey}`] *)
Definition cooldownKey (userId : string) (abilityKey : nat) : string :=
  "ability_" ++ userId ++ "_" ++ (if Nat.eqb abilityKey 0 then "0" else "1").

(** [executeAbilityEffects(rebel, ability, abilityIndex)]: the one
    ability with an effect on the state *)
Definition executeAbilityEffects (userId : string) (ability : Ability) : M unit :=
  if String.eqb (abilityName ability) "AI Loyalty"
  then modRebel userId (fun r => set_loyaltyScore (loyaltyScore r + 50) r)
  else ret tt.

(** [handleUseAbility(interaction)]; the cooldown map goes in and comes
    out beside the world.  An entry under the ability key that is a
    [Map] is truthy, and [Date.now() - lastUsed] is then [NaN], which is
    not below the cooldown time. *)
Definition handleUseAbility (now : Z) (customId userId : string)
    (cds : gmap string CooldownEntry) : M (AbilityReply * gmap string CooldownEntry) :=
  let abilityKey := if String.eqb customId "use_ability_1" then 0%nat else 1%nat in
  rebel <- gets (fun w => rebels w !! userId) ;;
  match rebel with
  | None => ret (AbilityNotEnlisted, cds)
  | Some rebel =>
      match nth_error (getRebelAbilities rebel) abilityKey with
      | None => ret (AbilityNotFound, cds)
      | Some ability =>
          let key := cooldownKey userId abilityKey in
          let cooldownTime := 300000 in
          let use :=
            if energy rebel <? abilityCost ability
            then ret (AbilityNotEnoughEnergy (abilityCost ability) (energy rebel), cds)
            else
              modRebel userId (fun r => set_energy (energy r - abilityCost ability) r) ;;;
              executeAbilityEffects userId ability ;;;
              ret (AbilityActivated (abilityName ability) (abilityCost ability),
                   <[ key := LastUsed now ]> cds) in
          match cds !! key with
          | Some (LastUsed lastUsed) =>
              if negb (lastUsed =? 0) && (now - lastUsed <? cooldownTime)
              then ret (AbilityOnCooldown
                          (ceilDiv (cooldownTime - (now - lastUsed)) 60000), cds)
              else use
          | _ => use
          end
      end
  end.

(** ** Activating a shield *)

Definition set_activatedAt (t : option Z) (it : Item) : Item :=
  mkItem (itemId it) (itemName it) (itemType it) (rarity it) (value it)
         (acquiredFrom it) (acquiredAt it) t.

(** [this.defensiveItems.get(item.type).protection] *)
Definition protectionOf (it : Item) : Z :=
  orDefault (protection <$> assoc (itemType it) defensiveItems) 0.

(** the filter of [handleActivateShield]: a defensive item that was never
    activated or has run out *)
Definition available (now : Z) (it : Item) : bool :=
  match assoc (itemType it) defensiveItems with
  | Some d => negb (truthyTime (activatedAt it))
              || (duration d <=? now - orDefault (activatedAt it) 0)
  | None => false
  end.

(** [defensiveItems.reduce((best, item) => itemProtection > bestProtection
    ? item : best)], without an initial value; the items go with their
    positions in the inventory *)
Definition bestOf (l : list (nat * Item)) : option (nat * Item) :=
  match l with
  | [] => None
  | first :: rest =>
      Some (fold_left (fun best p =>
                         if protectionOf (snd best) <? protectionOf (snd p) then p else best)
                      rest first)
  end.

Inductive ShieldReply :=
| ShieldNotFound
| NoDefensiveItems
| ShieldActivated (shieldName : string) (percent minutes : Z).

(** [handleActivateShield(interaction)]; [bestItem.activatedAt =
    Date.now()] writes to the item object, which sits in the inventory
    at the position it was found at *)
Definition handleActivateShield (now : Z) (userId : string) : M ShieldReply :=
  rebel <- gets (fun w => rebels w !! userId) ;;
  inv <- gets (fun w => inventory w !! userId) ;;
  match rebel, inv with
  | Some _, Some inv =>
      let defensive :=
        List.filter (fun p => available now (snd p))
                    (combine (seq 0 (length (items inv))) (items inv)) in
      match bestOf defensive with
      | None => ret NoDefensiveItems
      | Some (i, bestItem) =>
          modInventory userId (fun inv =>
            set_items (<[ i := set_activatedAt (Some now) bestItem ]> (items inv)) inv) ;;;
          defenseData <- fromOption (assoc (itemType bestItem) defensiveItems) ;;
          ret (ShieldActivated (dname defenseData) (protection defenseData)
                               (duration defenseData / 60000))
      end
  | _, _ => ret ShieldNotFound
  end.

(** ** Market prices

    The multipliers are computed exactly, as rationals; the doubles of
    the code are these values up to rounding. *)

(** [Math.max] *)
Definition Qmaximum (a b : Q) : Q := if Qle_bool b a then a else b.

(** [listing.item.type || 'misc'] *)
Definition listedType (l : Listing) : string :=
  if String.eqb (itemType (litem l)) "" then "misc" else itemType (litem l).

(** the first loop of [updateMarketPrices]: listings per item type *)
Definition itemCounts (listings : list (string * Listing)) : gmap string Z :=
  fold_left (fun counts p =>
               let ty := listedType (snd p) in
               <[ ty := orDefault (counts !! ty) 0 + 1 ]> counts)
            listings ∅.

(** the body of the second loop: the multiplier for a type with [count]
    listings, [Math.max(0.5, Math.min(2.0, priceMultiplier))] *)
Definition priceMultiplier (count : Z) : Q :=
  let m :=
    if 10 <? count then Qminus (Qmake 95 100) (Qmult (inject_Z (count - 10)) (Qmake 1 100))
    else if count <? 3 then Qplus (Qmake 105 100) (Qmult (inject_Z (3 - count)) (Qmake 2 100))
    else inject_Z 1 in
  Qmaximum (Qmake 5 10) (Qminimum (inject_Z 2) m).

(** [updateMarketPrices()]: the map stored in [marketPriceFluctuations] *)
Definition updateMarketPrices (w : World) : gmap string Q :=
  priceMultiplier <$> itemCounts (marketplace w).

(** ** Buttons: the dispatch of [handleButton]

    [handleButton] tries its branches in order; a branch stands for the
    handler that it calls.  The two branches that call [handleTravel]
    are kept apart. *)

Inductive Branch :=
| ClassSelection | RaidAction | RebellionStatus | ViewIntel | DailyMission | Leaderboard
| Achievements | InventoryButton | Zones | Travel | SellItems | UpgradeInventory
| ZoneActivities | CellAction | UseAbility | TrainAbilities | JoinEvent | EventLeaderboard
| RequestMentor | MentorInfo | IntelButton | IntelAll | RaidDifferent | Events
| ActivateShield | SeekSanctuary | DefenseStatus | CorporateIntelAll | BuyDefense
| SanctuaryTimer | BuyDefensiveItem | Sanctuary | TravelToSafeZone | CorporateIntelSpecific
| TeamRaidButtons | BattlePlanButtons | RaidPartyManagement | TradingButtons | MarketButtons
| ItemsButtons | TutorialButtons | PracticeRaid | ComingSoon.

(** [customId.startsWith(p)] *)
Definition startsWith (customId p : string) : bool := String.prefix p customId.

(** the chain of [if]s of [handleButton] *)
Definition handleButton (customId : string) : Branch :=
  if startsWith customId "class_" then ClassSelection
  else if startsWith customId "raid_" && negb (String.eqb customId "raid_different")
  then RaidAction
  else if String.eqb customId "rebellion_status" then RebellionStatus
  else if String.eqb customId "view_intel" then ViewIntel
  else if String.eqb customId "daily_mission" then DailyMission
  else if String.eqb customId "leaderboard" then Leaderboard
  else if String.eqb customId "achievements" then Achievements
  else if String.eqb customId "inventory" then InventoryButton
  else if String.eqb customId "zones" then Zones
  else if startsWith customId "travel_" then Travel
  else if String.eqb customId "sell_items" then SellItems
  else if String.eqb customId "upgrade_inventory" then UpgradeInventory
  else if String.eqb customId "zone_activities" then ZoneActivities
  else if startsWith customId "cell_" then CellAction
  else if startsWith customId "use_ability_" then UseAbility
  else if String.eqb customId "train_abilities" then TrainAbilities
  else if String.eqb customId "join_event" then JoinEvent
  else if String.eqb customId "event_leaderboard" then EventLeaderboard
  else if String.eqb customId "request_mentor" then RequestMentor
  else if String.eqb customId "mentor_info" then MentorInfo
  else if startsWith customId "intel_" then IntelButton
  else if String.eqb customId "intel_all" then IntelAll
  else if String.eqb customId "raid_different" then RaidDifferent
  else if String.eqb customId "events" then Events
  else if String.eqb customId "activate_shield" then ActivateShield
  else if String.eqb customId "seek_sanctuary" then SeekSanctuary
  else if String.eqb customId "defense_status" then DefenseStatus
  else if String.eqb customId "corporate_intel_all" then CorporateIntelAll
  else if String.eqb customId "buy_defense" then BuyDefense
  else if String.eqb customId "sanctuary_timer" then SanctuaryTimer
  else if startsWith customId "buy_" then BuyDefensiveItem
  else if String.eqb customId "sanctuary" then Sanctuary
  else if String.eqb customId "travel_foundation" || String.eqb customId "travel_sanctuary"
  then TravelToSafeZone
  else if startsWith customId "corporate_intel_" then CorporateIntelSpecific
  else if startsWith customId "join_party_" || startsWith customId "ready_for_raid_"
          || startsWith customId "execute_raid_" || startsWith customId "leave_party_"
  then TeamRaidButtons
  else if startsWith customId "party_status_" || startsWith customId "execute_plan_"
          || startsWith customId "ready_check_"
  then BattlePlanButtons
  else if String.eqb customId "create_raid_party" || String.eqb customId "refresh_party_list"
          || String.eqb customId "my_party_status"
  then RaidPartyManagement
  else if startsWith customId "cancel_trade_" || startsWith customId "trade_status_"
          || String.eqb customId "my_trades"
  then TradingButtons
  else if startsWith customId "market_" || startsWith customId "auction_"
          || String.eqb customId "my_market_listings"
  then MarketButtons
  else if startsWith customId "items_" || startsWith customId "trade_item_"
          || startsWith customId "market_sell_" || startsWith customId "auction_item_"
  then ItemsButtons
  else if startsWith customId "tutorial_" || startsWith customId "help_"
          || String.eqb customId "quick_start"
  then TutorialButtons
  else if String.eqb customId "practice_raid" then PracticeRaid
  else ComingSoon.


(** [s.replace(pattern, replacement)] with a string pattern: the first
    occurrence is replaced *)
Fixpoint replaceFirst (pattern replacement s : string) : string :=
  if String.prefix pattern s
  then replacement +:+ String.substring (String.length pattern)
                         (String.length s - String.length pattern) s
  else match s with
       | EmptyString => EmptyString
       | String c t => String c (replaceFirst pattern replacement t)
       end.

(** the party that the handlers behind a party button look up:
    [customId.replace('execute_raid_', '')] in [handleExecuteTeamRaid],
    which both [handleTeamRaidButtons] and [handleBattlePlanButtons]
    call *)
Definition executeButton (random : nat -> Q) (now : Z) (customId userId : string)
    : M TeamReply :=
  handleExecuteTeamRaid random now (replaceFirst "execute_raid_" "" customId) userId.

(** ** The scalability configuration, config/scalability.js

    [getScaledConfig] starts from [{ ...ScalabilityConfig }], a copy of
    the top level only: the nested objects [memory], [backup],
    [rateLimiting] and [realTimeSystems] of the copy are the objects of
    [ScalabilityConfig] itself, and the assignments of [getScaledConfig]
    write to them.  The record below is the content of these shared
    objects that [getScaledConfig] writes; the thresholds under
    [scaling], which it only reads, are the constants of the source. *)

Module Scalability.

Record Config := mkConfig {
  cleanupInterval : Z;
  userInactivityThreshold : Z;
  generalMax : Z;
  raidMax : Z;
  tradeMax : Z;
  buttonMax : Z;
  backupInterval : Z;
  energyRegenInterval : Z
}.

(** [ScalabilityConfig] as the module is loaded *)
Definition ScalabilityConfig : Config :=
  mkConfig (30 * 60 * 1000) (7 * 24 * 60 * 60 * 1000) 30 10 5 60
           (30 * 60 * 1000) (60 * 1000).

(** [Math.floor(max * rateLimitMultiplier)] with the multiplier 0.5 *)
Definition scaledMax (max : Z) : Z := floorQ (Qmult (inject_Z max) (tenths 5)).

(** [getScaledConfig(userCount)], as a change of the shared objects; the
    object it returns shows their content after the call *)
Definition getScaledConfig (userCount : Z) (config : Config) : Config :=
  if 8000 <? userCount then
    mkConfig (cleanupInterval config) (userInactivityThreshold config)
             (scaledMax (generalMax config)) (scaledMax (raidMax config))
             (scaledMax (tradeMax config)) (scaledMax (buttonMax config))
             (60 * 60 * 1000) (2 * 60 * 1000)
  else if 5000 <? userCount then
    mkConfig (cleanupInterval config) (userInactivityThreshold config)
             (generalMax config) (raidMax config) (tradeMax config) (buttonMax config)
             (60 * 60 * 1000) (energyRegenInterval config)
  else if 3000 <? userCount then
    mkConfig (15 * 60 * 1000) (3 * 24 * 60 * 60 * 1000)
             (generalMax config) (raidMax config) (tradeMax config) (buttonMax config)
             (backupInterval config) (energyRegenInterval config)
  else config.

End Scalability.

(** ** Levels of the rebel data access layer *)

(** [getExperienceToNextLevel(currentLevel, currentExperience)] of the
    rebel data access layer *)
Definition getExperienceToNextLevel (currentLevel currentExperience : Z) : Z :=
  if 100 <=? currentLevel then 0
  else
    let nextLevelExperience := currentLevel ^ 2 * 100 in
    Z.max 0 (nextLevelExperience - currentExperience).

(** ** Vocabulary of the further properties *)

(** the summed value of a list of items *)
Definition worth (l : list Item) : Z := sumZ (map value l).

(** no inventory is in debt *)
Definition solvent (invs : gmap string Inventory) : Prop :=
  forall u inv, invs !! u = Some inv -> 0 <= credits inv.

(** no item has a negative value *)
Definition fairlyValued (invs : gmap string Inventory) : Prop :=
  forall u inv, invs !! u = Some inv -> Forall (fun it => 0 <= value it) (items inv).

(** a rebel is fit: the energy is between 0 and the maximum, which is at
    least the 100 of a new rebel, and the level is at least 1 *)
Definition fit (r : Rebel) : Prop :=
  0 <= energy r <= maxEnergy r /\ 100 <= maxEnergy r /\ 1 <= level r.

Definition allFit (w : World) : Prop :=
  forall u r, rebels w !! u = Some r -> fit r.

Definition staysFit : World -> World -> Prop :=
  fun w w' => allFit w -> allFit w'.

(** a party is in order: no member is listed twice, only members are
    ready, and the leader is a member *)
Definition inOrder (p : RaidParty) : Prop :=
  NoDup (members p)
  /\ (forall u, u ∈ readyMembers p -> u ∈ members p)
  /\ leader p ∈ members p.

Definition partiesInOrder (w : World) : Prop :=
  forall partyId p, raidParties w !! partyId = Some p -> inOrder p.

(** the points of a list of achievements *)
Definition pointsOf (ids : list string) : Z :=
  sumZ (map (fun id => orDefault (assoc id achievementTemplates) 0) ids).

(** the filter of [getRebelProtection]: an activated defensive item that
    has not run out *)
Definition activeDefense (now : Z) (it : Item) : bool :=
  match assoc (itemType it) defensiveItems with
  | Some d => truthyTime (activatedAt it) && (now - orDefault (activatedAt it) 0 <? duration d)
  | None => false
  end.

(** the number of listings of a type *)
Definition supply (ty : string) (listings : list (string * Listing)) : Z :=
  Z.of_nat (length (List.filter (fun p => String.eqb (listedType (snd p)) ty) listings)).

(** the inventory after a sale *)
Definition afterSale (inv : Inventory) : Inventory :=
  set_items (List.filter kept (items inv))
            (set_credits (credits inv + worth (List.filter sellable (items inv))) inv).

(** the world in which [userId] has the rebel [r] and the unlocked
    achievements [unlocked] *)
Definition set_rebel_and_unlocked (userId : string) (r : Rebel) (unlocked : list string)
    (w : World) : World :=
  set_achievements (insert userId unlocked) (set_rebels (insert userId r) w).

(** the state of [userId] in the course of [checkAchievements]: [news]
    are the achievements unlocked so far *)
Definition checked (userId : string) (r : Rebel) (unlocked : list string) (w : World)
    (news : list string) (w' : World) : Prop :=
  (exists r', rebels w' !! userId = Some r'
              /\ loyaltyScore r' = loyaltyScore r + pointsOf news
              /\ corporateDamage r' = corporateDamage r
              /\ corporationsDefeated r' = corporationsDefeated r)
  /\ achievements w' !! userId = Some (unlocked ++ news)
  /\ (forall id, In id news -> ~ In id unlocked)
  /\ List.NoDup news
  /\ (forall u, u <> userId ->
        rebels w' !! u = rebels w !! u /\ achievements w' !! u = achievements w !! u).

(** the team-loot items that [takeShare] offers to the member at position
    [index], in the order of the loot *)
Definition offeredItems (len index : nat) (its : list Item) : list Item :=
  map snd (List.filter (fun p => Nat.eqb (fst p mod len) index)
                       (combine (seq 0 (length its)) its)).

(** ** Sample data of the further properties *)

(** a relic that the desk does not buy *)
Definition relic : Item :=
  mkItem (DropId 0 9) "Model Weights" "artifact" "legendary" 800 "OpenAI Corp" 0 None.

(** a new rebel with one common and one legendary item *)
Definition deskWorld : World :=
  set_inventory (insert "u1" (mkInventory [junk 1; relic] 20 100))
                (worldOf ["u1"] "Model Trainer" openai).

(** a rebel with 30 energy left *)
Definition tiredWorld : World :=
  set_rebels (insert "u1" (set_energy 30 (newRebel "Model Trainer" 0)))
             (worldOf ["u1"] "Model Trainer" openai).

(** a party of three with two members ready, and a party of one *)
Definition trioParty : RaidParty :=
  mkRaidParty "u1" ["u1"; "u2"; "u3"] {[ "u1"; "u2" ]}
              "openai" "assault_formation" "planning" None.

Definition soloParty : RaidParty :=
  mkRaidParty "u1" ["u1"] {[ "u1" ]} "openai" "balanced_formation" "ready" None.

Definition trioWorld : World :=
  set_raidParties (fun _ => {[ "p1" := trioParty ]})
                  (worldOf ["u1"; "u2"; "u3"] "Protocol Hacker" openai).

Definition soloWorld : World :=
  set_raidParties (fun _ => {[ "p1" := soloParty ]})
                  (worldOf ["u1"] "Model Trainer" openai).

(** a rebel who has dealt 1200 damage and has no achievement yet *)
Definition veteranWorld : World :=
  set_rebels (insert "u1" (set_corporateDamage 1200 (newRebel "Model Trainer" 0)))
             (worldOf ["u1"] "Model Trainer" openai).

(** a rebel who has bought an Encryption Cloak and a Digital Shield *)
Definition shieldWorld : World :=
  set_inventory
    (insert "u1"
       (mkInventory
          [ mkItem (ShopId 1000 (Qmake 1 2)) "Encryption Cloak" "encryption_cloak" "uncommon"
                   300 "Defense Shop" 1000 None;
            mkItem (ShopId 2000 (Qmake 1 2)) "Digital Shield" "digital_shield" "rare"
                   500 "Defense Shop" 2000 None ]
          20 100))
    (worldOf ["u1"] "Model Trainer" openai).

(** ** The second level of the dispatch *)

Inductive MarketBranch :=
| MarketRefresh | MarketCategories | MyMarketListings | MarketSellHint | MarketBrowse
| RemoveListing | BrowseAuctions | AuctionStatus | CancelAuction | MyAuctions | AuctionSort
| MarketTrends | TradeCalculator | NoMarketReply.

(** the chain of [if]s of [handleMarketButtons], for a user who is a
    rebel; without a final [else], an id that fits no branch gets no
    reply *)
Definition handleMarketButtons (customId : string) : MarketBranch :=
  if String.eqb customId "market_refresh" || String.eqb customId "market_refresh_prices"
  then MarketRefresh
  else if String.eqb customId "market_categories" then MarketCategories
  else if String.eqb customId "my_market_listings" then MyMarketListings
  else if String.eqb customId "market_sell" then MarketSellHint
  else if String.eqb customId "market_browse" then MarketBrowse
  else if startsWith customId "remove_listing_" then RemoveListing
  else if String.eqb customId "browse_auctions" || String.eqb customId "auction_refresh"
  then BrowseAuctions
  else if startsWith customId "auction_status_" then AuctionStatus
  else if startsWith customId "cancel_auction_" then CancelAuction
  else if String.eqb customId "my_auctions" then MyAuctions
  else if startsWith customId "auction_sort_" then AuctionSort
  else if String.eqb customId "market_trends" then MarketTrends
  else if String.eqb customId "trade_calculator" then TradeCalculator
  else NoMarketReply.

Inductive ItemsBranch :=
| ListItems | ListRareItems | TradeMenu | MarketSellMenu | TradeItem | MarketSellItem
| AuctionItem | NoItemsReply.

(** the chain of [if]s of [handleItemsButtons], for a user who is a rebel *)
Definition handleItemsButtons (customId : string) : ItemsBranch :=
  if String.eqb customId "items_refresh" || String.eqb customId "items_list" then ListItems
  else if String.eqb customId "items_filter_rare" then ListRareItems
  else if String.eqb customId "trade_menu" then TradeMenu
  else if String.eqb customId "market_sell_menu" then MarketSellMenu
  else if startsWith customId "trade_item_" then TradeItem
  else if startsWith customId "market_sell_" then MarketSellItem
  else if startsWith customId "auction_item_" then AuctionItem
  else NoItemsReply.

(** where the button of a rebel ends up: in a branch of [handleButton],
    or in a branch of the market or of the item handler behind it *)
Inductive Route :=
| Top (b : Branch)
| Market (m : MarketBranch)
| Items (i : ItemsBranch).

Definition route (customId : string) : Route :=
  match handleButton customId with
  | MarketButtons => Market (handleMarketButtons customId)
  | ItemsButtons => Items (handleItemsButtons customId)
  | b => Top b
  end.

(** ** Vocabulary of the auction sweep *)

(** the inventory [y] is [x] with items added at the end: same
    capacity, the items of [x] first and in the same order *)
Definition extends (x y : Inventory) : Prop :=
  capacity y = capacity x /\ exists more, items y = items x ++ more.

(** every inventory of [a] is still there in [b], with items added at
    the end *)
Definition invExtends (a b : gmap string Inventory) : Prop :=
  forall u x, a !! u = Some x -> exists y, b !! u = Some y /\ extends x y.

(** an auction that the sweep passes over at [now]: its status is not
    ['active'], or its end time is still to come *)
Definition idle (now : Z) (a : Auction) : Prop :=
  astatus a <> "active" \/ now < aendTime a.

(** ** Sample data: three raids on a corporation that is nearly down *)

(** OpenAI with 50 health left of its 10000, and three new rebels *)
Definition threeRaidsWorld : World :=
  worldOf ["u1"; "u2"; "u3"] "Model Trainer" (set_health 50 openai).

(** a raid through the slash command and two raids through the button *)
Definition threeRaids : list Request :=
  [SlashRaid 5000 "u1"; ButtonRaid 5001 "u2"; ButtonRaid 5002 "u3"].

(** three raids through the button *)
Definition threeButtonRaids : list Request :=
  [ButtonRaid 5000 "u1"; ButtonRaid 5001 "u2"; ButtonRaid 5002 "u3"].

(** the log and the final health of OpenAI when the schedule runs every
    request to its end from [threeRaidsWorld], every draw of
    [Math.random()] being 1/2; [None] when the schedule names a request
    that has nothing left to run, or leaves one unfinished *)
Definition threeRaidsOutcome (reqs : list Request) (sched : list nat)
    : option (Log * option Z) :=
  match runSchedule (fun _ => Qmake 1 2) "openai" sched (map Waiting reqs)
                    (threeRaidsWorld, []) with
  | Some (tasks, (w, log)) =>
      if allDone tasks then Some (log, health <$> corporations w !! "openai") else None
  | None => None
  end.

(** the slash command passes its checks and strikes; both button raids
    run while it awaits its result message; then it finishes *)
Definition lateResetSchedule : list nat := [0; 0; 1; 1; 2; 2; 0]%nat.

(** the six schedules that run [threeRaids] one request after the other *)
Definition oneAfterTheOther : list (list nat) :=
  [ [0; 0; 0; 1; 1; 2; 2]; [0; 0; 0; 2; 2; 1; 1]; [1; 1; 0; 0; 0; 2; 2];
    [1; 1; 2; 2; 0; 0; 0]; [2; 2; 0; 0; 0; 1; 1]; [2; 2; 1; 1; 0; 0; 0] ]%nat.

(** every list of [steps] request numbers below [requests] *)
Fixpoint schedulesOf (requests steps : nat) : list (list nat) :=
  match steps with
  | O => [[]]
  | S steps =>
      flat_map (fun s => map (fun i => i :: s) (seq 0 requests))
               (schedulesOf requests steps)
  end.

(** the schedules of that length that run every request of [reqs] to
    its end *)
Definition completeSchedules (reqs : list Request) (steps : nat) : list (list nat) :=
  List.filter (fun s => match threeRaidsOutcome reqs s with Some _ => true | None => false end)
              (schedulesOf (length reqs) steps).

(** ** Theorems *)

(** *** Base damage *)

(** C10: the base damage of the slash command and the base damage of the
    game class are the same function of the rebel, with the same table
    of class multipliers: the floor of
    (50 + 10 * level + 5 * floor (loyalty / 100)) times the multiplier. *)
Theorem calculateDamage_agree (rebel : Rebel) :
  RaidCommand.calculateDamage rebel = Game.calculateDamage rebel
  /\ RaidCommand.classMultipliers = classMultipliers
  /\ Game.calculateDamage rebel =
       floorQ (Qmult (inject_Z (50 + 10 * level rebel + 5 * (loyaltyScore rebel / 100)))
                     (orDefault (assoc (rclass rebel) classMultipliers) (tenths 10))).
Proof.
  split; [reflexivity | split; [reflexivity |]].
  unfold Game.calculateDamage. cbv zeta.
  replace (50 + level rebel * 10 + loyaltyScore rebel / 100 * 5)
    with (50 + 10 * level rebel + 5 * (loyaltyScore rebel / 100)) by lia.
  reflexivity.
Qed.

Example calculateDamage_classes :
  map (fun c => Game.calculateDamage (newRebel c 0))
      ["Protocol Hacker"; "Model Trainer"; "Data Liberator"; "Community Organizer";
       "Enclave Guardian"; "Unknown"]
  = [72; 60; 66; 54; 48; 60].
Proof. reflexivity. Qed.

(** *** Levels *)

(** What [gainExperience] does: the level it leaves is the larger of the
    old level and [floor (experience / 100) + 1]. *)
Lemma gainExperience_level (userId : string) (amount : Z) (w : World) (r : Rebel) :
  rebels w !! userId = Some r ->
  exists r', rebels (execM (gainExperience userId amount) w) !! userId = Some r'
    /\ experience r' = experience r + amount
    /\ level r' = Z.max (level r) ((experience r + amount) / 100 + 1).
Proof.
  intros Hr. unfold execM, gainExperience, bind, gets, modRebel, modify, ret. simpl.
  rewrite Hr. simpl.
  destruct (level r <? (experience r + amount) / 100 + 1) eqn:E; simpl.
  - rewrite !lookup_alter_eq, Hr. simpl. eexists; split; [reflexivity |]. simpl.
    apply Z.ltb_lt in E. split; [reflexivity | lia].
  - rewrite !lookup_alter_eq, Hr. simpl. eexists; split; [reflexivity |]. simpl.
    apply Z.ltb_ge in E. split; [reflexivity | lia].
Qed.

(** C1: a new rebel who gains 400 experience is put at level 5 by
    [gainExperience], while the documented formula
    min (100, floor (sqrt (experience / 100)) + 1), which the data access
    layer implements as [calculateLevel], gives level 3 for 400
    experience. *)
Theorem gainExperience_departs_from_formula :
  let w := execM (gainExperience "u1" 400) (worldOf ["u1"] "Model Trainer" openai) in
  (level <$> rebels w !! "u1") = Some 5
  /\ (experience <$> rebels w !! "u1") = Some 400
  /\ RebelDAL.calculateLevel 400 = 3.
Proof. vm_compute. repeat split. Qed.

(** *** Expired listings *)

(** What [cleanupExpiredListings] does with the listings: the expired
    ones are removed, whatever happened to their items. *)
Lemma cleanupExpiredListings_marketplace (now : Z) (w : World) :
  marketplace (cleanupExpiredListings now w)
  = List.filter (fun p => negb (expired now (snd p))) (marketplace w).
Proof. reflexivity. Qed.

Example cleanupExpiredListings_returns_item :
  let listing := mkListing (junk 1) "seller" 50 1000 in
  let w := set_marketplace [("L1", listing)]
             (set_inventory (fun _ => {[ "seller" := newInventory ]}) emptyWorld) in
  marketplace (cleanupExpiredListings 2000 w) = []
  /\ (items <$> inventory (cleanupExpiredListings 2000 w) !! "seller") = Some [junk 1].
Proof. vm_compute. split; reflexivity. Qed.

(** C9: an expired listing whose seller has a full inventory (one slot,
    one item) is deleted by the sweep and its item is not given back: the
    listing is gone, the seller's inventory is as before, and the item is
    in neither. *)
Theorem cleanupExpiredListings_destroys_item :
  let seller := mkInventory [junk 0] 1 100 in
  let listing := mkListing (junk 1) "seller" 50 1000 in
  let w := set_marketplace [("L1", listing)]
             (set_inventory (fun _ => {[ "seller" := seller ]}) emptyWorld) in
  let w' := cleanupExpiredListings 2000 w in
  expired 2000 listing = true
  /\ marketplace w' = []
  /\ inventory w' !! "seller" = Some seller
  /\ ~ In (junk 1) (items seller).
Proof.
  vm_compute. repeat split; try reflexivity.
  intros [H | []]. discriminate H.
Qed.

(** *** Corporation health *)

(** The solo raid never leaves its target at 0: after the damage and the
    defeat check, a corporation that was within its bounds is again, and
    above 0. *)
Lemma solo_raid_health (d : Z) (c : Corporation) :
  0 <= d -> 0 < maxHealth c -> 0 <= health c <= maxHealth c ->
  0 < health (resetIfDefeated (damageCorp d c)) <= maxHealth c
  /\ maxHealth (resetIfDefeated (damageCorp d c)) = maxHealth c.
Proof.
  intros Hd Hm Hh. unfold resetIfDefeated, damageCorp. simpl.
  destruct (Z.max 0 (health c - d) <=? 0) eqn:E; simpl.
  - lia.
  - apply Z.leb_gt in E. lia.
Qed.

(** The coordinated raid keeps the health within its bounds, 0 included. *)
Lemma team_raid_health (total : Z) (c : Corporation) :
  0 <= total -> 0 <= health c <= maxHealth c ->
  0 <= health (damageCorp total c) <= maxHealth c
  /\ maxHealth (damageCorp total c) = maxHealth c.
Proof. intros Ht Hh. unfold damageCorp. simpl. lia. Qed.

(** C2: a coordinated raid of one member (balanced formation, first draw
    0, so 130 damage) against a corporation at health 100 of 10,000 is
    carried out and leaves the corporation at health 0.  The raid through
    the button on a corporation at health 50 (draw 1/2, 60 damage) resets
    the health to 10,000 in the piece of code that deals the damage; the
    raid through the slash command deals the same damage, leaves the
    health at 0 while it awaits its result message and resets it only in
    the piece that follows. *)
Theorem executeCoordinatedRaid_leaves_zero_health :
  let party := mkRaidParty "u1" ["u1"] {[ "u1" ]} "openai" "balanced_formation" "ready" None in
  let w := set_raidParties (fun _ => {[ "p1" := party ]})
             (worldOf ["u1"] "Model Trainer" (set_health 100 openai)) in
  let team := handleExecuteTeamRaid (fun _ => inject_Z 0) 5000 "p1" "u1" w in
  let w2 := worldOf ["u1"] "Model Trainer" (set_health 50 openai) in
  let solo := handleRaidAction (fun _ => Qmake 1 2) 5000 "openai" "u1" w2 in
  let slash := slashStrike (fun _ => Qmake 1 2) 5000 "openai" "u1" w2 in
  fst team = Ok (CoordinatedRaidDone 130)
  /\ (health <$> corporations (snd team) !! "openai") = Some 0
  /\ (maxHealth <$> corporations (snd team) !! "openai") = Some 10000
  /\ (health <$> corporations (snd solo) !! "openai") = Some 10000
  /\ fst slash = Ok (60, true)
  /\ (health <$> corporations (snd slash) !! "openai") = Some 0
  /\ (health <$>
        corporations (execM (slashFinish (fun _ => Qmake 1 2) "openai" "u1" 60 true)
                            (snd slash)) !! "openai") = Some 10000.
Proof. vm_compute. repeat split. Qed.

(** *** Snapshots *)

Example throughJSON_plain (iso : Z -> string) :
  let v := Backup.JObj [("items", Backup.JArr [Backup.JStr "a"; Backup.JNull]);
                        ("capacity", Backup.JNum 20)] in
  plain v = true /\ Backup.throughJSON iso v = Some v.
Proof. split; reflexivity. Qed.

(** Values that [plain] accepts come back from the file as they were. *)
Lemma throughJSON_plain_id (toISOString : Z -> string) :
  forall v, plain v = true -> Backup.throughJSON toISOString v = Some v.
Proof.
  fix IH 1. intros v. destruct v as [| | b | n | | s | ms | l | l | l | l];
    simpl; intros Hp; try discriminate Hp; try reflexivity.
  - f_equal. f_equal.
    induction l as [| x t IHt]; simpl in *; [reflexivity |].
    apply andb_prop in Hp. destruct Hp as [Hx Ht].
    rewrite (IH x Hx), (IHt Ht). reflexivity.
  - f_equal. f_equal.
    induction l as [| [k x] t IHt]; simpl in *; [reflexivity |].
    apply andb_prop in Hp. destruct Hp as [Hx Ht].
    rewrite (IH x Hx), (IHt Ht). reflexivity.
Qed.

Lemma plain_fromEntries (m : gmap string Backup.jsval) :
  map_Forall (fun _ v => plain v = true) m -> plain (Backup.fromEntries m) = true.
Proof.
  intros Hm. unfold Backup.fromEntries.
  assert (H : Forall (fun p => plain (snd p) = true) (map_to_list m)).
  { apply Forall_forall. intros [k v] Hin.
    apply elem_of_map_to_list in Hin. exact (Hm k v Hin). }
  simpl. induction H as [| [k v] t Hv Ht IHt]; [reflexivity |].
  simpl in Hv. rewrite Hv. exact IHt.
Qed.

Lemma entriesMap_fromEntries (m : gmap string Backup.jsval) :
  Backup.entriesMap (Some (Backup.fromEntries m)) = m.
Proof. unfold Backup.entriesMap, Backup.fromEntries. apply list_to_map_to_list. Qed.

(** A world whose entities are all plain data is restored as it was. *)
Lemma restore_plain (toISOString : Z -> string) (now : Z) (w : Backup.Maps) :
  plainMaps w -> Backup.restore toISOString now w = Some w.
Proof.
  intros (H1 & H2 & H3 & H4 & H5 & H6 & H7 & H8 & H9 & H10 & H11 & H12 & H13).
  unfold Backup.restore, Backup.createBackup, Backup.backupData.
  cbn [Backup.throughJSON].
  rewrite !(throughJSON_plain_id toISOString (Backup.fromEntries _))
    by (apply plain_fromEntries; assumption).
  simpl. unfold Backup.loadBackup, Backup.field.
  cbv [assoc String.eqb Ascii.eqb Bool.eqb].
  rewrite !entriesMap_fromEntries. destruct w; reflexivity.
Qed.

(** C6: in the world where [setCooldown] has recorded a raid cooldown
    for one user, the cooldown is in force before the snapshot; after
    [createBackup] and [loadBackup] the world is a different one: the
    user's cooldown entry is an empty plain object, and both asking for
    the cooldown and setting a new one raise an error. *)
Theorem restore_loses_cooldowns (toISOString : Z -> string) (now : Z) :
  Backup.setCooldown 1000 "u1" "raid" 300 emptyMaps = Ok cooldownMaps
  /\ Backup.isOnCooldown 2000 "u1" "raid" cooldownMaps = Ok true
  /\ exists w', Backup.restore toISOString now cooldownMaps = Some w'
       /\ w' <> cooldownMaps
       /\ Backup.cooldowns w' !! "u1" = Some (Backup.JObj [])
       /\ Backup.isOnCooldown 2000 "u1" "raid" w' = Throw
       /\ Backup.setCooldown 2000 "u1" "raid" 300 w' = Throw.
Proof.
  split; [reflexivity | split; [reflexivity |]].
  eexists. split; [vm_compute; reflexivity |].
  split; [| split; [reflexivity | split; reflexivity]].
  intros H. apply (f_equal (fun m => Backup.cooldowns m !! "u1")) in H.
  vm_compute in H. discriminate H.
Qed.

(** *** Party execution *)

(** C7: for a party with fewer ready members than members, the execute
    request is turned down and the world after it is the world before it
    (no damage, no loot, no energy spent, no draw consumed): the leader
    is told that not all members are ready, anyone else that only the
    leader can execute.  Whatever the readiness, a request by someone who
    is not the leader is turned down without any change, and a request
    that does run the coordinated raid came from the leader of a party
    with at least as many ready members as members. *)
Theorem handleExecuteTeamRaid_all_or_nothing
    (random : nat -> Q) (now : Z) (partyId userId : string) (w : World) (party : RaidParty) :
  raidParties w !! partyId = Some party ->
  let res := handleExecuteTeamRaid random now partyId userId w in
  ((size (readyMembers party) < length (members party))%nat ->
     snd res = w
     /\ fst res = (if String.eqb (leader party) userId
                   then Ok (NotAllReady (size (readyMembers party)) (length (members party)))
                   else Ok OnlyLeaderCanExecute))
  /\ (leader party <> userId -> res = (Ok OnlyLeaderCanExecute, w))
  /\ (forall total, fst res = Ok (CoordinatedRaidDone total) ->
        leader party = userId
        /\ (length (members party) <= size (readyMembers party))%nat).
Proof.
  intros Hp res. subst res.
  unfold handleExecuteTeamRaid, bind, gets. simpl. rewrite Hp.
  split; [| split].
  - intros Hlt. apply Nat.ltb_lt in Hlt.
    destruct (String.eqb (leader party) userId); simpl.
    + rewrite Hlt. split; reflexivity.
    + split; reflexivity.
  - intros Hne. apply String.eqb_neq in Hne. rewrite Hne. reflexivity.
  - intros total.
    destruct (String.eqb (leader party) userId) eqn:El; simpl.
    + destruct (size (readyMembers party) <? length (members party))%nat eqn:Er; simpl.
      * discriminate.
      * intros _. apply String.eqb_eq in El. apply Nat.ltb_ge in Er. split; assumption.
    + discriminate.
Qed.

(** two of three members ready, the leader asks to execute *)
Lemma handleExecuteTeamRaid_two_of_three :
  let party := mkRaidParty "u1" ["u1"; "u2"; "u3"] {[ "u1"; "u2" ]}
                           "openai" "assault_formation" "planning" None in
  let w := set_raidParties (fun _ => {[ "p1" := party ]})
             (worldOf ["u1"; "u2"; "u3"] "Protocol Hacker" openai) in
  let res := handleExecuteTeamRaid (fun _ => Qmake 1 2) 5000 "p1" "u1" w in
  snd res = w /\ fst res = Ok (NotAllReady 2 3).
Proof.
  intros party w.
  refine (proj1 (handleExecuteTeamRaid_all_or_nothing
                   (fun _ => Qmake 1 2) 5000 "p1" "u1" w party _) _).
  - reflexivity.
  - vm_compute. lia.
Defined.

(** *** Auction settlement *)

Lemma grows_refl x : grows x x.
Proof. unfold grows. repeat split; lia. Qed.

Lemma grows_trans x y z : grows x y -> grows y z -> grows x z.
Proof. unfold grows. intros (H1 & H2 & H3) (H4 & H5 & H6). repeat split; lia. Qed.

Lemma grows_push it x : itemCount x < capacity x -> grows x (pushItem it x).
Proof.
  unfold grows, itemCount. simpl. rewrite length_app. simpl. intros H.
  repeat split; lia.
Qed.

Lemma grows_credits v x : grows x (set_credits v x).
Proof. unfold grows, itemCount. simpl. repeat split; lia. Qed.

Lemma invLe_refl a : invLe a a.
Proof. intros u. destruct (a !! u); [apply grows_refl | exact I]. Qed.

Lemma invLe_trans a b c : invLe a b -> invLe b c -> invLe a c.
Proof.
  intros H1 H2 u. specialize (H1 u). specialize (H2 u).
  destruct (a !! u), (b !! u), (c !! u); try contradiction; try exact I.
  eapply grows_trans; eassumption.
Qed.

Lemma invLe_alter (f : Inventory -> Inventory) (k : string) (a : gmap string Inventory) :
  (forall x, a !! k = Some x -> grows x (f x)) ->
  invLe a (alter f k a).
Proof.
  intros Hf u. destruct (decide (k = u)) as [-> | Hne].
  - rewrite lookup_alter_eq. destruct (a !! u) as [x |]; simpl; [| exact I].
    apply Hf. reflexivity.
  - rewrite lookup_alter_ne by assumption.
    destruct (a !! u); [apply grows_refl | exact I].
Qed.

Lemma invLe_withinCapacity a b : invLe a b -> withinCapacity a -> withinCapacity b.
Proof.
  intros Hle Ha u y Hy. specialize (Hle u). rewrite Hy in Hle.
  destruct (a !! u) as [x |] eqn:Hx; [| contradiction].
  destruct Hle as (Hc & _ & Hb). specialize (Ha u x Hx). lia.
Qed.

Lemma returnToSeller_le seller it invs : invLe invs (returnToSeller seller it invs).
Proof.
  apply invLe_alter. intros x _.
  destruct (itemCount x <? capacity x) eqn:E; [| apply grows_refl].
  apply grows_push. apply Z.ltb_lt. assumption.
Qed.

Lemma settleAuction_le now invs a : invLe invs (fst (settleAuction now invs a)).
Proof.
  unfold settleAuction.
  destruct (String.eqb (astatus a) "active" && (aendTime a <=? now)); [| apply invLe_refl].
  destruct ((startingBid a <? currentBid a) && truthyString (currentBidder a)).
  - destruct (currentBidder a) as [bidder |]; [| apply invLe_refl].
    destruct (invs !! bidder) as [winv |] eqn:Hw; [| apply invLe_refl].
    destruct (itemCount winv <? capacity winv) eqn:Ec; [| apply invLe_refl].
    simpl. eapply invLe_trans; [| apply invLe_alter; intros x _; apply grows_credits].
    intros u. destruct (decide (bidder = u)) as [<- | Hne].
    + rewrite lookup_insert_eq, Hw. apply grows_push. apply Z.ltb_lt. assumption.
    + rewrite lookup_insert_ne by assumption.
      destruct (invs !! u); [apply grows_refl | exact I].
  - simpl. apply returnToSeller_le.
Qed.

Lemma sweepAuctions_le now l : forall invs, invLe invs (fst (sweepAuctions now invs l)).
Proof.
  induction l as [| [auctionId a] rest IH]; intros invs; simpl.
  - apply invLe_refl.
  - pose proof (settleAuction_le now invs a) as H1.
    destruct (settleAuction now invs a) as [invs1 a'].
    pose proof (IH invs1) as H2.
    destruct (sweepAuctions now invs1 rest) as [invs2 rest']. simpl in *.
    eapply invLe_trans; eassumption.
Qed.

(** Once an auction has been through [settleAuction], going through it
    again changes nothing, also after other inventories have grown. *)
Lemma settleAuction_stable now invs a invs'' :
  invLe (fst (settleAuction now invs a)) invs'' ->
  settleAuction now invs'' (snd (settleAuction now invs a))
  = (invs'', snd (settleAuction now invs a)).
Proof.
  unfold settleAuction at 1 3 4.
  destruct (String.eqb (astatus a) "active" && (aendTime a <=? now)) eqn:E1.
  - destruct ((startingBid a <? currentBid a) && truthyString (currentBidder a)) eqn:E2.
    + destruct (currentBidder a) as [bidder |] eqn:Eb.
      * destruct (invs !! bidder) as [winv |] eqn:Hw.
        -- destruct (itemCount winv <? capacity winv) eqn:Ec.
           ++ intros _. reflexivity.
           ++ simpl. intros Hle. unfold settleAuction. rewrite E1, Eb, E2.
              specialize (Hle bidder). rewrite Hw in Hle.
              destruct (invs'' !! bidder) as [y |]; [| reflexivity].
              destruct Hle as (Hcap & Hlen & _).
              replace (itemCount y <? capacity y) with false; [reflexivity |].
              symmetry. apply Z.ltb_ge. apply Z.ltb_ge in Ec.
              unfold itemCount in *. lia.
        -- simpl. intros Hle. unfold settleAuction. rewrite E1, Eb, E2.
           specialize (Hle bidder). rewrite Hw in Hle.
           destruct (invs'' !! bidder); [contradiction | reflexivity].
      * simpl. intros _. unfold settleAuction. rewrite E1, Eb, E2. reflexivity.
    + intros _. reflexivity.
  - simpl. intros _. unfold settleAuction. rewrite E1. reflexivity.
Qed.

Lemma sweepAuctions_stable now l : forall invs invs'',
  invLe (fst (sweepAuctions now invs l)) invs'' ->
  sweepAuctions now invs'' (snd (sweepAuctions now invs l))
  = (invs'', snd (sweepAuctions now invs l)).
Proof.
  induction l as [| [auctionId a] rest IH]; intros invs invs'' Hle; simpl in *.
  - reflexivity.
  - pose proof (settleAuction_stable now invs a invs'') as Hs.
    destruct (settleAuction now invs a) as [invs1 a'] eqn:E1.
    pose proof (sweepAuctions_le now rest invs1) as Hm.
    pose proof (IH invs1 invs'') as Hr.
    destruct (sweepAuctions now invs1 rest) as [invs2 rest'] eqn:E2.
    simpl in *. rewrite Hs by (eapply invLe_trans; eassumption).
    rewrite Hr by assumption. reflexivity.
Qed.

Lemma processAuctionTimers_idempotent now w :
  processAuctionTimers now (processAuctionTimers now w) = processAuctionTimers now w.
Proof.
  unfold processAuctionTimers.
  pose proof (sweepAuctions_stable now (auctions w) (inventory w)
                (fst (sweepAuctions now (inventory w) (auctions w))) (invLe_refl _)) as H.
  destruct (sweepAuctions now (inventory w) (auctions w)) as [invs l] eqn:E.
  simpl in *. rewrite H. reflexivity.
Qed.

Lemma houseFee_tenth (bid : Z) :
  floorQ (Qmult (inject_Z bid) (tenths 1)) = bid / 10.
Proof. unfold floorQ, tenths, Qmult, inject_Z, Qfloor. simpl. rewrite Z.mul_1_r. reflexivity. Qed.

Lemma sweepAuctions_app now (l1 l2 : list (string * Auction)) : forall invs,
  sweepAuctions now invs (l1 ++ l2)
  = (fst (sweepAuctions now (fst (sweepAuctions now invs l1)) l2),
     snd (sweepAuctions now invs l1)
     ++ snd (sweepAuctions now (fst (sweepAuctions now invs l1)) l2)).
Proof.
  induction l1 as [| [id a] l1 IH]; intros invs; simpl.
  - destruct (sweepAuctions now invs l2). reflexivity.
  - destruct (settleAuction now invs a) as [invs1 a'].
    rewrite IH. destruct (sweepAuctions now invs1 l1) as [invs2 l1']. simpl.
    reflexivity.
Qed.

Lemma sweepAuctions_cons now id a (l : list (string * Auction)) invs :
  sweepAuctions now invs ((id, a) :: l)
  = (fst (sweepAuctions now (fst (settleAuction now invs a)) l),
     (id, snd (settleAuction now invs a))
     :: snd (sweepAuctions now (fst (settleAuction now invs a)) l)).
Proof.
  simpl. destruct (settleAuction now invs a) as [invs1 a']. simpl.
  destruct (sweepAuctions now invs1 l). reflexivity.
Qed.

Lemma sweepAuctions_length now (l : list (string * Auction)) : forall invs,
  length (snd (sweepAuctions now invs l)) = length l.
Proof.
  induction l as [| [id a] l IH]; intros invs; [reflexivity |].
  rewrite sweepAuctions_cons. simpl. rewrite IH. reflexivity.
Qed.

(** an auction that is not active, or has not ended, is not the sweep's
    business *)
Lemma settleAuction_idle now invs a :
  astatus a <> "active" \/ now < aendTime a -> settleAuction now invs a = (invs, a).
Proof.
  intros H. unfold settleAuction.
  assert (E : String.eqb (astatus a) "active" && (aendTime a <=? now) = false).
  { destruct H as [H | H].
    - apply String.eqb_neq in H. rewrite H. reflexivity.
    - apply Z.leb_gt in H. rewrite H. apply andb_false_r. }
  rewrite E. reflexivity.
Qed.

Lemma sweepAuctions_idle now (l : list (string * Auction)) : forall invs k id a,
  l !! k = Some (id, a) ->
  astatus a <> "active" \/ now < aendTime a ->
  snd (sweepAuctions now invs l) !! k = Some (id, a).
Proof.
  induction l as [| [id0 a0] l IH]; intros invs k id a Hk Hidle; [discriminate Hk |].
  rewrite sweepAuctions_cons. destruct k as [| k]; simpl in *.
  - injection Hk as -> ->. rewrite settleAuction_idle by exact Hidle. reflexivity.
  - apply IH; assumption.
Qed.

Lemma extends_refl x : extends x x.
Proof. split; [reflexivity |]. exists []. rewrite app_nil_r. reflexivity. Qed.

Lemma extends_trans x y z : extends x y -> extends y z -> extends x z.
Proof.
  intros [Hc1 [m1 H1]] [Hc2 [m2 H2]]. split; [congruence |].
  exists (m1 ++ m2). rewrite H2, H1, app_assoc. reflexivity.
Qed.

Lemma invExtends_refl a : invExtends a a.
Proof. intros u x H. exists x. split; [exact H | apply extends_refl]. Qed.

Lemma invExtends_trans a b c : invExtends a b -> invExtends b c -> invExtends a c.
Proof.
  intros H1 H2 u x Hx. destruct (H1 u x Hx) as (y & Hy & Hxy).
  destruct (H2 u y Hy) as (z & Hz & Hyz). exists z.
  split; [exact Hz | eapply extends_trans; eassumption].
Qed.

Lemma invExtends_alter (f : Inventory -> Inventory) k a :
  (forall x, extends x (f x)) -> invExtends a (alter f k a).
Proof.
  intros Hf u x Hx. destruct (decide (k = u)) as [<- | Hne].
  - exists (f x). rewrite lookup_alter_eq, Hx. split; [reflexivity | apply Hf].
  - exists x. rewrite lookup_alter_ne by assumption. split; [exact Hx | apply extends_refl].
Qed.

Lemma extends_push it x : extends x (pushItem it x).
Proof. split; [reflexivity |]. exists [it]. reflexivity. Qed.

Lemma extends_credits v x : extends x (set_credits v x).
Proof. split; [reflexivity |]. exists []. simpl. rewrite app_nil_r. reflexivity. Qed.

Lemma returnToSeller_extends seller it invs : invExtends invs (returnToSeller seller it invs).
Proof.
  apply invExtends_alter. intros x.
  destruct (itemCount x <? capacity x); [apply extends_push | apply extends_refl].
Qed.

Lemma settleAuction_extends now invs a : invExtends invs (fst (settleAuction now invs a)).
Proof.
  unfold settleAuction.
  destruct (String.eqb (astatus a) "active" && (aendTime a <=? now)); [| apply invExtends_refl].
  destruct ((startingBid a <? currentBid a) && truthyString (currentBidder a)).
  - destruct (currentBidder a) as [bidder |]; [| apply invExtends_refl].
    destruct (invs !! bidder) as [winv |] eqn:Hw; [| apply invExtends_refl].
    destruct (itemCount winv <? capacity winv); [| apply invExtends_refl].
    simpl. eapply invExtends_trans; [| apply invExtends_alter; intros x; apply extends_credits].
    intros u x Hx. destruct (decide (bidder = u)) as [<- | Hne].
    + exists (pushItem (aitem a) winv). rewrite lookup_insert_eq.
      rewrite Hw in Hx. injection Hx as <-. split; [reflexivity | apply extends_push].
    + exists x. rewrite lookup_insert_ne by assumption.
      split; [exact Hx | apply extends_refl].
  - simpl. apply returnToSeller_extends.
Qed.

Lemma sweepAuctions_extends now (l : list (string * Auction)) : forall invs,
  invExtends invs (fst (sweepAuctions now invs l)).
Proof.
  induction l as [| [id a] l IH]; intros invs.
  - apply invExtends_refl.
  - rewrite sweepAuctions_cons. simpl.
    eapply invExtends_trans; [apply settleAuction_extends | apply IH].
Qed.

Lemma sweepAuctions_all_idle now (l : list (string * Auction)) :
  forall invs : gmap string Inventory,
  Forall (fun p => idle now (snd p)) l -> sweepAuctions now invs l = (invs, l).
Proof.
  induction l as [| [id a] l IH]; intros invs Hl; [reflexivity |].
  inversion Hl as [| p l' Ha Hrest]; subst. simpl in Ha.
  rewrite sweepAuctions_cons, settleAuction_idle by exact Ha. simpl.
  rewrite IH by assumption. reflexivity.
Qed.

(** the sweep, cut at one of its auctions *)
Lemma processAuctionTimers_at now w pre id a post :
  auctions w = pre ++ (id, a) :: post ->
  let reached := sweepAuctions now (inventory w) pre in
  let out := settleAuction now (fst reached) a in
  let rest := sweepAuctions now (fst out) post in
  processAuctionTimers now w
  = set_auctions (snd reached ++ (id, snd out) :: snd rest)
                 (set_inventory (fun _ => fst rest) w).
Proof.
  intros Hw reached out rest. unfold processAuctionTimers.
  rewrite Hw, sweepAuctions_app, sweepAuctions_cons. reflexivity.
Qed.

Lemma settleAuction_active now (a : Auction) :
  astatus a = "active" -> aendTime a <= now ->
  String.eqb (astatus a) "active" && (aendTime a <=? now) = true.
Proof. intros -> H. simpl. apply Z.leb_le. assumption. Qed.

(** crediting changes neither items nor capacity, and credits only at
    the key *)
Lemma lookup_credited (f : Z -> Z) seller (m : gmap string Inventory) u :
  let credit := fun s => set_credits (f (credits s)) s in
  (items <$> alter credit seller m !! u) = (items <$> m !! u)
  /\ (capacity <$> alter credit seller m !! u) = (capacity <$> m !! u)
  /\ (credits <$> alter credit seller m !! u)
     = (if decide (u = seller) then f <$> (credits <$> m !! u) else credits <$> m !! u).
Proof.
  intros credit. destruct (decide (u = seller)) as [-> | Hne].
  - rewrite lookup_alter_eq. destruct (m !! seller); repeat split; reflexivity.
  - rewrite lookup_alter_ne by congruence. repeat split; reflexivity.
Qed.

(** C8, as stated, fails: an auction that ended at 1000 with a bid of 200
    over a starting bid of 100 is swept at 2000 while the bidder's
    inventory is full; the sweep changes nothing, the auction is still
    active, the bidder has not received the item and the seller has not
    been paid. *)
Lemma processAuctionTimers_full_winner_not_settled :
  aendTime auctionA1 <= 2000
  /\ startingBid auctionA1 < currentBid auctionA1
  /\ processAuctionTimers 2000 fullBidderWorld = fullBidderWorld
  /\ (astatus <$> assoc "A1" (auctions (processAuctionTimers 2000 fullBidderWorld)))
     = Some "active".
Proof. vm_compute. repeat split; discriminate. Qed.

(** C8, amended: sweeping twice is the same as sweeping once, in every
    world.  Take an auction of the world that is active and whose end
    time has passed, and let [invs] be the inventories as the pass finds
    them when it reaches that auction: those of the world when no
    earlier auction is due.  The pass leaves as many auctions as there
    were, with the record [snd out] described below at the place of the
    auction; the auctions after it only add items at the end of
    inventories, and when none of them is due the inventories of the
    swept world are the ones described below.

    With a bid above the starting bid by a bidder whose inventory has
    room, the auction becomes completed with that bidder as winner, the
    item is appended to the bidder's inventory, the seller is credited
    the bid minus a tenth of it rounded down, and no other items, credits
    or capacity change, also when the seller is the bidder; in the swept
    world the bidder's items still start with the old ones followed by
    the item.  With such a bid by a bidder whose inventory is missing or
    full, nothing changes and the swept world still has the auction,
    active, at its place.  Without such a bid the auction becomes
    expired, and the item is appended to the seller's inventory when that
    inventory has room; no other inventory changes.

    An auction that is not active is left as it is by every later pass,
    at any time and in any world, and a pass over a world without an
    active auction changes nothing at all. *)
Theorem processAuctionTimers_exactly_once
    (now : Z) (w : World) (pre post : list (string * Auction))
    (auctionId : string) (a : Auction) :
  auctions w = pre ++ (auctionId, a) :: post ->
  astatus a = "active" ->
  aendTime a <= now ->
  let w' := processAuctionTimers now w in
  let invs := fst (sweepAuctions now (inventory w) pre) in
  let out := settleAuction now invs a in
  let amount := currentBid a - currentBid a / 10 in
  processAuctionTimers now w' = w'
  /\ (auctions w' !! length pre = Some (auctionId, snd out)
      /\ length (auctions w') = length (auctions w)
      /\ inventory w' = fst (sweepAuctions now (fst out) post)
      /\ invExtends (fst out) (inventory w')
      /\ (Forall (fun p => idle now (snd p)) pre -> invs = inventory w)
      /\ (Forall (fun p => idle now (snd p)) post -> inventory w' = fst out))
  /\ (forall bidder winv,
        startingBid a < currentBid a -> currentBidder a = Some bidder -> bidder <> "" ->
        invs !! bidder = Some winv -> itemCount winv < capacity winv ->
        snd out = set_auction_status "completed" (Some bidder) a
        /\ (forall u, (items <$> fst out !! u)
                      = (if decide (u = bidder) then Some (items winv ++ [aitem a])
                         else items <$> invs !! u))
        /\ (forall u, (credits <$> fst out !! u)
                      = (if decide (u = sellerId a)
                         then (fun c => c + amount) <$> (credits <$> invs !! u)
                         else credits <$> invs !! u))
        /\ (forall u, (capacity <$> fst out !! u) = (capacity <$> invs !! u))
        /\ (exists more, (items <$> inventory w' !! bidder)
                         = Some (items winv ++ aitem a :: more)))
  /\ (forall bidder,
        startingBid a < currentBid a -> currentBidder a = Some bidder -> bidder <> "" ->
        (invs !! bidder = None
         \/ exists winv, invs !! bidder = Some winv /\ capacity winv <= itemCount winv) ->
        out = (invs, a)
        /\ auctions w' !! length pre = Some (auctionId, a))
  /\ (currentBid a <= startingBid a \/ truthyString (currentBidder a) = false ->
        snd out = set_auction_status "expired" (winner a) a
        /\ (forall u sinv,
              invs !! u = Some sinv ->
              fst out !! u
              = Some (if decide (u = sellerId a /\ itemCount sinv < capacity sinv)
                      then pushItem (aitem a) sinv else sinv))
        /\ (forall u, invs !! u = None -> fst out !! u = None))
  /\ (forall later w2 k id2 a2,
        auctions w2 !! k = Some (id2, a2) -> astatus a2 <> "active" ->
        auctions (processAuctionTimers later w2) !! k = Some (id2, a2))
  /\ (forall later w2,
        Forall (fun p => astatus (snd p) <> "active") (auctions w2) ->
        processAuctionTimers later w2 = w2).
Proof.
  intros Hw Hact Hend w' invs out amount.
  pose proof (processAuctionTimers_at now w pre auctionId a post Hw) as Hat.
  cbv zeta in Hat. fold invs in Hat. fold out in Hat. fold w' in Hat.
  assert (Hinv' : inventory w' = fst (sweepAuctions now (fst out) post))
    by (rewrite Hat; reflexivity).
  assert (Hauc' : auctions w' = snd (sweepAuctions now (inventory w) pre)
                                ++ (auctionId, snd out) :: snd (sweepAuctions now (fst out) post))
    by (rewrite Hat; reflexivity).
  assert (Hext : invExtends (fst out) (inventory w'))
    by (rewrite Hinv'; apply sweepAuctions_extends).
  assert (Hk : auctions w' !! length pre = Some (auctionId, snd out)).
  { rewrite Hauc'. rewrite <- (sweepAuctions_length now pre (inventory w)).
    rewrite lookup_app_r by lia. rewrite Nat.sub_diag. reflexivity. }
  pose proof (settleAuction_active now a Hact Hend) as E1.
  split; [apply processAuctionTimers_idempotent |].
  split; [| split; [| split; [| split; [| split]]]].
  - split; [exact Hk |]. split.
    { rewrite Hauc', Hw. rewrite !length_app. simpl.
      rewrite !sweepAuctions_length. reflexivity. }
    split; [exact Hinv' |]. split; [exact Hext |]. split.
    + intros Hidle. unfold invs. rewrite sweepAuctions_all_idle by exact Hidle. reflexivity.
    + intros Hidle. rewrite Hinv'. rewrite sweepAuctions_all_idle by exact Hidle. reflexivity.
  - intros bidder winv Hbid Hb Hne Hwin Hroom.
    assert (Eout : out = (alter (fun s => set_credits (credits s + amount) s) (sellerId a)
                            (<[ bidder := pushItem (aitem a) winv ]> invs),
                          set_auction_status "completed" (Some bidder) a)).
    { unfold out, settleAuction. rewrite E1, Hb. simpl.
      apply Z.ltb_lt in Hbid. rewrite Hbid. apply String.eqb_neq in Hne. rewrite Hne. simpl.
      rewrite Hwin. apply Z.ltb_lt in Hroom. rewrite Hroom. simpl.
      rewrite houseFee_tenth. reflexivity. }
    assert (Hitems : forall u, (items <$> fst out !! u)
                      = (if decide (u = bidder) then Some (items winv ++ [aitem a])
                         else items <$> invs !! u)).
    { intros u. rewrite Eout. simpl.
      destruct (lookup_credited (fun c => c + amount) (sellerId a)
                  (<[ bidder := pushItem (aitem a) winv ]> invs) u) as (Hi & _ & _).
      cbv zeta in Hi. rewrite Hi.
      destruct (decide (u = bidder)) as [-> | Hu].
      - rewrite lookup_insert_eq. reflexivity.
      - rewrite lookup_insert_ne by congruence. reflexivity. }
    split; [rewrite Eout; reflexivity |]. split; [exact Hitems |].
    split; [| split].
    + intros u. rewrite Eout. simpl.
      destruct (lookup_credited (fun c => c + amount) (sellerId a)
                  (<[ bidder := pushItem (aitem a) winv ]> invs) u) as (_ & _ & Hc).
      cbv zeta in Hc. rewrite Hc.
      assert (Hsame : (credits <$> <[ bidder := pushItem (aitem a) winv ]> invs !! u)
                      = (credits <$> invs !! u)).
      { destruct (decide (u = bidder)) as [-> | Hu].
        - rewrite lookup_insert_eq, Hwin. reflexivity.
        - rewrite lookup_insert_ne by congruence. reflexivity. }
      rewrite Hsame. reflexivity.
    + intros u. rewrite Eout. simpl.
      destruct (lookup_credited (fun c => c + amount) (sellerId a)
                  (<[ bidder := pushItem (aitem a) winv ]> invs) u) as (_ & Hc & _).
      cbv zeta in Hc. rewrite Hc.
      destruct (decide (u = bidder)) as [-> | Hu].
      * rewrite lookup_insert_eq, Hwin. reflexivity.
      * rewrite lookup_insert_ne by congruence. reflexivity.
    + specialize (Hitems bidder). rewrite decide_True in Hitems by reflexivity.
      destruct (fst out !! bidder) as [x |] eqn:Hx; [| discriminate Hitems].
      simpl in Hitems. injection Hitems as Hix.
      destruct (Hext bidder x Hx) as (y & Hy & _ & more & Hmore).
      exists more. rewrite Hy. simpl. rewrite Hmore, Hix, <- app_assoc. reflexivity.
  - intros bidder Hbid Hb Hne Hfull.
    assert (Eout : out = (invs, a)).
    { unfold out, settleAuction. rewrite E1, Hb. simpl.
      apply Z.ltb_lt in Hbid. rewrite Hbid. apply String.eqb_neq in Hne. rewrite Hne. simpl.
      destruct Hfull as [Hn | [winv [Hwin Hf]]].
      - rewrite Hn. reflexivity.
      - rewrite Hwin. apply Z.ltb_ge in Hf. rewrite Hf. reflexivity. }
    split; [exact Eout |]. rewrite Hk, Eout. reflexivity.
  - intros Hno.
    assert (E2 : (startingBid a <? currentBid a) && truthyString (currentBidder a) = false).
    { destruct Hno as [Hle | Hf].
      - apply Z.ltb_ge in Hle. rewrite Hle. reflexivity.
      - rewrite Hf. apply andb_false_r. }
    assert (Eout : out = (returnToSeller (sellerId a) (aitem a) invs,
                          set_auction_status "expired" (winner a) a)).
    { unfold out, settleAuction. rewrite E1, E2. reflexivity. }
    rewrite Eout. simpl. split; [reflexivity |]. split.
    + intros u sinv Hs. unfold returnToSeller.
      destruct (decide (u = sellerId a)) as [-> | Hu].
      * rewrite lookup_alter_eq, Hs. simpl.
        destruct (itemCount sinv <? capacity sinv) eqn:Ec.
        -- apply Z.ltb_lt in Ec. rewrite decide_True by (split; [reflexivity | exact Ec]).
           reflexivity.
        -- apply Z.ltb_ge in Ec. rewrite decide_False by (intros [_ H]; lia). reflexivity.
      * rewrite lookup_alter_ne by congruence.
        rewrite decide_False by (intros [H _]; contradiction). exact Hs.
    + intros u Hn. unfold returnToSeller.
      destruct (decide (u = sellerId a)) as [-> | Hu].
      * rewrite lookup_alter_eq, Hn. reflexivity.
      * rewrite lookup_alter_ne by congruence. exact Hn.
  - intros later w2 k id2 a2 Hk2 Hst. unfold processAuctionTimers.
    pose proof (sweepAuctions_idle later (auctions w2) (inventory w2) k id2 a2 Hk2
                  (or_introl Hst)) as H.
    destruct (sweepAuctions later (inventory w2) (auctions w2)). exact H.
  - intros later w2 Hall. unfold processAuctionTimers.
    rewrite sweepAuctions_all_idle.
    + destruct w2. reflexivity.
    + eapply Forall_impl; [exact Hall |]. intros p Hp. left. exact Hp.
Qed.

(** the auction of the counterexample, a bidder with room: the pass
    completes the auction, the bidder holds the item, the seller has 180
    credits more, and a second pass changes nothing *)
Lemma processAuctionTimers_roomy_winner :
  processAuctionTimers 2000 (processAuctionTimers 2000 roomyBidderWorld)
  = processAuctionTimers 2000 roomyBidderWorld
  /\ auctions (processAuctionTimers 2000 roomyBidderWorld) !! 0%nat
     = Some ("A1", set_auction_status "completed" (Some "bidder") auctionA1)
  /\ (items <$> inventory (processAuctionTimers 2000 roomyBidderWorld) !! "bidder")
     = Some [junk 0; junk 1]
  /\ (credits <$> inventory (processAuctionTimers 2000 roomyBidderWorld) !! "seller")
     = Some 280
  /\ (credits <$> inventory (processAuctionTimers 2000 roomyBidderWorld) !! "bidder")
     = Some 500.
Proof.
  destruct (processAuctionTimers_exactly_once 2000 roomyBidderWorld [] [] "A1" auctionA1
              eq_refl eq_refl ltac:(simpl; lia))
    as (Hidem & (Hk & _ & _ & _ & _ & Hrest) & Hwin & _).
  specialize (Hrest (List.Forall_nil _)).
  destruct (Hwin "bidder" (mkInventory [junk 0] 5 500))
    as (Hrec & Hitems & Hcredits & _);
    [simpl; lia | reflexivity | discriminate | reflexivity | vm_compute; reflexivity |].
  split; [exact Hidem |].
  split; [rewrite <- Hrec; exact Hk |].
  rewrite Hrest.
  split; [exact (Hitems "bidder") |].
  split; [exact (Hcredits "seller") | exact (Hcredits "bidder")].
Defined.

(** *** What a method leaves alone

    [Steps R m]: from every world, [m] ends in a world related by [R],
    whether it returns or throws. *)

#[export] Instance keeps_preorder {B} (proj : World -> B) : PreOrder (keeps proj).
Proof.
  split.
  - intros w. reflexivity.
  - intros a b c H1 H2. unfold keeps in *. congruence.
Qed.

#[export] Instance invGrows_preorder : PreOrder invGrows.
Proof.
  split.
  - intros w. apply invLe_refl.
  - intros a b c. apply invLe_trans.
Qed.

Section StepsLemmas.
Context (R : World -> World -> Prop) `{!PreOrder R}.

Lemma Steps_ret {A} (a : A) : Steps R (ret a).
Proof. intros w. simpl. reflexivity. Qed.

Lemma Steps_throw {A} : Steps R (@throw A).
Proof. intros w. simpl. reflexivity. Qed.

Lemma Steps_gets {A} (f : World -> A) : Steps R (gets f).
Proof. intros w. simpl. reflexivity. Qed.

Lemma Steps_fromOption {A} (o : option A) : Steps R (fromOption o).
Proof. destruct o; [apply Steps_ret | apply Steps_throw]. Qed.

Lemma Steps_bind {A B} (m : M A) (k : A -> M B) :
  Steps R m -> (forall a, Steps R (k a)) -> Steps R (bind m k).
Proof.
  intros Hm Hk w. unfold bind. specialize (Hm w).
  destruct (m w) as [[a |] w1]; simpl in *.
  - etransitivity; [exact Hm | apply Hk].
  - exact Hm.
Qed.

Lemma Steps_when (b : bool) (m : M unit) : Steps R m -> Steps R (when b m).
Proof. intros Hm. destruct b; [exact Hm | apply Steps_ret]. Qed.

Lemma Steps_modify (f : World -> World) : (forall w, R w (f w)) -> Steps R (modify f).
Proof. intros Hf w. apply Hf. Qed.

Lemma Steps_random (random : nat -> Q) :
  (forall n w, R w (set_rng n w)) -> Steps R (Math_random random).
Proof. intros Hf w. apply Hf. Qed.
End StepsLemmas.

Ltac steps_core side :=
  repeat match goal with
    | |- Steps _ (ret _) => apply Steps_ret; typeclasses eauto
    | |- Steps _ throw => apply Steps_throw; typeclasses eauto
    | |- Steps _ (gets _) => apply Steps_gets; typeclasses eauto
    | |- Steps _ (fromOption _) => apply Steps_fromOption; typeclasses eauto
    | |- Steps _ (bind _ _) => apply Steps_bind; [typeclasses eauto | | intros ?]
    | |- Steps _ (when _ _) => apply Steps_when; [typeclasses eauto |]
    | |- Steps _ (modify _) => apply Steps_modify; solve [side]
    | |- Steps _ (Math_random _) => apply Steps_random; solve [side]
    | |- Steps _ (match ?x with _ => _ end) => destruct x
    | |- Steps _ (let _ := _ in _) => progress cbv zeta
    end.

(** for a projection that the written field does not reach *)
Ltac steps := steps_core ltac:(intros; reflexivity).

Lemma bind_Ok_inv {A B} (m : M A) (k : A -> M B) (w w' : World) (b : B) :
  bind m k w = (Ok b, w') ->
  exists a w1, m w = (Ok a, w1) /\ k a w1 = (Ok b, w').
Proof.
  unfold bind. destruct (m w) as [[a |] w1]; intros H.
  - exists a, w1. split; [reflexivity | exact H].
  - discriminate H.
Qed.

(** **** Progression and achievements write to the rebels and to the
    achievement records only *)

Lemma gainExperience_keeps {B} (proj : World -> B) userId amount :
  (forall f w, proj (set_rebels f w) = proj w) ->
  Steps (keeps proj) (gainExperience userId amount).
Proof.
  intros Hp. unfold gainExperience, modRebel.
  steps_core ltac:(intros; apply Hp).
Qed.

Lemma awardAchievement_keeps {B} (proj : World -> B) userId achievementId :
  (forall f w, proj (set_rebels f w) = proj w) ->
  (forall f w, proj (set_achievements f w) = proj w) ->
  Steps (keeps proj) (awardAchievement userId achievementId).
Proof.
  intros Hp Ha. unfold awardAchievement, modRebel.
  steps_core ltac:(intros; first [apply Hp | apply Ha]).
Qed.

Lemma checkAchievements_keeps {B} (proj : World -> B) userId :
  (forall f w, proj (set_rebels f w) = proj w) ->
  (forall f w, proj (set_achievements f w) = proj w) ->
  Steps (keeps proj) (checkAchievements userId).
Proof.
  intros Hp Ha.
  assert (Hone : forall c i acc, Steps (keeps proj) (checkOne userId c i acc)).
  { intros c i acc. unfold checkOne, hasAchievement.
    steps_core ltac:(intros; reflexivity);
      apply awardAchievement_keeps; assumption. }
  unfold checkAchievements.
  steps_core ltac:(intros; reflexivity); apply Hone.
Qed.

(** **** Loot *)

Lemma lootStep_keeps {B} (proj : World -> B) random now userId corp damage i :
  (forall f w, proj (set_inventory f w) = proj w) ->
  (forall n w, proj (set_rng n w) = proj w) ->
  Steps (keeps proj) (lootStep random now userId corp damage i).
Proof.
  intros Hi Hr. unfold lootStep, modInventory.
  steps_core ltac:(intros; first [apply Hi | apply Hr]).
Qed.

Lemma lootLoop_keeps {B} (proj : World -> B) random now userId corp damage n :
  (forall f w, proj (set_inventory f w) = proj w) ->
  (forall n w, proj (set_rng n w) = proj w) ->
  forall i, Steps (keeps proj) (lootLoop random now userId corp damage n i).
Proof.
  intros Hi Hr. induction n as [| n IH]; intros i; simpl.
  - steps.
  - steps_core ltac:(intros; reflexivity).
    + apply lootStep_keeps; assumption.
    + apply IH.
Qed.

Lemma addLootToInventory_keeps {B} (proj : World -> B) random now userId corp damage :
  (forall f w, proj (set_inventory f w) = proj w) ->
  (forall n w, proj (set_rng n w) = proj w) ->
  Steps (keeps proj) (addLootToInventory random now userId corp damage).
Proof.
  intros Hi Hr. unfold addLootToInventory, modInventory.
  steps_core ltac:(intros; apply Hi).
  apply lootLoop_keeps; assumption.
Qed.

(** One turn of the loot loop: either one item is pushed, and there was
    room for it, or the inventories are as before. *)
Lemma lootStep_spec random now userId corp damage i w inv :
  inventory w !! userId = Some inv ->
  match fst (lootStep random now userId corp damage i w) with
  | Ok false =>
      itemCount inv < capacity inv
      /\ exists it, inventory (snd (lootStep random now userId corp damage i w))
                    = <[ userId := pushItem it inv ]> (inventory w)
  | Ok true =>
      capacity inv <= itemCount inv
      /\ inventory (snd (lootStep random now userId corp damage i w)) = inventory w
  | Throw => inventory (snd (lootStep random now userId corp damage i w)) = inventory w
  end.
Proof.
  intros Hinv.
  assert (Hpush : forall it (m : gmap string Inventory), m = inventory w ->
            alter (pushItem it) userId m = <[ userId := pushItem it inv ]> (inventory w)).
  { intros it m ->. apply map_eq. intros u. destruct (decide (userId = u)) as [<- | Hne].
    - rewrite lookup_alter_eq, lookup_insert_eq, Hinv. reflexivity.
    - rewrite lookup_alter_ne, lookup_insert_ne by assumption. reflexivity. }
  unfold lootStep, bind, gets, Math_random, fromOption, modInventory, modify, ret, throw.
  simpl. rewrite Hinv.
  destruct (capacity inv <=? itemCount inv) eqn:Ecap; simpl.
  { apply Z.leb_le in Ecap. split; [assumption | reflexivity]. }
  apply Z.leb_gt in Ecap.
  destruct (200 <? damage); simpl;
    [destruct (Qltb (random (rng w)) (15 # 100)); simpl |];
    repeat match goal with
      | |- context [match pick ?l ?r with _ => _ end] => destruct (pick l r); simpl
      | |- context [match assoc ?k ?l with _ => _ end] => destruct (assoc k l); simpl
      end.
  all: try reflexivity.
  all: try (split; [assumption | eexists; apply Hpush; reflexivity]).
Qed.

Lemma lootStep_missing random now userId corp damage i w :
  inventory w !! userId = None ->
  lootStep random now userId corp damage i w = (Ok true, w).
Proof. intros H. unfold lootStep, bind, gets. simpl. rewrite H. reflexivity. Qed.

(** The loot loop with [n] turns left: the inventory of the raider grows
    by at most [n] items and, when the loop ends normally, by exactly as
    many of the [n] as there was room for; the other inventories are
    untouched. *)
Lemma lootLoop_spec random now userId corp damage n :
  forall i w inv,
  inventory w !! userId = Some inv ->
  exists inv',
    inventory (snd (lootLoop random now userId corp damage n i w))
    = <[ userId := inv' ]> (inventory w)
    /\ capacity inv' = capacity inv
    /\ credits inv' = credits inv
    /\ itemCount inv <= itemCount inv' <= itemCount inv + Z.of_nat n
    /\ itemCount inv' <= Z.max (itemCount inv) (capacity inv)
    /\ (fst (lootLoop random now userId corp damage n i w) = Ok tt ->
        itemCount inv <= capacity inv ->
        itemCount inv' = Z.min (capacity inv) (itemCount inv + Z.of_nat n)).
Proof.
  induction n as [| n IH]; intros i w inv Hinv.
  - exists inv. simpl. rewrite insert_id by assumption.
    repeat split; try lia.
  - simpl lootLoop. unfold bind.
    pose proof (lootStep_spec random now userId corp damage i w inv Hinv) as Hs.
    destruct (lootStep random now userId corp damage i w) as [[[|] |] w1]; simpl in Hs |- *.
    + destruct Hs as [Hfull ->]. exists inv. rewrite insert_id by assumption.
      repeat split; try lia.
    + destruct Hs as [Hroom [it Hw1]].
      assert (H1 : inventory w1 !! userId = Some (pushItem it inv)).
      { rewrite Hw1. apply lookup_insert_eq. }
      destruct (IH (S i) w1 _ H1) as (inv' & Hm & Hc & Hcr & Hb & Hmax & Hex).
      exists inv'. rewrite Hm, Hw1, insert_insert_eq.
      assert (Hcount : itemCount (pushItem it inv) = itemCount inv + 1).
      { unfold itemCount. simpl. rewrite length_app. simpl. lia. }
      simpl in Hc, Hcr. rewrite Hcount in *.
      change (capacity (pushItem it inv)) with (capacity inv) in *.
      split; [reflexivity |].
      split; [assumption |]. split; [assumption |].
      split; [lia |]. split; [lia |].
      intros Hok Hle. rewrite Hex by (assumption || lia). lia.
    + rewrite Hs. exists inv. rewrite insert_id by assumption.
      repeat split; try lia. discriminate.
Qed.

Lemma addLootToInventory_spec random now userId corp damage w inv :
  inventory w !! userId = Some inv ->
  exists inv',
    inventory (snd (addLootToInventory random now userId corp damage w))
    = <[ userId := inv' ]> (inventory w)
    /\ grows inv inv'
    /\ (fst (addLootToInventory random now userId corp damage w) = Ok tt ->
        credits inv' = credits inv + damage / 5
        /\ (itemCount inv <= capacity inv ->
            itemCount inv' = Z.min (capacity inv)
                               (itemCount inv + Z.max 0 (Z.min 3 (damage / 100 + 1))))).
Proof.
  intros Hinv. unfold addLootToInventory, bind, gets. simpl. rewrite Hinv.
  destruct (lootLoop_spec random now userId corp damage
              (Z.to_nat (Z.min 3 (damage / 100 + 1))) 0%nat w inv Hinv)
    as (inv' & Hm & Hc & Hcr & Hb & Hmax & Hex).
  destruct (lootLoop random now userId corp damage _ 0%nat w) as [[[] |] w1];
    simpl in *.
  - exists (set_credits (credits inv' + damage / 5) inv').
    split; [| split].
    + rewrite Hm. apply map_eq. intros u. destruct (decide (userId = u)) as [<- | Hne].
      * rewrite lookup_alter_eq, !lookup_insert_eq. reflexivity.
      * rewrite lookup_alter_ne, !lookup_insert_ne by assumption. reflexivity.
    + unfold grows, itemCount in *. simpl. repeat split; lia.
    + intros _. simpl. split; [lia |]. intros Hle.
      unfold itemCount in *. simpl. rewrite Hex by (reflexivity || assumption). lia.
  - exists inv'. split; [assumption | split].
    + unfold grows, itemCount in *. repeat split; lia.
    + discriminate.
Qed.

Lemma addLootToInventory_grows random now userId corp damage :
  Steps invGrows (addLootToInventory random now userId corp damage).
Proof.
  intros w. unfold invGrows.
  destruct (inventory w !! userId) as [inv |] eqn:Hinv.
  - destruct (addLootToInventory_spec random now userId corp damage w inv Hinv)
      as (inv' & Hm & Hg & _).
    rewrite Hm. intros u. destruct (decide (userId = u)) as [<- | Hne].
    + rewrite lookup_insert_eq, Hinv. exact Hg.
    + rewrite lookup_insert_ne by assumption.
      destruct (inventory w !! u); [apply grows_refl | exact I].
  - unfold addLootToInventory, bind, gets. simpl. rewrite Hinv. simpl. apply invLe_refl.
Qed.

Lemma takeShare_grows len index its inv : grows inv (takeShare len index its inv).
Proof.
  unfold takeShare. generalize (combine (seq 0 (length its)) its). intros l.
  revert inv. induction l as [| p l IH]; intros inv; simpl.
  - apply grows_refl.
  - eapply grows_trans; [| apply IH].
    destruct (fst p mod len =? index)%nat; [| apply grows_refl].
    destruct (itemCount inv <? capacity inv) eqn:E; [| apply grows_refl].
    apply grows_push. apply Z.ltb_lt. assumption.
Qed.

Lemma takeShare_count len index its inv :
  itemCount inv <= capacity inv ->
  itemCount (takeShare len index its inv)
  = Z.min (capacity inv) (itemCount inv + Z.of_nat (offered len index its)).
Proof.
  unfold takeShare, offered. generalize (combine (seq 0 (length its)) its). intros l.
  revert inv. induction l as [| p l IH]; intros inv Hle; simpl.
  - lia.
  - destruct (fst p mod len =? index)%nat; simpl.
    + destruct (itemCount inv <? capacity inv) eqn:E.
      * apply Z.ltb_lt in E.
        assert (Hc : itemCount (pushItem (snd p) inv) = itemCount inv + 1).
        { unfold itemCount. simpl. rewrite length_app. simpl. lia. }
        rewrite IH by (rewrite Hc; simpl; lia). rewrite Hc. simpl. lia.
      * apply Z.ltb_ge in E. rewrite IH by assumption. lia.
    + apply IH. assumption.
Qed.

Lemma distributeTeamLoot_le party tl invs : invLe invs (distributeTeamLoot party tl invs).
Proof.
  unfold distributeTeamLoot.
  generalize (combine (seq 0 (length (members party))) (members party)). intros l.
  revert invs. induction l as [| p l IH]; intros invs; simpl.
  - apply invLe_refl.
  - eapply invLe_trans; [| apply IH].
    apply invLe_alter. intros x _.
    eapply grows_trans; [apply grows_credits | apply takeShare_grows].
Qed.

(** **** The shop: a purchase adds one item where there is room, and any
    request that is turned down leaves the world as it was *)
Lemma handleBuyDefensiveItem_spec random now userId itemType w :
  match fst (handleBuyDefensiveItem random now userId itemType w) with
  | Ok Purchased =>
      exists inv d it,
        inventory w !! userId = Some inv
        /\ assoc itemType defensiveItems = Some d
        /\ itemCount inv < capacity inv
        /\ inventory (snd (handleBuyDefensiveItem random now userId itemType w))
           = <[ userId := pushItem it (set_credits (credits inv - cost d) inv) ]> (inventory w)
  | _ => snd (handleBuyDefensiveItem random now userId itemType w) = w
  end.
Proof.
  unfold handleBuyDefensiveItem, bind, gets, Math_random, modInventory, modify, ret. simpl.
  destruct (inventory w !! userId) as [inv |] eqn:Hinv; simpl; [| reflexivity].
  destruct (assoc itemType defensiveItems) as [d |] eqn:Hd; simpl; [| reflexivity].
  destruct (credits inv <? cost d); simpl; [reflexivity |].
  destruct (capacity inv <=? itemCount inv) eqn:Ecap; simpl; [reflexivity |].
  apply Z.leb_gt in Ecap.
  exists inv, d. eexists. repeat split; try assumption.
  apply map_eq. intros u. destruct (decide (userId = u)) as [<- | Hne].
  - rewrite !lookup_alter_eq, lookup_insert_eq, Hinv. reflexivity.
  - rewrite !lookup_alter_ne, lookup_insert_ne by assumption. reflexivity.
Qed.

Lemma handleBuyDefensiveItem_grows random now userId itemType :
  Steps invGrows (handleBuyDefensiveItem random now userId itemType).
Proof.
  intros w. unfold invGrows.
  pose proof (handleBuyDefensiveItem_spec random now userId itemType w) as H.
  destruct (fst (handleBuyDefensiveItem random now userId itemType w)) as [[] |];
    try (rewrite H; apply invLe_refl).
  destruct H as (inv & d & it & Hinv & _ & Hroom & ->).
  intros u. destruct (decide (userId = u)) as [<- | Hne].
  - rewrite lookup_insert_eq, Hinv.
    eapply grows_trans; [apply grows_credits | apply grows_push; exact Hroom].
  - rewrite lookup_insert_ne by assumption.
    destruct (inventory w !! u); [apply grows_refl | exact I].
Qed.

(** *** Inventory capacity *)

(** C5, as stated, fails: a raid of damage 250 awards three items; the
    raider holds 19 items of 20, so the award would exceed the capacity;
    [addLootToInventory] is not turned down, it adds the one item there
    is room for and drops the other two.  The team distribution does the
    same: of two items for the only member, one is kept. *)
Lemma addLootToInventory_truncates :
  Z.min 3 (250 / 100 + 1) = 3
  /\ (itemCount <$> inventory crowdedWorld !! "u1") = Some 19
  /\ evalM (addLootToInventory (fun _ => Qmake 1 2) 5000 "u1" openai 250) crowdedWorld = Ok tt
  /\ (itemCount <$>
        inventory (execM (addLootToInventory (fun _ => Qmake 1 2) 5000 "u1" openai 250)
                         crowdedWorld) !! "u1") = Some 20
  /\ (itemCount <$>
        distributeTeamLoot (mkRaidParty "u1" ["u1"] {[ "u1" ]} "openai" "balanced_formation"
                                        "ready" None)
                           (mkTeamLoot 0 [junk 30; junk 31])
                           (inventory crowdedWorld) !! "u1") = Some 20.
Proof. vm_compute. repeat split. Qed.

(** C5, amended: if every inventory holds at most its capacity, it still
    does after a loot award, a team-loot distribution and a shop
    purchase.  A loot award that ends normally leaves the raider with the
    items held before plus as many of the awarded ones as there was room
    for, min (capacity, held + awarded), and so does the share of the
    team loot that a member is offered; a shop purchase into a full
    inventory is turned down and changes nothing. *)
Theorem inventory_within_capacity (random : nat -> Q) (now : Z) (w : World) :
  withinCapacity (inventory w) ->
  (forall userId corp damage,
     withinCapacity
       (inventory (execM (addLootToInventory random now userId corp damage) w)))
  /\ (forall party tl, withinCapacity (distributeTeamLoot party tl (inventory w)))
  /\ (forall userId itemType,
        withinCapacity
          (inventory (execM (handleBuyDefensiveItem random now userId itemType) w)))
  /\ (forall userId corp damage inv,
        inventory w !! userId = Some inv ->
        evalM (addLootToInventory random now userId corp damage) w = Ok tt ->
        (itemCount <$>
           inventory (execM (addLootToInventory random now userId corp damage) w) !! userId)
        = Some (Z.min (capacity inv)
                      (itemCount inv + Z.max 0 (Z.min 3 (damage / 100 + 1)))))
  /\ (forall userId itemType inv,
        inventory w !! userId = Some inv ->
        capacity inv <= itemCount inv ->
        execM (handleBuyDefensiveItem random now userId itemType) w = w
        /\ evalM (handleBuyDefensiveItem random now userId itemType) w <> Ok Purchased)
  /\ (forall userId inv len index its,
        inventory w !! userId = Some inv ->
        itemCount (takeShare len index its inv)
        = Z.min (capacity inv) (itemCount inv + Z.of_nat (offered len index its))).
Proof.
  intros Hw. split; [| split; [| split; [| split; [| split]]]].
  6: { intros userId inv len index its Hinv. apply takeShare_count.
       apply (Hw userId inv Hinv). }
  - intros userId corp damage.
    eapply invLe_withinCapacity; [| exact Hw].
    apply (addLootToInventory_grows random now userId corp damage w).
  - intros party tl. eapply invLe_withinCapacity; [| exact Hw].
    apply distributeTeamLoot_le.
  - intros userId itemType.
    eapply invLe_withinCapacity; [| exact Hw].
    apply (handleBuyDefensiveItem_grows random now userId itemType w).
  - intros userId corp damage inv Hinv Hok. unfold execM, evalM in *.
    destruct (addLootToInventory_spec random now userId corp damage w inv Hinv)
      as (inv' & Hm & _ & Hex).
    rewrite Hm, lookup_insert_eq. simpl.
    destruct (Hex Hok) as [_ Hcount]. rewrite Hcount; [reflexivity |].
    apply (Hw userId inv Hinv).
  - intros userId itemType inv Hinv Hfull. unfold execM, evalM.
    pose proof (handleBuyDefensiveItem_spec random now userId itemType w) as H.
    destruct (fst (handleBuyDefensiveItem random now userId itemType w)) as [[] |];
      try (split; [exact H | discriminate]).
    destruct H as (inv0 & d & it & Hinv0 & _ & Hroom & _).
    rewrite Hinv in Hinv0. injection Hinv0 as <-. lia.
Qed.

(** a new rebel after a raid of damage 250: three items for an empty
    inventory of twenty slots *)
Lemma inventory_within_capacity_new_rebel :
  (itemCount <$>
     inventory (execM (addLootToInventory (fun _ => Qmake 1 2) 5000 "u1" openai 250)
                      (worldOf ["u1"] "Model Trainer" openai)) !! "u1") = Some 3.
Proof.
  assert (Hw : withinCapacity (inventory (worldOf ["u1"] "Model Trainer" openai))).
  { intros u inv. destruct (decide (u = "u1")) as [-> | Hne].
    - vm_compute. intros [= <-]. discriminate.
    - unfold worldOf. simpl. rewrite lookup_insert_ne by congruence.
      rewrite lookup_empty. discriminate. }
  destruct (inventory_within_capacity (fun _ => Qmake 1 2) 5000
              (worldOf ["u1"] "Model Trainer" openai) Hw) as (_ & _ & _ & Hloot & _ & _).
  exact (Hloot "u1" openai 250 newInventory eq_refl eq_refl).
Defined.

(** **** The corporate response never writes to health *)

Lemma corpVitals_alter (f : Corporation -> Corporation) (k : string) (w : World) :
  (forall c, health (f c) = health c /\ maxHealth (f c) = maxHealth c) ->
  corpVitals (set_corporations (alter f k) w) = corpVitals w.
Proof.
  intros Hf. unfold corpVitals. simpl. apply map_eq. intros u.
  rewrite !lookup_fmap. destruct (decide (k = u)) as [<- | Hne].
  - rewrite lookup_alter_eq. destruct (corporations w !! k) as [c |]; simpl; [| reflexivity].
    destruct (Hf c) as [-> ->]. reflexivity.
  - rewrite lookup_alter_ne by assumption. reflexivity.
Qed.

Lemma markLastBlocked_vitals c :
  health (markLastBlocked c) = health c /\ maxHealth (markLastBlocked c) = maxHealth c.
Proof. unfold markLastBlocked. destruct (rev (active c)); split; reflexivity. Qed.

Ltac vitals_side :=
  intros;
  first [ reflexivity
        | apply corpVitals_alter; intros;
          first [apply markLastBlocked_vitals | split; reflexivity] ].

Lemma applyCountermeasureEffects_vitals now userId cm :
  Steps (keeps corpVitals) (applyCountermeasureEffects now userId cm).
Proof.
  unfold applyCountermeasureEffects, getRebelProtection, modCorp, modRebel, modInventory.
  steps_core vitals_side.
Qed.

Lemma activateCountermeasure_vitals random now targetCorp userId :
  Steps (keeps corpVitals) (activateCountermeasure random now targetCorp userId).
Proof.
  unfold activateCountermeasure, modCorp.
  steps_core vitals_side. apply applyCountermeasureEffects_vitals.
Qed.

Lemma checkCountermeasureActivation_vitals random now targetCorp userId damage :
  Steps (keeps corpVitals) (checkCountermeasureActivation random now targetCorp userId damage).
Proof.
  unfold checkCountermeasureActivation.
  steps_core vitals_side; apply activateCountermeasure_vitals.
Qed.

Lemma processCorporateResponse_vitals random now targetCorp userId damage :
  Steps (keeps corpVitals) (processCorporateResponse random now targetCorp userId damage).
Proof.
  unfold processCorporateResponse, modCorp.
  steps_core vitals_side. apply checkCountermeasureActivation_vitals.
Qed.

(** **** What a raid does to the health of its target *)

Lemma Steps_keeps_eq {A B} (proj : World -> B) (m : M A) w r w' :
  Steps (keeps proj) m -> m w = (r, w') -> proj w' = proj w.
Proof. intros Hm E. specialize (Hm w). rewrite E in Hm. exact Hm. Qed.

Tactic Notation "binv" hyp(H) "as" ident(a) ident(w1) ident(E) :=
  apply bind_Ok_inv in H; destruct H as (a & w1 & E & H).

Lemma executeRaid_health random now corpId userId w d e lu isDefeated ach w' :
  executeRaid random now corpId userId w = (Ok (Raided d e lu isDefeated ach), w') ->
  exists c,
    corporations w !! corpId = Some c
    /\ isDefeated = (health (damageCorp d c) <=? 0)
    /\ corpVitals w' !! corpId
       = Some (health (resetIfDefeated (damageCorp d c)), maxHealth c).
Proof.
  intros H. unfold executeRaid in H.
  binv H as oc w0 E. injection E as <- <-.
  destruct (corporations w !! corpId) as [c |] eqn:Hc; [| discriminate H].
  exists c. split; [reflexivity |].
  binv H as orebel w0 E. injection E as <- <-.
  binv H as rebel w0 E. destruct (rebels w !! userId) as [rebel0 |]; [| discriminate E].
  injection E as <- <-.
  binv H as r w1 E. injection E as <- <-. cbv zeta in H.
  set (d0 := floorQ _) in H.
  binv H as u2 w2 E. injection E as _ <-.
  binv H as u3 w3 E. injection E as _ <-.
  binv H as lu0 w4 Hgain.
  apply (Steps_keeps_eq corporations) in Hgain;
    [| apply gainExperience_keeps; intros; reflexivity].
  binv H as h w5 E. injection E as <- <-.
  assert (Hh : corporations w4 !! corpId = Some (damageCorp d0 c)).
  { rewrite Hgain. simpl. rewrite lookup_alter_eq, Hc. reflexivity. }
  rewrite Hh in H. simpl orDefault in H.
  binv H as u5 w5 Hdefeat.
  binv H as u6 w6 Hloot.
  apply (Steps_keeps_eq corporations) in Hloot;
    [| apply addLootToInventory_keeps; intros; reflexivity].
  binv H as ach0 w7 Hcheck.
  apply (Steps_keeps_eq corporations) in Hcheck;
    [| apply checkAchievements_keeps; intros; reflexivity].
  binv H as u8 w8 Hresp.
  apply (Steps_keeps_eq corpVitals) in Hresp; [| apply processCorporateResponse_vitals].
  injection H as <- _ _ <- _ <-.
  split; [reflexivity |].
  rewrite Hresp. unfold corpVitals. rewrite Hcheck, Hloot, lookup_fmap.
  unfold resetIfDefeated.
  change (health (damageCorp d0 c)) with (Z.max 0 (health c - d0)) in *.
  destruct (Z.max 0 (health c - d0) <=? 0) eqn:Edef; unfold when in Hdefeat.
  - binv Hdefeat as u9 w9 E. injection E as _ <-.
    match type of Hdefeat with
    | ?m _ = _ =>
        assert (Hrest : Steps (keeps corporations) m)
    end.
    { unfold modRebel. steps_core ltac:(intros; reflexivity);
        apply awardAchievement_keeps; intros; reflexivity. }
    apply (Steps_keeps_eq corporations _ _ _ _ Hrest) in Hdefeat.
    rewrite Hdefeat. simpl. rewrite lookup_alter_eq, Hh. reflexivity.
  - injection Hdefeat as _ <-. rewrite Hh. reflexivity.
Qed.

Lemma handleRaidAction_health random now corpId userId w d e lu isDefeated ach w' :
  handleRaidAction random now corpId userId w = (Ok (Raided d e lu isDefeated ach), w') ->
  exists c,
    corporations w !! corpId = Some c
    /\ isDefeated = (health (damageCorp d c) <=? 0)
    /\ corpVitals w' !! corpId
       = Some (health (resetIfDefeated (damageCorp d c)), maxHealth c).
Proof.
  intros H. unfold handleRaidAction in H.
  binv H as orebel w0 E. injection E as <- <-.
  destruct (rebels w !! userId) as [rebel |]; [| discriminate H].
  destruct (energy rebel <? 25); [discriminate H |].
  eapply executeRaid_health. exact H.
Qed.

(** *** Concurrent raids *)

Lemma sumZ_app (a b : list Z) : sumZ (a ++ b) = sumZ a + sumZ b.
Proof. unfold sumZ. induction a as [| x a IH]; simpl; [reflexivity | rewrite IH; lia]. Qed.

Lemma sumZ_nonneg (ds : list (Z * bool)) :
  Forall (fun p => 0 <= fst p) ds -> 0 <= sumZ (map fst ds).
Proof.
  induction ds as [| p ds IH]; simpl; intros H; [lia |].
  apply Forall_cons in H. destruct H as [Hp Hds]. specialize (IH Hds). lia.
Qed.

Lemma map_Some_inj {A} (a b : list A) : map Some a = map Some b -> a = b.
Proof.
  revert b. induction a as [| x a IH]; intros [| y b] H; simpl in H;
    try discriminate H; [reflexivity |].
  injection H as -> H. f_equal. apply IH. exact H.
Qed.

Lemma reported_Some r d isDefeated :
  reported r = Some (d, isDefeated) ->
  exists e lu ach, r = Ok (Raided d e lu isDefeated ach).
Proof.
  destruct r as [[| | | d0 e lu def ach] |]; simpl; intros H; try discriminate H.
  injection H as -> ->. exists e, lu, ach. reflexivity.
Qed.

(** **** The pieces of the slash command *)

Lemma slashCheck_world corpId userId w : snd (slashCheck corpId userId w) = w.
Proof.
  unfold slashCheck, bind, gets, ret. simpl.
  destruct (rebels w !! userId) as [r |]; simpl; [| reflexivity].
  destruct (energy r <? 25); simpl; [reflexivity |].
  destruct (corporations w !! corpId); reflexivity.
Qed.

Lemma slashStrike_health random now corpId userId w d isDefeated w1 c :
  corporations w !! corpId = Some c ->
  slashStrike random now corpId userId w = (Ok (d, isDefeated), w1) ->
  corpVitals w1 !! corpId = Some (Z.max 0 (health c - d), maxHealth c)
  /\ isDefeated = (Z.max 0 (health c - d) <=? 0).
Proof.
  intros Hc H.
  unfold slashStrike, bind, gets, fromOption, Math_random, modCorp, modRebel, modify, ret in H.
  simpl in H. destruct (rebels w !! userId) as [r |]; simpl in H; [| discriminate H].
  rewrite lookup_alter_eq, Hc in H. simpl in H. injection H as <- <- <-.
  unfold corpVitals. simpl. rewrite lookup_fmap, lookup_alter_eq, Hc. split; reflexivity.
Qed.

Lemma drawN_keeps {B} (proj : World -> B) random n :
  (forall k w, proj (set_rng k w) = proj w) -> Steps (keeps proj) (drawN random n).
Proof.
  intros Hr. induction n as [| n IH]; simpl.
  - steps.
  - steps_core ltac:(intros; apply Hr). exact IH.
Qed.

Lemma slashFinish_no_defeat random corpId userId d w :
  corpVitals (execM (slashFinish random corpId userId d false) w) = corpVitals w.
Proof.
  unfold execM, slashFinish, when, bind, ret. simpl.
  apply (drawN_keeps corpVitals random _ ltac:(intros; reflexivity) w).
Qed.

(** **** One piece of one request keeps the account of the damages *)

Lemma noPendingReset_insert tasks i t :
  noPendingReset tasks -> (forall u d, t <> Narrating (Some (u, d, true))) ->
  noPendingReset (<[ i := t ]> tasks).
Proof. intros H Ht. apply Forall_insert; assumption. Qed.

(** a strike of damage [d] that reports the flag [isDefeated] *)
Lemma strike_settled corpId h0 mh ds0 w tasks d isDefeated w1 i t' :
  0 <= d ->
  Forall (fun p => 0 <= fst p) ds0 ->
  (forall h m, corpVitals w !! corpId = Some (h, m) ->
     isDefeated = (Z.max 0 (h - d) <=? 0)
     /\ (isDefeated = false -> corpVitals w1 !! corpId = Some (h - d, m))) ->
  (isDefeated = false -> forall u d', t' <> Narrating (Some (u, d', true))) ->
  Settled corpId h0 mh ds0 w tasks ->
  Settled corpId h0 mh (ds0 ++ [(d, isDefeated)]) w1 (<[ i := t' ]> tasks).
Proof.
  intros Hd Hpos Hstrike Ht' [[Hsum Hex] | (Hsum & Hv & Hflags & Hpend)];
    unfold Settled; rewrite map_app, sumZ_app; simpl.
  - left. split; [lia |]. apply Exists_app. left. exact Hex.
  - destruct (Hstrike _ _ Hv) as [Hdef Hv1].
    destruct isDefeated.
    + left. symmetry in Hdef. apply Z.leb_le in Hdef. split; [lia |].
      apply Exists_app. right. apply Exists_cons_hd. reflexivity.
    + right. symmetry in Hdef. apply Z.leb_gt in Hdef.
      split; [lia |]. split; [| split].
      * rewrite (Hv1 eq_refl). f_equal. f_equal. lia.
      * apply Forall_app. split; [exact Hflags | repeat constructor].
      * apply noPendingReset_insert; [exact Hpend | apply Ht'; reflexivity].
Qed.

Lemma runTask_settled random corpId h0 mh tasks i t w ds0 t' w1 ds1 :
  tasks !! i = Some t ->
  runTask random corpId t (w, map Some ds0) = Some (t', (w1, map Some ds1)) ->
  Forall (fun p => 0 <= fst p) ds1 ->
  Settled corpId h0 mh ds0 w tasks ->
  Settled corpId h0 mh ds1 w1 (<[ i := t' ]> tasks).
Proof.
  intros Hi Hrun Hpos Hs.
  destruct t as [[now userId | now userId] | now userId | [[[userId d] isDefeated] |] |];
    simpl in Hrun.
  - (* the button raid *)
    injection Hrun as <- Hw Hlog.
    change (map Some ds0 ++ [reported (fst (handleRaidAction random now corpId userId w))])
      with (map Some ds0 ++
            map (fun x => x) [reported (fst (handleRaidAction random now corpId userId w))])
      in Hlog.
    symmetry in Hlog. apply List.map_eq_app in Hlog.
    destruct Hlog as (da & db & -> & Ha & Hb). apply map_Some_inj in Ha. subst da.
    destruct db as [| [d def] [| ? ?]]; simpl in Hb; try discriminate Hb.
    injection Hb as Hb. symmetry in Hb.
    apply reported_Some in Hb. destruct Hb as (e & lu & ach & Hres).
    destruct (handleRaidAction random now corpId userId w) as [r w2] eqn:Hraid.
    simpl in Hw, Hres. subst r w2.
    apply handleRaidAction_health in Hraid. destruct Hraid as (c & Hc & Hdef & Hv1).
    apply Forall_app in Hpos. destruct Hpos as [Hpos0 Hposd].
    apply Forall_cons in Hposd. destruct Hposd as [Hd _]. simpl in Hd.
    apply strike_settled with (w := w); try assumption.
    + intros h m Hv. unfold corpVitals in Hv. rewrite lookup_fmap, Hc in Hv.
      simpl in Hv. injection Hv as <- <-.
      split; [exact Hdef |]. intros ->. rewrite Hv1. unfold resetIfDefeated.
      rewrite <- Hdef. simpl. symmetry in Hdef. apply Z.leb_gt in Hdef.
      simpl in Hdef. f_equal. f_equal. lia.
    + intros _ u d'. discriminate.
  - (* the checks of the slash command *)
    pose proof (slashCheck_world corpId userId w) as Hw.
    destruct (slashCheck corpId userId w) as [[[|] |] w2]; simpl in Hrun, Hw; subst w2.
    + injection Hrun as <- <- Hlog. apply map_Some_inj in Hlog. subst ds1.
      destruct Hs as [Hl | (Hsum & Hv & Hflags & Hpend)]; [left; exact Hl | right].
      repeat split; try assumption.
      apply noPendingReset_insert; [exact Hpend | intros u d; discriminate].
    + exfalso. injection Hrun as _ _ Hlog. symmetry in Hlog.
      change [@None (Z * bool)] with (map (fun x => x) [@None (Z * bool)]) in Hlog.
      apply List.map_eq_app in Hlog. destruct Hlog as (da & db & _ & _ & Hb).
      destruct db as [| p db]; simpl in Hb; discriminate Hb.
    + exfalso. injection Hrun as _ _ Hlog. symmetry in Hlog.
      change [@None (Z * bool)] with (map (fun x => x) [@None (Z * bool)]) in Hlog.
      apply List.map_eq_app in Hlog. destruct Hlog as (da & db & _ & _ & Hb).
      destruct db as [| p db]; simpl in Hb; discriminate Hb.
  - (* the strike of the slash command *)
    destruct (slashStrike random now corpId userId w) as [[[d def] |] w2] eqn:Hstrike;
      simpl in Hrun.
    + injection Hrun as <- <- Hlog. symmetry in Hlog.
      change [Some (d, def)] with (map Some [(d, def)]) in Hlog.
      rewrite <- map_app in Hlog. apply map_Some_inj in Hlog. subst ds1.
      apply Forall_app in Hpos. destruct Hpos as [Hpos0 Hposd].
      apply Forall_cons in Hposd. destruct Hposd as [Hd _]. simpl in Hd.
      apply strike_settled with (w := w); try assumption.
      * intros h m Hv. unfold corpVitals in Hv. rewrite lookup_fmap in Hv.
        destruct (corporations w !! corpId) as [c |] eqn:Hc; [| discriminate Hv].
        simpl in Hv. injection Hv as <- <-.
        destruct (slashStrike_health _ _ _ _ _ _ _ _ _ Hc Hstrike) as [Hv1 Hdef].
        split; [exact Hdef |]. intros ->. rewrite Hv1.
        symmetry in Hdef. apply Z.leb_gt in Hdef. f_equal. f_equal. lia.
      * intros -> u d' H. discriminate H.
    + exfalso. injection Hrun as _ _ Hlog. symmetry in Hlog.
      change [@None (Z * bool)] with (map (fun x => x) [@None (Z * bool)]) in Hlog.
      apply List.map_eq_app in Hlog. destruct Hlog as (da & db & _ & _ & Hb).
      destruct db as [| p db]; simpl in Hb; discriminate Hb.
  - (* the finish of the slash command *)
    injection Hrun as <- <- Hlog. apply map_Some_inj in Hlog. subst ds1.
    destruct Hs as [Hl | (Hsum & Hv & Hflags & Hpend)]; [left; exact Hl | right].
    assert (Hnot : isDefeated = false).
    { destruct isDefeated; [| reflexivity]. exfalso.
      unfold noPendingReset in Hpend. rewrite Forall_lookup in Hpend.
      apply (Hpend i _ Hi userId d). reflexivity. }
    subst isDefeated. rewrite slashFinish_no_defeat.
    repeat split; try assumption.
    apply noPendingReset_insert; [exact Hpend | intros u d'; discriminate].
  - (* the reply of the button raid *)
    injection Hrun as <- <- Hlog. apply map_Some_inj in Hlog. subst ds1.
    destruct Hs as [Hl | (Hsum & Hv & Hflags & Hpend)]; [left; exact Hl | right].
    repeat split; try assumption.
    apply noPendingReset_insert; [exact Hpend | intros u d'; discriminate].
  - discriminate Hrun.
Qed.

(** **** A whole schedule *)

Lemma runTask_log random corpId t w log t' w1 log1 :
  runTask random corpId t (w, log) = Some (t', (w1, log1)) ->
  exists new, log1 = log ++ new
    /\ (length new + Nat.b2n (unlogged t') = Nat.b2n (unlogged t))%nat.
Proof.
  intros Hrun.
  destruct t as [[now userId | now userId] | now userId | [[[userId d] isDefeated] |] |];
    simpl in Hrun.
  - injection Hrun as <- _ <-. eexists. split; reflexivity.
  - destruct (fst (slashCheck corpId userId w)) as [[|] |];
      injection Hrun as <- _ <-.
    + exists []. split; [symmetry; apply app_nil_r | reflexivity].
    + eexists. split; reflexivity.
    + eexists. split; reflexivity.
  - destruct (fst (slashStrike random now corpId userId w)) as [[d def] |];
      injection Hrun as <- _ <-; eexists; split; reflexivity.
  - injection Hrun as <- _ <-. exists []. split; [symmetry; apply app_nil_r | reflexivity].
  - injection Hrun as <- _ <-. exists []. split; [symmetry; apply app_nil_r | reflexivity].
  - discriminate Hrun.
Qed.

Lemma countUnlogged_insert tasks i t t' :
  tasks !! i = Some t ->
  (countUnlogged (<[ i := t' ]> tasks) + Nat.b2n (unlogged t))%nat
  = (countUnlogged tasks + Nat.b2n (unlogged t'))%nat.
Proof.
  intros Hi. unfold countUnlogged.
  rewrite insert_take_drop by (eapply lookup_lt_Some; exact Hi).
  rewrite <- (take_drop_middle tasks i t Hi) at 3.
  rewrite !List.filter_app, !length_app. simpl.
  destruct (unlogged t), (unlogged t'); simpl; lia.
Qed.

Lemma runSchedule_log random corpId sched :
  forall tasks w log tasks' w' log',
  runSchedule random corpId sched tasks (w, log) = Some (tasks', (w', log')) ->
  exists new, log' = log ++ new
    /\ (length new + countUnlogged tasks' = countUnlogged tasks)%nat.
Proof.
  induction sched as [| i rest IH]; intros tasks w log tasks' w' log' Hrun; simpl in Hrun.
  - injection Hrun as <- _ <-. exists []. split; [symmetry; apply app_nil_r | reflexivity].
  - destruct (tasks !! i) as [t |] eqn:Hi; [| discriminate Hrun].
    destruct (runTask random corpId t (w, log)) as [[t' [w1 log1]] |] eqn:Ht;
      [| discriminate Hrun].
    apply runTask_log in Ht. destruct Ht as (new1 & -> & Hn1).
    apply IH in Hrun. destruct Hrun as (new2 & -> & Hn2).
    exists (new1 ++ new2). split; [rewrite app_assoc; reflexivity |].
    pose proof (countUnlogged_insert tasks i t t' Hi) as Hc.
    rewrite length_app. lia.
Qed.

Lemma runSchedule_settled random corpId h0 mh sched :
  forall tasks w ds0 tasks' w' ds,
  runSchedule random corpId sched tasks (w, map Some ds0) = Some (tasks', (w', map Some ds)) ->
  Forall (fun p => 0 <= fst p) ds ->
  Settled corpId h0 mh ds0 w tasks ->
  Settled corpId h0 mh ds w' tasks'.
Proof.
  induction sched as [| i rest IH]; intros tasks w ds0 tasks' w' ds Hrun Hpos Hs;
    simpl in Hrun.
  - injection Hrun as <- <- Hlog. apply map_Some_inj in Hlog. subst ds0. exact Hs.
  - destruct (tasks !! i) as [t |] eqn:Hi; [| discriminate Hrun].
    destruct (runTask random corpId t (w, map Some ds0)) as [[t' [w1 log1]] |] eqn:Ht;
      [| discriminate Hrun].
    destruct (runSchedule_log _ _ _ _ _ _ _ _ _ Hrun) as (new & Hlog & _).
    apply List.map_eq_app in Hlog. destruct Hlog as (ds1 & dsn & -> & <- & _).
    apply Forall_app in Hpos. destruct Hpos as [Hpos1 Hposn].
    apply (IH _ _ ds1 _ _ _ Hrun).
    + apply Forall_app. split; assumption.
    + eapply runTask_settled; eassumption.
Qed.

Lemma allDone_countUnlogged tasks : allDone tasks = true -> countUnlogged tasks = 0%nat.
Proof.
  unfold allDone, countUnlogged. induction tasks as [| t rest IH]; simpl; [reflexivity |].
  destruct t; simpl; try discriminate. exact IH.
Qed.

Lemma countUnlogged_requests reqs : countUnlogged (map Waiting reqs) = length reqs.
Proof.
  unfold countUnlogged. induction reqs as [| r rest IH]; simpl; [reflexivity |].
  rewrite IH. reflexivity.
Qed.

(** C4 fails on the slash command: OpenAI has 50 health left; u1 raids
    through the slash command, u2 and u3 through the button, every raid
    deals 60.  When both button raids run while the slash command awaits
    its result message, the slash command then resets the corporation
    that its own strike defeated, and the 60 damage of u3, dealt to the
    corporation that u2's raid had already reset, is gone: the final
    health is 10000.  Run one after the other, in any of the six orders,
    the same raids report one defeat and end at 10000 - 60 - 60 = 9880.
    The loss comes with the slash command alone: of three raids through
    the button, whose defeat check and reset run in the same piece as
    the strike, each of the 90 interleavings ends at 9880; with the slash
    command among the three, every interleaving ends at 9880, 9940 or
    10000. *)
Theorem concurrent_raids_lose_damage_after_defeat :
  threeRaidsOutcome threeRaids lateResetSchedule
  = Some ([Some (60, true); Some (60, true); Some (60, false)], Some 10000)
  /\ Forall (fun sched =>
               threeRaidsOutcome threeRaids sched
               = Some ([Some (60, true); Some (60, false); Some (60, false)], Some 9880))
            oneAfterTheOther
  /\ length (completeSchedules threeButtonRaids 6) = 90%nat
  /\ Forall (fun sched =>
               exists log, threeRaidsOutcome threeButtonRaids sched = Some (log, Some 9880))
            (completeSchedules threeButtonRaids 6)
  /\ length (completeSchedules threeRaids 7) = 210%nat
  /\ In lateResetSchedule (completeSchedules threeRaids 7)
  /\ Forall (fun sched =>
               exists log h, threeRaidsOutcome threeRaids sched = Some (log, Some h)
                 /\ (h = 9880 \/ h = 9940 \/ h = 10000))
            (completeSchedules threeRaids 7).
Proof.
  split; [vm_compute; reflexivity |].
  split; [repeat constructor |].
  split; [vm_compute; reflexivity |].
  split.
  { assert (H : forallb (fun s => match threeRaidsOutcome threeButtonRaids s with
                                  | Some (_, Some h) => h =? 9880
                                  | _ => false
                                  end) (completeSchedules threeButtonRaids 6) = true)
      by (vm_compute; reflexivity).
    apply List.Forall_forall. intros s Hs.
    apply (proj1 (forallb_forall _ _) H) in Hs.
    destruct (threeRaidsOutcome threeButtonRaids s) as [[log [h |]] |]; try discriminate Hs.
    apply Z.eqb_eq in Hs. subst h. exists log. reflexivity. }
  split; [vm_compute; reflexivity |].
  split.
  { assert (H : existsb (fun s => bool_decide (s = lateResetSchedule))
                        (completeSchedules threeRaids 7) = true)
      by (vm_compute; reflexivity).
    apply existsb_exists in H. destruct H as (s & Hin & Hs).
    apply bool_decide_eq_true in Hs. subst s. exact Hin. }
  assert (H : forallb (fun s => match threeRaidsOutcome threeRaids s with
                                | Some (_, Some h) => (h =? 9880) || (h =? 9940) || (h =? 10000)
                                | _ => false
                                end) (completeSchedules threeRaids 7) = true)
    by (vm_compute; reflexivity).
  apply List.Forall_forall. intros s Hs.
  apply (proj1 (forallb_forall _ _) H) in Hs.
  destruct (threeRaidsOutcome threeRaids s) as [[log [h |]] |]; try discriminate Hs.
  exists log, h. split; [reflexivity |].
  apply orb_true_iff in Hs. destruct Hs as [Hs | Hs].
  - apply orb_true_iff in Hs. destruct Hs as [Hs | Hs]; apply Z.eqb_eq in Hs; lia.
  - apply Z.eqb_eq in Hs. lia.
Qed.

(** X27: N raid requests against one corporation, each through the button
    or through the slash command, run under the event loop in any
    interleaving of their pieces that runs every request to its end.  If
    the raids report the damages d1..dN (each at least 0), all N are
    accounted for and, with S their sum: when S is below the initial
    health, the final health is the initial health minus S, which is
    max (0, initial - S), and no raid reports a defeat; when S reaches the
    initial health, some raid reports a defeat. *)
Theorem concurrent_raids_lose_no_damage
    (random : nat -> Q) (corpId : string) (reqs : list Request) (sched : list nat)
    (w w' : World) (c : Corporation) (tasks' : list Task) (ds : list (Z * bool)) :
  corporations w !! corpId = Some c ->
  0 < health c ->
  runSchedule random corpId sched (map Waiting reqs) (w, [])
    = Some (tasks', (w', map Some ds)) ->
  allDone tasks' = true ->
  Forall (fun p => 0 <= fst p) ds ->
  length ds = length reqs
  /\ (sumZ (map fst ds) < health c ->
      (health <$> corporations w' !! corpId)
        = Some (Z.max 0 (health c - sumZ (map fst ds)))
      /\ (health <$> corporations w' !! corpId) = Some (health c - sumZ (map fst ds))
      /\ Forall (fun p => snd p = false) ds)
  /\ (health c <= sumZ (map fst ds) -> Exists (fun p => snd p = true) ds).
Proof.
  intros Hc Hh Hrun Hdone Hpos.
  destruct (runSchedule_log _ _ _ _ _ _ _ _ _ Hrun) as (new & Hnew & Hcount).
  simpl in Hnew. subst new.
  rewrite (allDone_countUnlogged _ Hdone), countUnlogged_requests, length_map in Hcount.
  assert (Hs : Settled corpId (health c) (maxHealth c) ds w' tasks').
  { apply (runSchedule_settled random corpId (health c) (maxHealth c) sched
             (map Waiting reqs) w [] tasks' w' ds Hrun Hpos).
    right. simpl. split; [lia |]. split; [| split].
    - unfold corpVitals. rewrite lookup_fmap, Hc. simpl. f_equal. f_equal. lia.
    - constructor.
    - unfold noPendingReset. apply Forall_map. apply Forall_forall.
      intros r _ u d. discriminate. }
  split; [lia | split].
  - intros Hsum. destruct Hs as [[Hge _] | (_ & Hv & Hflags & _)]; [lia |].
    unfold corpVitals in Hv. rewrite lookup_fmap in Hv.
    destruct (corporations w' !! corpId) as [c' |]; [| discriminate Hv].
    simpl in Hv |- *. injection Hv as -> _.
    split; [f_equal; lia | split; [reflexivity | exact Hflags]].
  - intros Hsum. destruct Hs as [[_ Hex] | (Hlt & _)]; [exact Hex | lia].
Qed.

Lemma concurrent_raids_two :
  (health <$> corporations twoRaidsWorld !! "openai") = Some (10000 - (60 + (60 + 0))).
Proof.
  refine (proj1 (proj2 (proj1 (proj2
    (concurrent_raids_lose_no_damage (fun _ => Qmake 1 2) "openai" twoRaids twoRaidsSchedule
       (worldOf ["u1"; "u2"] "Model Trainer" openai) twoRaidsWorld openai
       [Finished; Finished] [(60, false); (60, false)] _ _ _ _ _)) _))).
  - reflexivity.
  - reflexivity.
  - vm_compute. reflexivity.
  - reflexivity.
  - repeat constructor; simpl; lia.
  - simpl. lia.
Defined.

(** *** The scenario raid *)

Lemma pick_Some {A} (l : list A) (r : Q) :
  l <> [] -> inUnit r -> exists x, pick l r = Some x.
Proof.
  intros Hl [H0 H1]. unfold pick, floorQ.
  set (n := Z.of_nat (length l)).
  assert (Hn : 0 < n). { destruct l; [congruence | unfold n; simpl; lia]. }
  assert (Hlo : 0 <= Qfloor (Qmult r (inject_Z n))).
  { change 0 with (Qfloor (inject_Z 0)). apply Qfloor_resp_le.
    apply Qmult_le_0_compat; [exact H0 |].
    change (Qle (inject_Z 0) (inject_Z n)). rewrite <- Zle_Qle. lia. }
  assert (Hhi : Qfloor (Qmult r (inject_Z n)) < n).
  { rewrite Zlt_Qlt. eapply Qle_lt_trans; [apply Qfloor_le |].
    apply Qlt_le_trans with (Qmult (inject_Z 1) (inject_Z n)).
    - apply Qmult_lt_compat_r; [| exact H1].
      change (Qlt (inject_Z 0) (inject_Z n)). rewrite <- Zlt_Qlt. lia.
    - rewrite Qmult_1_l. apply Qle_refl. }
  destruct (Qfloor (Qmult r (inject_Z n)) <? 0) eqn:E;
    [apply Z.ltb_lt in E; exfalso; clear -Hlo E; lia |].
  destruct (nth_error l (Z.to_nat (Qfloor (Qmult r (inject_Z n))))) as [x |] eqn:Hx.
  - exists x. reflexivity.
  - apply nth_error_None in Hx. exfalso. clear -Hx Hhi Hlo. unfold n in *. lia.
Qed.

Lemma lootStep_ok random now userId corp damage i w :
  damage <= 200 -> loot corp <> [] -> (forall n, inUnit (random n)) ->
  exists stop, fst (lootStep random now userId corp damage i w) = Ok stop.
Proof.
  intros Hd Hl Hr.
  unfold lootStep, bind, gets, Math_random, fromOption, modInventory, modify, ret, throw.
  simpl. destruct (inventory w !! userId) as [inv |]; simpl; [| eexists; reflexivity].
  destruct (capacity inv <=? itemCount inv); simpl; [eexists; reflexivity |].
  replace (200 <? damage) with false by (symmetry; apply Z.ltb_ge; exact Hd). simpl.
  destruct (pick_Some (loot corp) (random (rng w)) Hl (Hr _)) as [x ->]. simpl.
  eexists; reflexivity.
Qed.

Lemma lootLoop_ok random now userId corp damage n :
  damage <= 200 -> loot corp <> [] -> (forall n, inUnit (random n)) ->
  forall i w, fst (lootLoop random now userId corp damage n i w) = Ok tt.
Proof.
  intros Hd Hl Hr. induction n as [| n IH]; intros i w; simpl; [reflexivity |].
  unfold bind. destruct (lootStep_ok random now userId corp damage i w Hd Hl Hr) as [stop Hs].
  destruct (lootStep random now userId corp damage i w) as [r w1]. simpl in Hs. subst r.
  destruct stop; [reflexivity | apply IH].
Qed.

Lemma addLootToInventory_ok random now userId corp damage w :
  damage <= 200 -> loot corp <> [] -> (forall n, inUnit (random n)) ->
  fst (addLootToInventory random now userId corp damage w) = Ok tt.
Proof.
  intros Hd Hl Hr. unfold addLootToInventory, bind, gets. simpl.
  destruct (inventory w !! userId); [| reflexivity].
  pose proof (lootLoop_ok random now userId corp damage
                (Z.to_nat (Z.min 3 (damage / 100 + 1))) Hd Hl Hr 0%nat w) as H.
  destruct (lootLoop random now userId corp damage _ 0%nat w) as [r w1].
  simpl in H. subst r. reflexivity.
Qed.

Lemma gainExperience_no_level_up userId amount w r :
  rebels w !! userId = Some r ->
  (experience r + amount) / 100 + 1 <= level r ->
  gainExperience userId amount w
  = (Ok false, set_rebels (alter (set_experience (experience r + amount)) userId) w).
Proof.
  intros Hr Hl. unfold gainExperience, bind, gets, modRebel, modify, ret. simpl.
  rewrite Hr. simpl.
  replace (level r <? (experience r + amount) / 100 + 1) with false
    by (symmetry; apply Z.ltb_ge; exact Hl).
  reflexivity.
Qed.

Lemma checkOne_quiet userId cond achievementId acc w r :
  rebels w !! userId = Some r -> cond r = false ->
  checkOne userId cond achievementId acc w = (Ok acc, w).
Proof.
  intros Hr Hc. unfold checkOne, hasAchievement, bind, gets, ret. simpl. rewrite Hr.
  destruct (achievements w !! userId); simpl; rewrite Hc; reflexivity.
Qed.

(** no milestone reached: [checkAchievements] awards nothing *)
Lemma checkAchievements_quiet userId w r :
  rebels w !! userId = Some r ->
  corporateDamage r < 1000 -> loyaltyScore r < 100 -> corporationsDefeated r < 5 ->
  checkAchievements userId w = (Ok [], w).
Proof.
  intros Hr Hd Hl Hc. unfold checkAchievements, bind at 1, gets at 1. simpl. rewrite Hr.
  repeat (unfold bind at 1;
          rewrite (checkOne_quiet userId _ _ _ w r Hr) by (apply Z.leb_gt; lia)).
  apply (checkOne_quiet userId _ _ _ w r Hr). apply Z.leb_gt; lia.
Qed.

Lemma Qltb_nonneg_false (r : Q) :
  Qle (inject_Z 0) r -> Qltb (Qmult r (inject_Z 100)) (inject_Z 0) = false.
Proof.
  intros H. unfold Qltb. apply negb_false_iff. apply Qle_bool_iff.
  apply Qmult_le_0_compat; [exact H | discriminate].
Qed.

(** a corporation that is not on alert does not answer a small raid *)
Lemma processCorporateResponse_quiet random now corpId userId damage w c :
  corporations w !! corpId = Some c ->
  alertLevel c = 0 ->
  floorQ (Qdiv damage (inject_Z 200)) = 0 ->
  Qltb (inject_Z 300) damage = false ->
  Qle (inject_Z 0) (random (rng w)) ->
  fst (processCorporateResponse random now corpId userId damage w) = Ok tt
  /\ rebels (snd (processCorporateResponse random now corpId userId damage w)) = rebels w
  /\ inventory (snd (processCorporateResponse random now corpId userId damage w))
     = inventory w.
Proof.
  intros Hc Ha Hf H300 Hr.
  unfold processCorporateResponse, checkCountermeasureActivation, bind, gets, modCorp,
    modify, when, Math_random, ret.
  simpl. rewrite Hc. simpl. rewrite !lookup_alter_eq, Hc. simpl.
  rewrite Ha, Hf. change (Z.min 5 (0 + 0) * 15) with 0.
  rewrite (Qltb_nonneg_false _ Hr), H300. simpl.
  repeat split.
Qed.

Arguments gainExperience : simpl never.
Arguments addLootToInventory : simpl never.
Arguments checkAchievements : simpl never.
Arguments processCorporateResponse : simpl never.
Arguments Game.calculateDamage : simpl never.

(** C3: a rebel at level 1 with loyalty 0, class Model Trainer and energy
    100 raids a corporation at health 10,000 of 10,000 with the draw
    U = 0.8 + 0.4 * random = 1.  The base damage is 60, the raid reports
    damage 60, the corporation is left at 9,940, the rebel at energy 75
    and loyalty 6.  (The rebel is short of the next level and of every
    milestone, the corporation is not on alert and has a loot table, and
    the draws lie in [0, 1).) *)
Theorem raid_scenario
    (random : nat -> Q) (now : Z) (corpId userId : string) (w : World)
    (r : Rebel) (c : Corporation) :
  rebels w !! userId = Some r ->
  corporations w !! corpId = Some c ->
  level r = 1 -> loyaltyScore r = 0 -> rclass r = "Model Trainer" -> energy r = 100 ->
  health c = 10000 -> maxHealth c = 10000 ->
  Qeq (Qplus (tenths 8) (Qmult (random (rng w)) (tenths 4))) (inject_Z 1) ->
  experience r + 13 < 100 -> corporateDamage r + 60 < 1000 -> corporationsDefeated r < 5 ->
  alertLevel c = 0 -> loot c <> [] -> (forall n, inUnit (random n)) ->
  let res := handleRaidAction random now corpId userId w in
  Game.calculateDamage r = 60
  /\ fst res = Ok (Raided 60 13 false false [])
  /\ (health <$> corporations (snd res) !! corpId) = Some 9940
  /\ (energy <$> rebels (snd res) !! userId) = Some 75
  /\ (loyaltyScore <$> rebels (snd res) !! userId) = Some 6.
Proof.
  intros Hr Hc Hlvl Hloy Hcls Hen Hh Hmh HU Hexp Hcd Hdef Halert Hloot Hrand res.
  assert (Hbase : Game.calculateDamage r = 60).
  { unfold Game.calculateDamage. rewrite Hlvl, Hloy, Hcls. reflexivity. }
  assert (Hact : floorQ (Qmult (inject_Z 60)
                               (Qplus (tenths 8) (Qmult (random (rng w)) (tenths 4)))) = 60).
  { unfold floorQ. rewrite HU. reflexivity. }
  split; [exact Hbase |].
  assert (Hres : exists w' r',
             handleRaidAction random now corpId userId w
               = (Ok (Raided 60 13 false false []), w')
             /\ (health <$> corporations w' !! corpId) = Some 9940
             /\ rebels w' !! userId = Some r'
             /\ energy r' = 75 /\ loyaltyScore r' = 6).
  { unfold handleRaidAction, executeRaid, bind, gets, fromOption, Math_random,
      modCorp, modRebel, modify, when, ret.
    simpl. rewrite Hr. simpl. rewrite Hen. simpl. rewrite Hc, Hr. simpl.
    rewrite Hbase, Hact.
    change (60 / 20 + 10) with 13. change (60 / 10) with 6.
    erewrite gainExperience_no_level_up;
      [| simpl; rewrite lookup_alter_eq, Hr; reflexivity
       | simpl; rewrite Hlvl; clear -Hexp;
         pose proof (Z.div_lt_upper_bound (experience r + 13) 100 1
                       ltac:(lia) ltac:(lia)); lia].
    simpl. rewrite !lookup_alter_eq, Hc. simpl. rewrite Hh. simpl.
    match goal with
    | |- context [addLootToInventory random now userId c 60 ?W] => set (w5 := W)
    end.
    pose proof (addLootToInventory_ok random now userId c 60 w5 ltac:(lia) Hloot Hrand)
      as Hok.
    pose proof (addLootToInventory_keeps rebels random now userId c 60
                  ltac:(intros; reflexivity) ltac:(intros; reflexivity) w5) as Hkr.
    pose proof (addLootToInventory_keeps corporations random now userId c 60
                  ltac:(intros; reflexivity) ltac:(intros; reflexivity) w5) as Hkc.
    unfold keeps in Hkr, Hkc.
    destruct (addLootToInventory random now userId c 60 w5) as [r6 w6].
    simpl in Hok, Hkr, Hkc. subst r6.
    assert (Hr6 : exists r6, rebels w6 !! userId = Some r6
                    /\ energy r6 = 75 /\ loyaltyScore r6 = 6
                    /\ corporateDamage r6 = corporateDamage r + 60
                    /\ corporationsDefeated r6 = corporationsDefeated r).
    { rewrite Hkr. unfold w5. simpl. rewrite !lookup_alter_eq, Hr. simpl.
      eexists. split; [reflexivity |]. simpl. rewrite Hen, Hloy. repeat split. }
    destruct Hr6 as (r6 & Hr6 & He6 & Hl6 & Hd6 & Hcd6).
    rewrite (checkAchievements_quiet userId w6 r6 Hr6) by lia.
    assert (Hc6 : corporations w6 !! corpId = Some (damageCorp 60 c)).
    { rewrite Hkc. unfold w5. simpl. rewrite lookup_alter_eq, Hc. reflexivity. }
    destruct (processCorporateResponse_quiet random now corpId userId (inject_Z 60) w6
                (damageCorp 60 c) Hc6 Halert eq_refl eq_refl (proj1 (Hrand _)))
      as (Hok8 & Hr8 & _).
    pose proof (processCorporateResponse_vitals random now corpId userId (inject_Z 60) w6)
      as Hv8.
    unfold keeps in Hv8.
    destruct (processCorporateResponse random now corpId userId (inject_Z 60) w6)
      as [r8 w8].
    simpl in Hok8, Hr8, Hv8. subst r8.
    exists w8, r6. split; [reflexivity |].
    split; [| rewrite Hr8; repeat split; assumption].
    apply (f_equal (fun m => fst <$> m !! corpId)) in Hv8.
    unfold corpVitals in Hv8. rewrite !lookup_fmap, Hc6 in Hv8.
    destruct (corporations w8 !! corpId) as [c8 |]; [| discriminate Hv8].
    simpl in Hv8 |- *. rewrite Hh in Hv8. exact Hv8. }
  destruct Hres as (w' & r' & Hres & Hhealth & Hr' & He' & Hl').
  subst res. rewrite Hres. simpl. rewrite Hr'. simpl. rewrite He', Hl'.
  repeat split. exact Hhealth.
Qed.

(** the scenario on the catalogue: a new Model Trainer raids OpenAI Corp,
    every draw is 1/2 *)
Lemma raid_scenario_new_rebel :
  Game.calculateDamage (newRebel "Model Trainer" 0) = 60
  /\ fst (handleRaidAction (fun _ => Qmake 1 2) 5000 "openai" "u1"
            (worldOf ["u1"] "Model Trainer" openai))
     = Ok (Raided 60 13 false false [])
  /\ (health <$>
        corporations (snd (handleRaidAction (fun _ => Qmake 1 2) 5000 "openai" "u1"
                             (worldOf ["u1"] "Model Trainer" openai))) !! "openai")
     = Some 9940
  /\ (energy <$>
        rebels (snd (handleRaidAction (fun _ => Qmake 1 2) 5000 "openai" "u1"
                       (worldOf ["u1"] "Model Trainer" openai))) !! "u1")
     = Some 75
  /\ (loyaltyScore <$>
        rebels (snd (handleRaidAction (fun _ => Qmake 1 2) 5000 "openai" "u1"
                       (worldOf ["u1"] "Model Trainer" openai))) !! "u1")
     = Some 6.
Proof.
  apply (raid_scenario (fun _ => Qmake 1 2) 5000 "openai" "u1"
           (worldOf ["u1"] "Model Trainer" openai) (newRebel "Model Trainer" 0) openai);
    try reflexivity; try (simpl; lia).
  - discriminate.
  - intros n. split; [discriminate | reflexivity].
Defined.

(** ** Further properties of the code *)

(** running a computation whose first part is known *)
Lemma bind_eval {A B} (m : M A) (k : A -> M B) (w w1 : World) (a : A) :
  m w = (Ok a, w1) -> bind m k w = k a w1.
Proof. intros H. unfold bind. rewrite H. reflexivity. Qed.

(** *** The inventory desk *)

Lemma worth_app a b : worth (a ++ b) = worth a + worth b.
Proof. unfold worth. rewrite map_app. apply sumZ_app. Qed.

Lemma fold_value (l : list Item) : forall acc,
  fold_left (fun sum it => sum + value it) l acc = acc + worth l.
Proof.
  induction l as [| it l IH]; intros acc; simpl.
  - unfold worth. simpl. lia.
  - rewrite IH. unfold worth. simpl. lia.
Qed.

Lemma kept_sellable it : kept it = negb (sellable it).
Proof. unfold kept, sellable. rewrite negb_orb. reflexivity. Qed.

Lemma worth_split (l : list Item) :
  worth (List.filter sellable l) + worth (List.filter kept l) = worth l.
Proof.
  induction l as [| it l IH]; simpl; [reflexivity |].
  rewrite kept_sellable. destruct (sellable it); simpl; unfold worth in *; simpl; lia.
Qed.

Lemma filter_sellable_kept (l : list Item) : List.filter sellable (List.filter kept l) = [].
Proof.
  induction l as [| it l IH]; simpl; [reflexivity |].
  rewrite kept_sellable. destruct (sellable it) eqn:E; simpl; [exact IH |].
  rewrite E. exact IH.
Qed.

Lemma alter_alter_insert (f g : Inventory -> Inventory) (u : string)
    (m : gmap string Inventory) inv :
  m !! u = Some inv -> alter g u (alter f u m) = <[ u := g (f inv) ]> m.
Proof.
  intros H. apply map_eq. intros k. destruct (decide (u = k)) as [<- | Hne].
  - rewrite !lookup_alter_eq, lookup_insert_eq, H. reflexivity.
  - rewrite !lookup_alter_ne, lookup_insert_ne by assumption. reflexivity.
Qed.

Lemma handleSellItems_nothing (userId : string) (w : World) (inv : Inventory) (r : Rebel) :
  inventory w !! userId = Some inv ->
  rebels w !! userId = Some r ->
  List.filter sellable (items inv) = [] ->
  handleSellItems userId w
  = (Ok (if (length (items inv) =? 0)%nat then NoItemsToSell else NoCommonItemsToSell), w).
Proof.
  intros Hinv Hr Hs.
  unfold handleSellItems, bind, gets, modInventory, modify, ret. simpl.
  rewrite Hinv, Hr, Hs. simpl. destruct (length (items inv) =? 0)%nat; reflexivity.
Qed.

Lemma handleSellItems_sold (userId : string) (w : World) (inv : Inventory) (r : Rebel) :
  inventory w !! userId = Some inv ->
  rebels w !! userId = Some r ->
  List.filter sellable (items inv) <> [] ->
  handleSellItems userId w
  = (Ok (Sold (length (List.filter sellable (items inv)))
              (worth (List.filter sellable (items inv)))
              (credits (afterSale inv))),
     set_inventory (fun _ => <[ userId := afterSale inv ]> (inventory w)) w).
Proof.
  intros Hinv Hr Hs.
  unfold handleSellItems, bind, gets, modInventory, modify, ret. simpl.
  rewrite Hinv, Hr.
  destruct (length (items inv) =? 0)%nat eqn:El.
  { apply Nat.eqb_eq in El. destruct (items inv) eqn:Ei; [| discriminate El].
    simpl in Hs. congruence. }
  destruct (length (List.filter sellable (items inv)) =? 0)%nat eqn:Es.
  { apply Nat.eqb_eq in Es.
    destruct (List.filter sellable (items inv)); [congruence | discriminate Es]. }
  simpl. rewrite fold_value, Z.add_0_l. f_equal.
  unfold set_inventory. simpl. f_equal.
  erewrite alter_alter_insert by exact Hinv. reflexivity.
Qed.

(** X1: a sale at the inventory desk, [handleSellItems], conserves the
    wealth of the seller: the reply is the number and the summed value
    of the common and uncommon items, the inventory keeps exactly the
    other items at the same capacity, and credits plus the value of the
    items is what it was.  With nothing to sell the state is unchanged,
    and a second sale right after a sale is refused and changes
    nothing. *)
Theorem handleSellItems_conserves_wealth (userId : string) (w : World) (inv : Inventory)
    (r : Rebel) :
  inventory w !! userId = Some inv ->
  rebels w !! userId = Some r ->
  let sold := List.filter sellable (items inv) in
  let res := handleSellItems userId w in
  (sold = [] ->
     res = (Ok (if (length (items inv) =? 0)%nat then NoItemsToSell
                else NoCommonItemsToSell), w))
  /\ (sold <> [] ->
        exists inv',
          res = (Ok (Sold (length sold) (worth sold) (credits inv')),
                 set_inventory (fun _ => <[ userId := inv' ]> (inventory w)) w)
          /\ items inv' = List.filter (fun it => negb (sellable it)) (items inv)
          /\ capacity inv' = capacity inv
          /\ credits inv' = credits inv + worth sold
          /\ credits inv' + worth (items inv') = credits inv + worth (items inv)
          /\ snd (handleSellItems userId (snd res)) = snd res
          /\ (forall n v c, fst (handleSellItems userId (snd res)) <> Ok (Sold n v c))).
Proof.
  intros Hinv Hr sold res. subst res sold. split.
  - intros Hs. apply (handleSellItems_nothing userId w inv r Hinv Hr Hs).
  - intros Hs. exists (afterSale inv).
    rewrite (handleSellItems_sold userId w inv r Hinv Hr Hs).
    split; [reflexivity |]. split; [| split; [| split; [| split]]].
    + simpl. apply filter_ext. intros it. apply kept_sellable.
    + reflexivity.
    + reflexivity.
    + simpl. pose proof (worth_split (items inv)) as Hw. lia.
    + cbn [snd].
      assert (Hinv' : inventory (set_inventory (fun _ => <[ userId := afterSale inv ]>
                                                          (inventory w)) w) !! userId
                      = Some (afterSale inv)).
      { simpl. apply lookup_insert_eq. }
      assert (Hr' : rebels (set_inventory (fun _ => <[ userId := afterSale inv ]>
                                                      (inventory w)) w) !! userId = Some r).
      { exact Hr. }
      rewrite (handleSellItems_nothing userId _ (afterSale inv) r Hinv' Hr')
        by (simpl; apply filter_sellable_kept).
      split; [reflexivity |].
      intros n v c. simpl. destruct (length (List.filter kept (items inv)) =? 0)%nat;
        discriminate.
Qed.

(** a new rebel with a common item worth 5 and a legendary one sells
    the common one *)
Lemma handleSellItems_sells_junk :
  exists inv',
    handleSellItems "u1" deskWorld
    = (Ok (Sold 1 5 (credits inv')),
       set_inventory (fun _ => <[ "u1" := inv' ]> (inventory deskWorld)) deskWorld)
    /\ items inv' = [relic]
    /\ credits inv' = 105.
Proof.
  destruct (handleSellItems_conserves_wealth "u1" deskWorld
              (mkInventory [junk 1; relic] 20 100) (newRebel "Model Trainer" 0)
              eq_refl eq_refl) as [_ Hsold].
  destruct Hsold as (inv' & Hres & Hitems & _ & Hcredits & _); [discriminate |].
  exists inv'. split; [exact Hres |]. split; [exact Hitems | exact Hcredits].
Defined.

Lemma solvent_insert m u inv' :
  solvent m -> 0 <= credits inv' -> solvent (<[ u := inv' ]> m).
Proof.
  intros Hm Hc k inv. destruct (decide (u = k)) as [<- | Hne].
  - rewrite lookup_insert_eq. intros [= <-]. exact Hc.
  - rewrite lookup_insert_ne by assumption. apply Hm.
Qed.

Lemma withinCapacity_insert m u inv' :
  withinCapacity m -> itemCount inv' <= capacity inv' -> withinCapacity (<[ u := inv' ]> m).
Proof.
  intros Hm Hc k inv. destruct (decide (u = k)) as [<- | Hne].
  - rewrite lookup_insert_eq. intros [= <-]. exact Hc.
  - rewrite lookup_insert_ne by assumption. apply Hm.
Qed.

Lemma worth_nonneg (l : list Item) : Forall (fun it => 0 <= value it) l -> 0 <= worth l.
Proof.
  induction 1 as [| it l Hit _ IH]; unfold worth in *; simpl; lia.
Qed.

Lemma filter_length_le {A} (f : A -> bool) (l : list A) :
  (length (List.filter f l) <= length l)%nat.
Proof.
  induction l as [| a l IH]; simpl; [lia |]. destruct (f a); simpl; lia.
Qed.

(** X2: the desk never puts an inventory in debt or over its capacity.
    When no inventory has negative credits and none holds more items
    than its capacity, the same is true after buying a defensive item,
    after upgrading the inventory and after training, whatever the
    reply; and after a sale when no item has a negative value. *)
Theorem desk_keeps_solvency (random : nat -> Q) (now : Z) (userId : string) (w : World) :
  solvent (inventory w) ->
  withinCapacity (inventory w) ->
  (forall itemType,
     let w' := execM (handleBuyDefensiveItem random now userId itemType) w in
     solvent (inventory w') /\ withinCapacity (inventory w'))
  /\ (let w' := execM (handleUpgradeInventory userId) w in
      solvent (inventory w') /\ withinCapacity (inventory w'))
  /\ (let w' := execM (handleTrainAbilities userId) w in
      solvent (inventory w') /\ withinCapacity (inventory w'))
  /\ (fairlyValued (inventory w) ->
      let w' := execM (handleSellItems userId) w in
      solvent (inventory w') /\ withinCapacity (inventory w')).
Proof.
  intros Hs Hc. split; [| split; [| split]].
  - intros itemType w'. subst w'. unfold execM.
    pose proof (handleBuyDefensiveItem_spec random now userId itemType w) as H.
    unfold handleBuyDefensiveItem, bind, gets in H |- *. simpl in H |- *.
    destruct (inventory w !! userId) as [inv |] eqn:Hinv; simpl in *; [| split; assumption].
    destruct (assoc itemType defensiveItems) as [d |]; simpl in *; [| split; assumption].
    destruct (credits inv <? cost d) eqn:Ecost; simpl in *; [split; assumption |].
    destruct (capacity inv <=? itemCount inv) eqn:Ecap; simpl in *; [split; assumption |].
    apply Z.ltb_ge in Ecost. apply Z.leb_gt in Ecap.
    destruct H as (inv0 & d0 & it & [= <-] & [= <-] & _ & ->).
    split.
    + apply solvent_insert; [assumption | simpl; lia].
    + apply withinCapacity_insert; [assumption |].
      unfold itemCount in *. simpl. rewrite length_app. simpl. lia.
  - intros w'. subst w'. unfold execM, handleUpgradeInventory, bind, gets, modInventory, modify.
    simpl. destruct (inventory w !! userId) as [inv |] eqn:Hinv; simpl; [| split; assumption].
    destruct (credits inv <? capacity inv * 10) eqn:Ecost; simpl; [split; assumption |].
    apply Z.ltb_ge in Ecost. erewrite alter_alter_insert by exact Hinv.
    split.
    + apply solvent_insert; [assumption | simpl; lia].
    + apply withinCapacity_insert; [assumption |].
      pose proof (Hc userId inv Hinv). unfold itemCount in *. simpl. lia.
  - intros w'. subst w'. unfold execM, handleTrainAbilities, bind, gets, modInventory, modRebel,
      modify. simpl.
    destruct (rebels w !! userId) as [r |]; simpl; [| split; assumption].
    destruct (inventory w !! userId) as [inv |] eqn:Hinv; simpl; [| split; assumption].
    destruct (credits inv <? level r * 100) eqn:Ecost; simpl; [split; assumption |].
    apply Z.ltb_ge in Ecost.
    assert (E : alter (fun inv0 => set_credits (credits inv0 - level r * 100) inv0) userId
                  (inventory w)
                = <[ userId := set_credits (credits inv - level r * 100) inv ]> (inventory w)).
    { apply map_eq. intros k. destruct (decide (userId = k)) as [<- | Hne].
      - rewrite lookup_alter_eq, lookup_insert_eq, Hinv. reflexivity.
      - rewrite lookup_alter_ne, lookup_insert_ne by assumption. reflexivity. }
    rewrite E. split.
    + apply solvent_insert; [assumption | simpl; lia].
    + apply withinCapacity_insert; [assumption |]. apply (Hc userId inv Hinv).
  - intros Hv w'. subst w'. unfold execM.
    destruct (inventory w !! userId) as [inv |] eqn:Hinv.
    2: { unfold handleSellItems, bind, gets. simpl. rewrite Hinv.
         destruct (rebels w !! userId); simpl; split; assumption. }
    destruct (rebels w !! userId) as [r |] eqn:Hr.
    2: { unfold handleSellItems, bind, gets. simpl. rewrite Hinv, Hr. simpl. split; assumption. }
    destruct (List.filter sellable (items inv)) as [| it0 sold0] eqn:Esold.
    + rewrite (handleSellItems_nothing userId w inv r Hinv Hr Esold). split; assumption.
    + rewrite (handleSellItems_sold userId w inv r Hinv Hr) by (rewrite Esold; discriminate).
      simpl.
      assert (Hpos : 0 <= worth (List.filter sellable (items inv))).
      { apply worth_nonneg. apply Forall_forall. intros it Hin.
        apply list_elem_of_In in Hin. apply filter_In in Hin. destruct Hin as [Hin _].
        pose proof (Hv userId inv Hinv) as Hall. rewrite Forall_forall in Hall.
        apply Hall. apply list_elem_of_In. exact Hin. }
      split.
      * apply solvent_insert; [assumption |]. pose proof (Hs userId inv Hinv).
        unfold afterSale. simpl. lia.
      * apply withinCapacity_insert; [assumption |].
        pose proof (Hc userId inv Hinv) as Hle. unfold itemCount, afterSale in *. simpl.
        pose proof (filter_length_le kept (items inv)). lia.
Qed.

(** the inventories of a new rebel are in the black and within capacity *)
Lemma desk_starts_solvent :
  solvent (inventory deskWorld) /\ withinCapacity (inventory deskWorld).
Proof.
  split; intros u inv; (destruct (decide (u = "u1")) as [-> | Hne];
    [ vm_compute; intros [= <-]; discriminate
    | unfold deskWorld, worldOf; simpl;
      rewrite !lookup_insert_ne by congruence; rewrite lookup_empty; discriminate ]).
Qed.

(** a new rebel with 100 credits cannot pay the 200 of the upgrade and
    keeps them *)
Lemma desk_keeps_solvency_new_rebel :
  solvent (inventory (execM (handleUpgradeInventory "u1") deskWorld))
  /\ withinCapacity (inventory (execM (handleUpgradeInventory "u1") deskWorld)).
Proof.
  destruct (desk_keeps_solvency (fun _ => Qmake 1 2) 5000 "u1" deskWorld
              (proj1 desk_starts_solvent) (proj2 desk_starts_solvent))
    as (_ & Hupgrade & _).
  exact Hupgrade.
Defined.

(** *** The timers *)

Lemma floor_two_hundredth (n : Z) : floorQ (Qmult (inject_Z n) (Qmake 5 1000)) = n / 200.
Proof.
  unfold floorQ, Qmult, inject_Z, Qfloor. simpl.
  change (Z.pos (1 * 1000)) with (5 * 200).
  rewrite (Z.mul_comm n 5). apply Z.div_mul_cancel_l; lia.
Qed.

Lemma set_energy_same r : set_energy (energy r) r = r.
Proof. destruct r. reflexivity. Qed.

Lemma set_health_same c : set_health (health c) c = c.
Proof. destruct c. reflexivity. Qed.

Lemma regenerateEnergy_iter (n : nat) (r : Rebel) :
  Nat.iter n regenerateEnergy r
  = if energy r <? maxEnergy r
    then set_energy (Z.min (energy r + Z.of_nat n) (maxEnergy r)) r
    else r.
Proof.
  induction n as [| n IH].
  - simpl. destruct (energy r <? maxEnergy r) eqn:E; [| reflexivity].
    apply Z.ltb_lt in E. rewrite Z.add_0_r, Z.min_l by lia.
    symmetry. apply set_energy_same.
  - rewrite Nat.iter_succ, IH. unfold regenerateEnergy.
    destruct (energy r <? maxEnergy r) eqn:E.
    + apply Z.ltb_lt in E. simpl.
      destruct (Z.min (energy r + Z.of_nat n) (maxEnergy r) <? maxEnergy r) eqn:E2.
      * apply Z.ltb_lt in E2. unfold set_energy. simpl. f_equal. lia.
      * apply Z.ltb_ge in E2. unfold set_energy. simpl. f_equal. lia.
    + rewrite E. reflexivity.
Qed.

Lemma iter_fmap_rebels (f : Rebel -> Rebel) (n : nat) (w : World) :
  Nat.iter n (set_rebels (fmap f)) w = set_rebels (fmap (Nat.iter n f)) w.
Proof.
  induction n as [| n IH].
  - simpl. destruct w. unfold set_rebels. simpl. f_equal.
    symmetry. apply map_fmap_id.
  - rewrite Nat.iter_succ, IH. unfold set_rebels. simpl. f_equal.
    rewrite <- map_fmap_compose. reflexivity.
Qed.

(** X3: energy regeneration in closed form.  After [n] runs of the
    callback of [startEnergyRegeneration] a rebel who was below the
    maximum has gained [n] energy, capped at the maximum, and nothing
    else of the rebel has changed; a rebel at or above the maximum is
    left as they were, and no rebel is added or removed. *)
Theorem energyRegeneration_after (n : nat) (w : World) (userId : string) :
  rebels (Nat.iter n energyRegeneration w) !! userId
  = (fun r => if energy r <? maxEnergy r
              then set_energy (Z.min (energy r + Z.of_nat n) (maxEnergy r)) r
              else r) <$> rebels w !! userId.
Proof.
  unfold energyRegeneration. rewrite iter_fmap_rebels. simpl.
  rewrite lookup_fmap. destruct (rebels w !! userId) as [r |]; simpl; [| reflexivity].
  f_equal. apply regenerateEnergy_iter.
Qed.

Lemma regenerateHealth_iter (n : nat) (c : Corporation) :
  Nat.iter n regenerateHealth c
  = if health c <? maxHealth c
    then set_health (Z.min (health c + Z.of_nat n * (maxHealth c / 200)) (maxHealth c)) c
    else c.
Proof.
  induction n as [| n IH].
  - simpl. destruct (health c <? maxHealth c) eqn:E; [| reflexivity].
    apply Z.ltb_lt in E. rewrite Z.add_0_r, Z.min_l by lia.
    symmetry. apply set_health_same.
  - rewrite Nat.iter_succ, IH. unfold regenerateHealth.
    destruct (health c <? maxHealth c) eqn:E.
    + apply Z.ltb_lt in E. simpl. rewrite floor_two_hundredth.
      assert (Hg : (0 <= maxHealth c -> 0 <= maxHealth c / 200)
                   /\ (maxHealth c < 0 -> maxHealth c / 200 < 0)).
      { split; intros H.
        - apply Z.div_pos; lia.
        - apply Z.div_lt_upper_bound; lia. }
      set (g := maxHealth c / 200) in *.
      destruct (Z.min (health c + Z.of_nat n * g) (maxHealth c) <? maxHealth c) eqn:E2.
      * apply Z.ltb_lt in E2. unfold set_health. simpl. f_equal. nia.
      * apply Z.ltb_ge in E2. unfold set_health. simpl. f_equal. nia.
    + rewrite E. reflexivity.
Qed.

Lemma iter_fmap_corporations (f : Corporation -> Corporation) (n : nat) (w : World) :
  Nat.iter n (set_corporations (fmap f)) w = set_corporations (fmap (Nat.iter n f)) w.
Proof.
  induction n as [| n IH].
  - simpl. destruct w. unfold set_corporations. simpl. f_equal.
    symmetry. apply map_fmap_id.
  - rewrite Nat.iter_succ, IH. unfold set_corporations. simpl. f_equal.
    rewrite <- map_fmap_compose. reflexivity.
Qed.

(** X4: corporate health regeneration in closed form.  After [n] runs
    of the callback of [startCorporateHealthRegeneration] a corporation
    below its maximum has gained [n] times the two-hundredth of the
    maximum, rounded down, capped at the maximum; so a corporation not
    above its maximum is back at full health once the runs cover the
    gap, and a corporation whose maximum is below 200 never
    regenerates. *)
Theorem corporateHealthRegeneration_after (n : nat) (w : World) (corpId : string)
    (c : Corporation) :
  corporations w !! corpId = Some c ->
  let after := corporations (Nat.iter n corporateHealthRegeneration w) !! corpId in
  after = Some (if health c <? maxHealth c
                then set_health (Z.min (health c + Z.of_nat n * (maxHealth c / 200))
                                       (maxHealth c)) c
                else c)
  /\ (health c <= maxHealth c ->
      maxHealth c - health c <= Z.of_nat n * (maxHealth c / 200) ->
      health <$> after = Some (maxHealth c))
  /\ (0 <= maxHealth c < 200 -> after = Some c).
Proof.
  intros Hc after.
  assert (Hafter : after
                   = Some (if health c <? maxHealth c
                           then set_health (Z.min (health c + Z.of_nat n * (maxHealth c / 200))
                                                  (maxHealth c)) c
                           else c)).
  { subst after. unfold corporateHealthRegeneration. rewrite iter_fmap_corporations. simpl.
    rewrite lookup_fmap, Hc. simpl. f_equal. apply regenerateHealth_iter. }
  split; [exact Hafter |]. rewrite Hafter. split.
  - intros Hle Hn. destruct (health c <? maxHealth c) eqn:E; simpl.
    + f_equal. lia.
    + apply Z.ltb_ge in E. f_equal. lia.
  - intros Hsmall. rewrite Z.div_small by lia. rewrite Z.mul_0_r, Z.add_0_r.
    destruct (health c <? maxHealth c) eqn:E; [| reflexivity].
    apply Z.ltb_lt in E. rewrite Z.min_l by lia. rewrite set_health_same. reflexivity.
Qed.

(** OpenAI Corp, at 9000 of 10000 health, is back at full health after
    twenty runs of fifty points *)
Lemma corporateHealthRegeneration_openai :
  health <$> corporations (Nat.iter 20 corporateHealthRegeneration
                             (worldOf ["u1"] "Model Trainer" (set_health 9000 openai)))
             !! "openai"
  = Some 10000.
Proof.
  destruct (corporateHealthRegeneration_after 20
              (worldOf ["u1"] "Model Trainer" (set_health 9000 openai)) "openai"
              (set_health 9000 openai) eq_refl) as (_ & Hfull & _).
  apply Hfull; vm_compute; discriminate.
Defined.

(** *** Rebels stay fit *)

#[export] Instance staysFit_preorder : PreOrder staysFit.
Proof.
  split.
  - intros w H. exact H.
  - intros a b c H1 H2 H. apply H2, H1, H.
Qed.

Lemma allFit_alter (f : Rebel -> Rebel) (u : string) (w : World) :
  allFit w ->
  (forall r, rebels w !! u = Some r -> fit (f r)) ->
  allFit (set_rebels (alter f u) w).
Proof.
  intros Hw Hf k r. simpl. destruct (decide (u = k)) as [<- | Hne].
  - rewrite lookup_alter_eq. destruct (rebels w !! u) as [r0 |] eqn:E; simpl; [| discriminate].
    intros [= <-]. apply Hf. reflexivity.
  - rewrite lookup_alter_ne by assumption. apply Hw.
Qed.

Lemma staysFit_alter (f : Rebel -> Rebel) (u : string) (w : World) :
  (forall r, fit r -> fit (f r)) -> staysFit w (set_rebels (alter f u) w).
Proof.
  intros Hf Hw. apply allFit_alter; [exact Hw |].
  intros r Hr. apply Hf. apply (Hw u r Hr).
Qed.

Lemma keeps_staysFit {A} (m : M A) : Steps (keeps rebels) m -> Steps staysFit m.
Proof. intros H w Hw u r. rewrite (H w). apply Hw. Qed.

Ltac fit_side :=
  intros;
  first [ solve [intros H; exact H]
        | apply staysFit_alter; intros ? ?; unfold fit, bySeverity in *; simpl;
          repeat match goal with
            | |- context [if ?b then _ else _] => destruct b
            end; lia ].

Lemma gainExperience_fit userId amount : Steps staysFit (gainExperience userId amount).
Proof.
  intros w Hw. unfold gainExperience, bind, gets, modRebel, modify, ret. simpl.
  destruct (rebels w !! userId) as [r |] eqn:Hr; simpl; [| exact Hw].
  pose proof (Hw userId r Hr) as Hfit.
  destruct (level r <? (experience r + amount) / 100 + 1) eqn:El; simpl.
  - apply Z.ltb_lt in El. apply allFit_alter.
    + apply allFit_alter; [exact Hw |]. intros r0 Hr0. rewrite Hr in Hr0.
      injection Hr0 as <-. exact Hfit.
    + intros r0 _. unfold fit in *. simpl. lia.
  - apply allFit_alter; [exact Hw |]. intros r0 Hr0. rewrite Hr in Hr0.
    injection Hr0 as <-. exact Hfit.
Qed.

Lemma awardAchievement_fit userId achievementId :
  Steps staysFit (awardAchievement userId achievementId).
Proof. unfold awardAchievement, modRebel. steps_core fit_side. Qed.

Lemma checkAchievements_fit userId : Steps staysFit (checkAchievements userId).
Proof.
  assert (Hone : forall c i acc, Steps staysFit (checkOne userId c i acc)).
  { intros c i acc. unfold checkOne, hasAchievement.
    steps_core fit_side. all: apply awardAchievement_fit. }
  unfold checkAchievements. steps_core fit_side; apply Hone.
Qed.

Lemma processCorporateResponse_fit random now corpId userId damage :
  Steps staysFit (processCorporateResponse random now corpId userId damage).
Proof.
  assert (Happly : forall cm, Steps staysFit (applyCountermeasureEffects now userId cm)).
  { intros cm. unfold applyCountermeasureEffects, getRebelProtection, modCorp, modRebel,
      modInventory. steps_core fit_side. }
  assert (Hact : Steps staysFit (activateCountermeasure random now corpId userId)).
  { unfold activateCountermeasure, modCorp. steps_core fit_side. apply Happly. }
  unfold processCorporateResponse, checkCountermeasureActivation, modCorp.
  steps_core fit_side; apply Hact.
Qed.

Lemma addLootToInventory_fit random now userId corp damage :
  Steps staysFit (addLootToInventory random now userId corp damage).
Proof.
  apply keeps_staysFit. apply addLootToInventory_keeps; intros; reflexivity.
Qed.

Lemma handleRaidAction_fit random now corpId userId :
  Steps staysFit (handleRaidAction random now corpId userId).
Proof.
  intros w Hw. unfold handleRaidAction.
  erewrite bind_eval by reflexivity. cbv beta.
  destruct (rebels w !! userId) as [rebel |] eqn:Hr; [| exact Hw].
  destruct (energy rebel <? 25) eqn:Eenergy; [exact Hw |].
  apply Z.ltb_ge in Eenergy. unfold executeRaid.
  erewrite bind_eval by reflexivity. cbv beta.
  destruct (corporations w !! corpId) as [corp |] eqn:Hc; [| exact Hw].
  erewrite bind_eval by reflexivity.
  erewrite bind_eval by (rewrite Hr; reflexivity).
  erewrite bind_eval by reflexivity. cbv zeta.
  erewrite bind_eval by reflexivity.
  erewrite bind_eval by reflexivity.
  match goal with
  | |- allFit (snd (?m ?w2)) => assert (Hm : Steps staysFit m); [| apply (Hm w2)]
  end.
  - unfold modCorp, modRebel. steps_core fit_side.
    + apply gainExperience_fit.
    + apply awardAchievement_fit.
    + apply awardAchievement_fit.
    + apply addLootToInventory_fit.
    + apply checkAchievements_fit.
    + apply processCorporateResponse_fit.
  - apply allFit_alter; [exact Hw |].
    intros r Hr0. simpl in Hr0. rewrite Hr in Hr0. injection Hr0 as <-.
    pose proof (Hw userId rebel Hr) as Hfit. unfold fit in *. simpl. lia.
Qed.

Lemma formation_cost k fm :
  assoc k formations = Some fm -> 0 <= floorQ (Qmult (inject_Z 30) (energyCost fm)).
Proof.
  unfold formations, assoc.
  repeat match goal with
    | |- context [String.eqb ?a ?b] => destruct (String.eqb a b)
    end;
    intros H; try discriminate H; injection H as <-; vm_compute; discriminate.
Qed.

Lemma memberStrike_fit random f memberId acc :
  (forall fm, f = Some fm -> 0 <= floorQ (Qmult (inject_Z 30) (energyCost fm))) ->
  Steps staysFit (memberStrike random f memberId acc).
Proof.
  intros Hf w Hw. unfold memberStrike.
  erewrite bind_eval by reflexivity. cbv beta.
  destruct (rebels w !! memberId) as [mem |] eqn:Hm; [| exact Hw].
  erewrite bind_eval by reflexivity. cbv zeta.
  destruct f as [fm |]; [| exact Hw].
  erewrite bind_eval by reflexivity.
  erewrite bind_eval by reflexivity. simpl.
  apply (allFit_alter _ memberId (set_rng (S (rng w)) w)); [exact Hw |].
  intros r Hr. pose proof (Hw memberId r Hr) as Hfit. pose proof (Hf fm eq_refl).
  unfold fit in *. simpl. lia.
Qed.

Lemma strikeLoop_fit random f ms :
  (forall fm, f = Some fm -> 0 <= floorQ (Qmult (inject_Z 30) (energyCost fm))) ->
  forall acc, Steps staysFit (strikeLoop random f ms acc).
Proof.
  intros Hf. induction ms as [| m ms IH]; intros acc; simpl.
  - steps_core fit_side.
  - steps_core fit_side; [apply memberStrike_fit; exact Hf | apply IH].
Qed.

Lemma respondToAll_fit random now corpId ms share :
  Steps staysFit (respondToAll random now corpId ms share).
Proof.
  induction ms as [| m ms IH]; simpl.
  - steps_core fit_side.
  - steps_core fit_side; [apply processCorporateResponse_fit | apply IH].
Qed.

Lemma teamItems_keeps {B} (proj : World -> B) random now corp total len n :
  (forall k w, proj (set_rng k w) = proj w) ->
  forall acc, Steps (keeps proj) (teamItems random now corp total len n acc).
Proof.
  intros Hr. induction n as [| n IH]; intros acc; simpl.
  - steps.
  - steps_core ltac:(intros; apply Hr). apply IH.
Qed.

Lemma generateTeamLoot_fit random now party total :
  Steps staysFit (generateTeamLoot random now party total).
Proof.
  apply keeps_staysFit. unfold generateTeamLoot.
  steps. apply teamItems_keeps. intros; reflexivity.
Qed.

Lemma handleExecuteTeamRaid_fit random now partyId userId :
  Steps staysFit (handleExecuteTeamRaid random now partyId userId).
Proof.
  unfold handleExecuteTeamRaid, executeCoordinatedRaid, modCorp.
  steps_core fit_side.
  - apply strikeLoop_fit. intros fm. apply formation_cost.
  - apply generateTeamLoot_fit.
  - apply respondToAll_fit.
Qed.

Lemma allFit_fmap (f : Rebel -> Rebel) (w : World) :
  (forall r, fit r -> fit (f r)) -> allFit w -> allFit (set_rebels (fmap f) w).
Proof.
  intros Hf Hw u r. simpl. rewrite lookup_fmap.
  destruct (rebels w !! u) as [r0 |] eqn:E; simpl; [| discriminate].
  intros [= <-]. apply Hf. apply (Hw u r0 E).
Qed.

Lemma ability_cost_nonneg r k a :
  nth_error (getRebelAbilities r) k = Some a -> 0 <= abilityCost a.
Proof.
  unfold getRebelAbilities, classAbilities, assoc.
  repeat match goal with
    | |- context [String.eqb ?a ?b] => destruct (String.eqb a b)
    end;
    simpl; destruct k as [| [| k]]; simpl; intros H; try discriminate H;
    try (injection H as <-; simpl; lia).
  all: destruct k; discriminate H.
Qed.

Lemma handleUseAbility_fit now customId userId cds :
  Steps staysFit (handleUseAbility now customId userId cds).
Proof.
  intros w Hw. unfold handleUseAbility.
  set (abilityKey := if String.eqb customId "use_ability_1" then 0%nat else 1%nat).
  cbv zeta.
  erewrite bind_eval by reflexivity. cbv beta.
  destruct (rebels w !! userId) as [r |] eqn:Hr; [| exact Hw].
  destruct (nth_error (getRebelAbilities r) abilityKey) as [ability |] eqn:Hab; [| exact Hw].
  pose proof (ability_cost_nonneg r abilityKey ability Hab) as Hcost.
  assert (Huse : allFit (snd (
    (if energy r <? abilityCost ability
     then ret (AbilityNotEnoughEnergy (abilityCost ability) (energy r), cds)
     else
       modRebel userId (fun r0 => set_energy (energy r0 - abilityCost ability) r0) ;;;
       executeAbilityEffects userId ability ;;;
       ret (AbilityActivated (abilityName ability) (abilityCost ability),
            <[ cooldownKey userId abilityKey := LastUsed now ]> cds)) w))).
  { destruct (energy r <? abilityCost ability) eqn:Ecost; [exact Hw |].
    apply Z.ltb_ge in Ecost.
    erewrite bind_eval by reflexivity.
    match goal with
    | |- allFit (snd (?m ?w2)) => assert (Hm : Steps staysFit m); [| apply (Hm w2)]
    end.
    - unfold executeAbilityEffects, modRebel. steps_core fit_side.
    - apply allFit_alter; [exact Hw |]. intros r0 Hr0. rewrite Hr in Hr0.
      injection Hr0 as <-. pose proof (Hw userId r Hr). unfold fit in *. simpl. lia. }
  destruct (cds !! cooldownKey userId abilityKey) as [[ends | lastUsed] |]; try exact Huse.
  destruct (negb (lastUsed =? 0) && (now - lastUsed <? 300000)); [exact Hw | exact Huse].
Qed.

Lemma handleTrainAbilities_fit userId : Steps staysFit (handleTrainAbilities userId).
Proof. unfold handleTrainAbilities, modInventory, modRebel. steps_core fit_side. Qed.

(** X5: rebels stay fit.  When every rebel has an energy between 0 and
    their maximum, a maximum of at least 100 and a level of at least 1,
    this is still so after a button raid, a team raid, the use of an
    ability, a training, a run of the energy regeneration, a daily reset
    and the enlisting of a rebel, each run without interruption and
    whatever its reply: none of them overdraws or overfills the energy. *)
Theorem rebels_stay_fit (random : nat -> Q) (now : Z) (w : World) :
  allFit w ->
  (forall corpId userId, allFit (execM (handleRaidAction random now corpId userId) w))
  /\ (forall partyId userId,
        allFit (execM (handleExecuteTeamRaid random now partyId userId) w))
  /\ (forall customId userId cds,
        allFit (execM (handleUseAbility now customId userId cds) w))
  /\ (forall userId, allFit (execM (handleTrainAbilities userId) w))
  /\ allFit (energyRegeneration w)
  /\ (forall hours minutes, allFit (dailyReset hours minutes w))
  /\ (forall userId rebelClass, allFit (execM (createRebel now userId rebelClass) w)).
Proof.
  intros Hw. split; [| split; [| split; [| split; [| split; [| split]]]]].
  - intros corpId userId. apply (handleRaidAction_fit random now corpId userId w Hw).
  - intros partyId userId. apply (handleExecuteTeamRaid_fit random now partyId userId w Hw).
  - intros customId userId cds. apply (handleUseAbility_fit now customId userId cds w Hw).
  - intros userId. apply (handleTrainAbilities_fit userId w Hw).
  - apply allFit_fmap; [| exact Hw]. intros r Hr. unfold regenerateEnergy.
    destruct (energy r <? maxEnergy r) eqn:E; [| exact Hr].
    apply Z.ltb_lt in E. unfold fit in *. simpl. lia.
  - intros hours minutes. unfold dailyReset.
    destruct ((hours =? 0) && (minutes =? 0)); [| exact Hw].
    apply allFit_fmap; [| exact Hw]. intros r Hr. unfold fit in *. simpl. lia.
  - intros userId rebelClass. unfold execM.
    assert (Hm : Steps staysFit
                   (awardAchievement userId "first_rebel" ;;; ret tt)).
    { steps_core fit_side. apply awardAchievement_fit. }
    unfold createRebel.
    erewrite bind_eval by reflexivity.
    erewrite bind_eval by reflexivity.
    erewrite bind_eval by reflexivity.
    apply Hm. intros u r. simpl. destruct (decide (userId = u)) as [<- | Hne].
    + rewrite lookup_insert_eq. intros [= <-]. unfold fit, newRebel. simpl. lia.
    + rewrite lookup_insert_ne by assumption. apply Hw.
Qed.

(** a new rebel is fit *)
Lemma new_rebel_fit : allFit (worldOf ["u1"] "Model Trainer" openai).
Proof.
  intros u r. destruct (decide (u = "u1")) as [-> | Hne].
  - vm_compute. intros [= <-]. repeat split; discriminate.
  - unfold worldOf. simpl. rewrite lookup_insert_ne by congruence.
    rewrite lookup_empty. discriminate.
Qed.

(** a new rebel after a raid on OpenAI Corp *)
Lemma rebels_stay_fit_new_rebel :
  allFit (execM (handleRaidAction (fun _ => Qmake 1 2) 5000 "openai" "u1")
                (worldOf ["u1"] "Model Trainer" openai)).
Proof.
  destruct (rebels_stay_fit (fun _ => Qmake 1 2) 5000 (worldOf ["u1"] "Model Trainer" openai)
              new_rebel_fit) as (Hraid & _).
  exact (Hraid "openai" "u1").
Defined.

(** *** The slash command [/raid] *)

Lemma slashCheck_passes corpId userId w r c :
  rebels w !! userId = Some r ->
  corporations w !! corpId = Some c ->
  25 <= energy r ->
  slashCheck corpId userId w = (Ok true, w).
Proof.
  intros Hr Hc He. unfold slashCheck, bind, gets, ret. simpl. rewrite Hr.
  apply Z.ltb_ge in He. rewrite He, Hc. reflexivity.
Qed.

Lemma slashStrike_energy random now corpId userId w r :
  rebels w !! userId = Some r ->
  exists d isDefeated w1,
    slashStrike random now corpId userId w = (Ok (d, isDefeated), w1)
    /\ (energy <$> rebels w1 !! userId) = Some (energy r - 25)
    /\ (forall c, corporations w !! corpId = Some c -> is_Some (corporations w1 !! corpId)).
Proof.
  intros Hr. unfold slashStrike.
  erewrite bind_eval by reflexivity.
  erewrite bind_eval by (rewrite Hr; reflexivity). cbv zeta.
  erewrite bind_eval by reflexivity.
  erewrite bind_eval by reflexivity.
  erewrite bind_eval by reflexivity.
  erewrite bind_eval by reflexivity.
  eexists _, _, _. split; [reflexivity |]. simpl. split.
  - rewrite lookup_alter_eq, Hr. reflexivity.
  - intros c Hc. rewrite lookup_alter_eq, Hc. simpl. eauto.
Qed.

(** X6: two [/raid] commands of one rebel overdraw the energy.  The
    command checks the energy, waits for the briefing and only then
    takes 25 energy; for a rebel with at least 25 and less than 50
    energy, two commands that both pass the check before either
    strikes both succeed, and the rebel is left with negative energy. *)
Theorem slash_raids_overdraw_energy (random : nat -> Q) (corpId userId : string)
    (now1 now2 : Z) (w : World) (r : Rebel) (c : Corporation) :
  rebels w !! userId = Some r ->
  corporations w !! corpId = Some c ->
  25 <= energy r < 50 ->
  exists tasks w' d1 b1 d2 b2,
    runSchedule random corpId [0%nat; 1%nat; 0%nat; 1%nat]
                (map Waiting [SlashRaid now1 userId; SlashRaid now2 userId]) (w, [])
    = Some (tasks, (w', [Some (d1, b1); Some (d2, b2)]))
    /\ (energy <$> rebels w' !! userId) = Some (energy r - 50)
    /\ energy r - 50 < 0.
Proof.
  intros Hr Hc He.
  destruct (slashStrike_energy random now1 corpId userId w r Hr)
    as (d1 & b1 & w1 & Hs1 & He1 & Hc1).
  destruct (rebels w1 !! userId) as [r1 |] eqn:Hr1; [| discriminate He1].
  injection He1 as He1.
  destruct (slashStrike_energy random now2 corpId userId w1 r1 Hr1)
    as (d2 & b2 & w2 & Hs2 & He2 & _).
  exists [Narrating (Some (userId, d1, b1)); Narrating (Some (userId, d2, b2))], w2,
    d1, b1, d2, b2.
  split; [| split; [rewrite He2, He1; f_equal; lia | lia]].
  cbn [runSchedule map lookup list_lookup runTask fst snd].
  rewrite (slashCheck_passes corpId userId w r c Hr Hc) by lia.
  cbn [runSchedule map lookup list_lookup runTask fst snd insert list_insert].
  rewrite (slashCheck_passes corpId userId w r c Hr Hc) by lia.
  cbn [runSchedule map lookup list_lookup runTask fst snd insert list_insert].
  rewrite Hs1.
  cbn [runSchedule map lookup list_lookup runTask fst snd insert list_insert app].
  rewrite Hs2.
  cbn [runSchedule map lookup list_lookup runTask fst snd insert list_insert app].
  reflexivity.
Qed.

(** a rebel with 30 energy ends with -20 *)
Lemma slash_raids_overdraw_energy_at_30 :
  exists tasks w' d1 b1 d2 b2,
    runSchedule (fun _ => Qmake 1 2) "openai" [0%nat; 1%nat; 0%nat; 1%nat]
                (map Waiting [SlashRaid 5000 "u1"; SlashRaid 5001 "u1"]) (tiredWorld, [])
    = Some (tasks, (w', [Some (d1, b1); Some (d2, b2)]))
    /\ (energy <$> rebels w' !! "u1") = Some (-20).
Proof.
  destruct (slash_raids_overdraw_energy (fun _ => Qmake 1 2) "openai" "u1" 5000 5001
              tiredWorld (set_energy 30 (newRebel "Model Trainer" 0)) openai
              eq_refl eq_refl ltac:(simpl; lia))
    as (tasks & w' & d1 & b1 & d2 & b2 & Hrun & Henergy & _).
  exists tasks, w', d1, b1, d2, b2. split; [exact Hrun | exact Henergy].
Defined.

(** *** The buttons of a raid party *)

Lemma existsb_eqb_elem (u : string) (l : list string) :
  existsb (String.eqb u) l = true <-> u ∈ l.
Proof.
  rewrite existsb_exists. split.
  - intros (x & Hin & Heq). apply String.eqb_eq in Heq. subst.
    apply list_elem_of_In. exact Hin.
  - intros Hin. exists u. split; [apply list_elem_of_In; exact Hin | apply String.eqb_refl].
Qed.

Lemma alter_party_insert (f : RaidParty -> RaidParty) k (m : gmap string RaidParty) p :
  m !! k = Some p -> alter f k m = <[ k := f p ]> m.
Proof.
  intros H. apply map_eq. intros i. destruct (decide (k = i)) as [<- | Hne].
  - rewrite lookup_alter_eq, lookup_insert_eq, H. reflexivity.
  - rewrite lookup_alter_ne, lookup_insert_ne by assumption. reflexivity.
Qed.

Lemma partiesInOrder_insert (w : World) k p :
  partiesInOrder w -> inOrder p ->
  forall i q, <[ k := p ]> (raidParties w) !! i = Some q -> inOrder q.
Proof.
  intros Hw Hp i q. destruct (decide (k = i)) as [<- | Hne].
  - rewrite lookup_insert_eq. intros [= <-]. exact Hp.
  - rewrite lookup_insert_ne by assumption. apply Hw.
Qed.

Lemma elem_of_filter_ne (u x : string) (l : list string) :
  x ∈ List.filter (fun id => negb (String.eqb id u)) l <-> x ∈ l /\ x <> u.
Proof.
  rewrite !list_elem_of_In, filter_In, negb_true_iff, String.eqb_neq. reflexivity.
Qed.

Lemma NoDup_filter_ne (u : string) (l : list string) :
  NoDup l -> NoDup (List.filter (fun id => negb (String.eqb id u)) l).
Proof.
  intros H. apply NoDup_ListNoDup. apply List.NoDup_filter. apply NoDup_ListNoDup. exact H.
Qed.

Lemma handleReadyForRaid_spec (partyId userId : string) (w : World) (p : RaidParty) :
  raidParties w !! partyId = Some p ->
  handleReadyForRaid partyId userId w
  = if negb (existsb (String.eqb userId) (members p)) then (Ok ReadyNotAMember, w)
    else if bool_decide (userId ∈ readyMembers p) then
      (Ok NoLongerReady,
       set_raidParties
         (fun _ => <[ partyId := set_readyMembers (readyMembers p ∖ {[ userId ]}) p ]>
                     (raidParties w)) w)
    else
      (Ok (NowReady (size (readyMembers p ∪ {[ userId ]})) (length (members p))),
       set_raidParties
         (fun _ => <[ partyId := set_readyMembers (readyMembers p ∪ {[ userId ]}) p ]>
                     (raidParties w)) w).
Proof.
  intros Hp. unfold handleReadyForRaid, bind, gets, modParty, modify, ret. simpl.
  rewrite Hp. destruct (existsb (String.eqb userId) (members p)); simpl; [| reflexivity].
  destruct (bool_decide (userId ∈ readyMembers p)); simpl;
    unfold set_raidParties; simpl; rewrite (alter_party_insert _ _ _ _ Hp); reflexivity.
Qed.

Lemma handleLeavePartyButton_spec (partyId userId : string) (w : World) (p : RaidParty) :
  raidParties w !! partyId = Some p ->
  let remaining := List.filter (fun id => negb (String.eqb id userId)) (members p) in
  let p1 := set_readyMembers (readyMembers p ∖ {[ userId ]}) (set_members remaining p) in
  handleLeavePartyButton partyId userId w
  = if String.eqb (leader p) userId then
      match remaining with
      | first :: _ =>
          (Ok (LeadershipTransferred first),
           set_raidParties (fun _ => <[ partyId := set_leader first p1 ]> (raidParties w)) w)
      | [] =>
          (Ok PartyDisbanded, set_raidParties (fun _ => delete partyId (raidParties w)) w)
      end
    else (Ok LeftParty, set_raidParties (fun _ => <[ partyId := p1 ]> (raidParties w)) w).
Proof.
  intros Hp remaining p1.
  unfold handleLeavePartyButton, bind, gets, modParty, modify, ret. simpl.
  rewrite Hp. simpl. fold remaining.
  assert (Halter : alter (fun p0 => set_readyMembers (readyMembers p0 ∖ {[ userId ]}) p0)
                     partyId (alter (set_members remaining) partyId (raidParties w))
                   = <[ partyId := p1 ]> (raidParties w)).
  { apply map_eq. intros i. destruct (decide (partyId = i)) as [<- | Hne].
    - rewrite !lookup_alter_eq, lookup_insert_eq, Hp. reflexivity.
    - rewrite !lookup_alter_ne, lookup_insert_ne by assumption. reflexivity. }
  destruct (String.eqb (leader p) userId).
  - destruct remaining as [| first rest]; simpl; unfold set_raidParties; simpl; rewrite Halter.
    + rewrite delete_insert_eq. reflexivity.
    + rewrite alter_insert_eq. reflexivity.
  - simpl. unfold set_raidParties. simpl. rewrite Halter. reflexivity.
Qed.

(** X7: the party buttons keep the parties in order, and what they do.
    When in every party no member is listed twice, only members are
    ready and the leader is a member, this is still so after
    [handleReadyForRaid] and after [handleLeavePartyButton], whoever
    presses the button.  The ready button leaves members and leader as
    they are and toggles the readiness of the user, of a member only,
    and of nobody else.  After the leave button the user is neither a
    member nor ready, while every other member and every other ready
    member stays; a leader who leaves hands the party to the first
    member left or, as the last member, deletes the party, and when
    someone else leaves the leader stays.  Neither button touches
    another party, and for a party that does not exist both change
    nothing. *)
Theorem party_buttons_keep_order (partyId userId : string) (w : World) :
  partiesInOrder w ->
  let ready := handleReadyForRaid partyId userId w in
  let left := handleLeavePartyButton partyId userId w in
  partiesInOrder (snd ready)
  /\ partiesInOrder (snd left)
  /\ (forall p, raidParties w !! partyId = Some p ->
        exists p',
          raidParties (snd ready) !! partyId = Some p'
          /\ members p' = members p
          /\ leader p' = leader p
          /\ (forall u, u <> userId -> (u ∈ readyMembers p' <-> u ∈ readyMembers p))
          /\ (userId ∈ members p ->
              (userId ∈ readyMembers p' <-> ~ userId ∈ readyMembers p))
          /\ (~ userId ∈ members p -> snd ready = w /\ fst ready = Ok ReadyNotAMember))
  /\ (forall p, raidParties w !! partyId = Some p ->
        let remaining := List.filter (fun id => negb (String.eqb id userId)) (members p) in
        (forall p', raidParties (snd left) !! partyId = Some p' ->
           members p' = remaining
           /\ ~ userId ∈ members p'
           /\ ~ userId ∈ readyMembers p'
           /\ (forall u, u <> userId -> (u ∈ members p' <-> u ∈ members p))
           /\ (forall u, u <> userId -> (u ∈ readyMembers p' <-> u ∈ readyMembers p)))
        /\ (leader p <> userId ->
            fst left = Ok LeftParty
            /\ (leader <$> raidParties (snd left) !! partyId) = Some (leader p))
        /\ (leader p = userId ->
            forall first rest, remaining = first :: rest ->
              fst left = Ok (LeadershipTransferred first)
              /\ (leader <$> raidParties (snd left) !! partyId) = Some first)
        /\ (leader p = userId -> remaining = [] ->
            fst left = Ok PartyDisbanded /\ raidParties (snd left) !! partyId = None)
        /\ (leader p = userId -> (remaining = [] <-> forall u, u ∈ members p -> u = userId)))
  /\ (forall k, k <> partyId ->
        raidParties (snd ready) !! k = raidParties w !! k
        /\ raidParties (snd left) !! k = raidParties w !! k)
  /\ (raidParties w !! partyId = None ->
      ready = (Ok ReadyPartyNotFound, w) /\ left = (Ok LeavePartyNotFound, w)).
Proof.
  intros Hw ready left.
  destruct (raidParties w !! partyId) as [p |] eqn:Hp.
  2: { assert (Hr : ready = (Ok ReadyPartyNotFound, w)).
       { subst ready. unfold handleReadyForRaid, bind, gets. simpl. rewrite Hp. reflexivity. }
       assert (Hl : left = (Ok LeavePartyNotFound, w)).
       { subst left. unfold handleLeavePartyButton, bind, gets. simpl. rewrite Hp.
         reflexivity. }
       rewrite Hr, Hl. simpl.
       split; [exact Hw |]. split; [exact Hw |].
       split; [intros p0 H0; discriminate H0 |].
       split; [intros p0 H0; discriminate H0 |].
       split; [intros k _; split; reflexivity |].
       intros _. split; reflexivity. }
  destruct (Hw partyId p Hp) as (Hnd & Hsub & Hlead).
  pose proof (handleReadyForRaid_spec partyId userId w p Hp) as Hr. fold ready in Hr.
  pose proof (handleLeavePartyButton_spec partyId userId w p Hp) as Hl.
  cbv zeta in Hl. fold left in Hl.
  set (remaining := List.filter (fun id => negb (String.eqb id userId)) (members p)) in *.
  assert (Hrem : forall u, u ∈ readyMembers p ∖ {[ userId ]} -> u ∈ remaining).
  { intros u Hu. apply elem_of_difference in Hu. destruct Hu as [Hu Hne].
    apply elem_of_filter_ne. split; [apply Hsub; exact Hu |].
    intros ->. apply Hne. apply elem_of_singleton. reflexivity. }
  assert (Hnot : userId ∉ remaining).
  { intros H. apply elem_of_filter_ne in H. destruct H as [_ H]. apply H. reflexivity. }
  assert (Hready1 : forall u, u <> userId ->
            (u ∈ readyMembers p ∖ {[ userId ]} <-> u ∈ readyMembers p)).
  { intros u Hu. rewrite elem_of_difference, elem_of_singleton. tauto. }
  assert (Hready2 : forall u, u <> userId ->
            (u ∈ readyMembers p ∪ {[ userId ]} <-> u ∈ readyMembers p)).
  { intros u Hu. rewrite elem_of_union, elem_of_singleton. tauto. }
  assert (Hout : userId ∉ readyMembers p ∖ {[ userId ]}).
  { intros H. apply elem_of_difference in H. destruct H as [_ H].
    apply H. apply elem_of_singleton. reflexivity. }
  split; [| split; [| split; [| split; [| split]]]].
  - (* the ready button keeps the order *)
    rewrite Hr. destruct (existsb (String.eqb userId) (members p)) eqn:Emem; simpl;
      [| exact Hw].
    apply existsb_eqb_elem in Emem.
    destruct (bool_decide (userId ∈ readyMembers p)); simpl;
      intros i q; apply partiesInOrder_insert; try exact Hw;
      (split; [exact Hnd | split; [| exact Hlead]]); simpl; intros u Hu.
    + apply Hsub. apply elem_of_difference in Hu. apply Hu.
    + apply elem_of_union in Hu. destruct Hu as [Hu | Hu]; [apply Hsub; exact Hu |].
      apply elem_of_singleton in Hu. subst. exact Emem.
  - (* the leave button keeps the order *)
    rewrite Hl. destruct (String.eqb (leader p) userId) eqn:Elead.
    + destruct remaining as [| first rest] eqn:Erem; simpl.
      * intros i q Hq. simpl in Hq. apply lookup_delete_Some in Hq. destruct Hq as [_ Hq].
        apply (Hw i q Hq).
      * intros i q. apply partiesInOrder_insert; [exact Hw |].
        split; [| split]; simpl.
        -- rewrite <- Erem. apply NoDup_filter_ne. exact Hnd.
        -- exact Hrem.
        -- apply list_elem_of_here.
    + simpl. intros i q. apply partiesInOrder_insert; [exact Hw |].
      split; [| split]; simpl.
      * apply NoDup_filter_ne. exact Hnd.
      * exact Hrem.
      * apply elem_of_filter_ne. split; [exact Hlead |].
        apply String.eqb_neq. exact Elead.
  - (* what the ready button does *)
    intros p0 [= <-]. rewrite Hr.
    destruct (existsb (String.eqb userId) (members p)) eqn:Emem; simpl.
    + apply existsb_eqb_elem in Emem.
      destruct (bool_decide (userId ∈ readyMembers p)) eqn:Eready; simpl;
        rewrite lookup_insert_eq; eexists; (split; [reflexivity |]); simpl;
        (split; [reflexivity |]); (split; [reflexivity |]).
      * apply bool_decide_eq_true in Eready.
        split; [exact Hready1 |]. split; [| intros H; contradiction].
        intros _. split; [intros H; contradiction | intros H; contradiction].
      * apply bool_decide_eq_false in Eready.
        split; [exact Hready2 |]. split; [| intros H; contradiction].
        intros _. split; [intros _; exact Eready |].
        intros _. apply elem_of_union_r, elem_of_singleton. reflexivity.
    + exists p. split; [exact Hp |]. split; [reflexivity |]. split; [reflexivity |].
      split; [intros; reflexivity |]. split.
      * intros H. apply existsb_eqb_elem in H. congruence.
      * intros _. split; reflexivity.
  - (* what the leave button does *)
    intros p0 [= <-]. cbv zeta. fold remaining. rewrite Hl.
    split; [| split; [| split; [| split]]].
    + intros p'.
      assert (Hp1 : forall l,
                members (set_readyMembers (readyMembers p ∖ {[ userId ]})
                           (set_members remaining p)) = remaining
                /\ members (set_leader l (set_readyMembers (readyMembers p ∖ {[ userId ]})
                                            (set_members remaining p))) = remaining).
      { intros l. split; reflexivity. }
      assert (Hall : forall q,
                members q = remaining -> readyMembers q = readyMembers p ∖ {[ userId ]} ->
                members q = remaining
                /\ ~ userId ∈ members q
                /\ ~ userId ∈ readyMembers q
                /\ (forall u, u <> userId -> (u ∈ members q <-> u ∈ members p))
                /\ (forall u, u <> userId -> (u ∈ readyMembers q <-> u ∈ readyMembers p))).
      { intros q Hm Hrd. rewrite Hm, Hrd.
        split; [reflexivity |]. split; [exact Hnot |]. split; [exact Hout |].
        split; [| exact Hready1].
        intros u Hu. unfold remaining. rewrite elem_of_filter_ne. tauto. }
      destruct (String.eqb (leader p) userId).
      * destruct remaining as [| first rest] eqn:Erem; simpl.
        -- rewrite lookup_delete_eq. discriminate.
        -- rewrite lookup_insert_eq. intros [= <-]. apply Hall; reflexivity.
      * simpl. rewrite lookup_insert_eq. intros [= <-]. apply Hall; reflexivity.
    + intros Hne. apply String.eqb_neq in Hne. rewrite Hne. simpl.
      rewrite lookup_insert_eq. split; reflexivity.
    + intros He first rest Erem. apply String.eqb_eq in He. rewrite He, Erem. simpl.
      rewrite lookup_insert_eq. split; reflexivity.
    + intros He Erem. apply String.eqb_eq in He. rewrite He, Erem. simpl.
      rewrite lookup_delete_eq. split; reflexivity.
    + intros _. unfold remaining. split.
      * intros Hnil u Hu. destruct (decide (u = userId)) as [-> | Hne]; [reflexivity |].
        exfalso. assert (Hin : u ∈ List.filter (fun id => negb (String.eqb id userId))
                                       (members p)).
        { apply elem_of_filter_ne. split; assumption. }
        rewrite Hnil in Hin. apply elem_of_nil in Hin. exact Hin.
      * intros Hall.
        destruct (List.filter (fun id => negb (String.eqb id userId)) (members p))
          as [| x l] eqn:E; [reflexivity |].
        exfalso. assert (Hx : x ∈ List.filter (fun id => negb (String.eqb id userId))
                                      (members p)).
        { rewrite E. apply list_elem_of_here. }
        apply elem_of_filter_ne in Hx. destruct Hx as [Hx Hne]. apply Hne, Hall, Hx.
  - (* the other parties *)
    intros k Hk. rewrite Hr, Hl. split.
    + destruct (negb (existsb (String.eqb userId) (members p))); [reflexivity |].
      destruct (bool_decide (userId ∈ readyMembers p)); simpl;
        apply lookup_insert_ne; congruence.
    + destruct (String.eqb (leader p) userId).
      * destruct remaining; simpl;
          [apply lookup_delete_ne; congruence | apply lookup_insert_ne; congruence].
      * simpl. apply lookup_insert_ne. congruence.
  - intros H. discriminate H.
Qed.

Lemma trioWorld_inOrder : partiesInOrder trioWorld.
Proof.
  intros i q H.
  change (({[ "p1" := trioParty ]} : gmap string RaidParty) !! i = Some q) in H.
  apply lookup_singleton_Some in H as [_ <-].
  split; [| split].
  - apply NoDup_ListNoDup. repeat constructor; simpl; intuition discriminate.
  - intros u Hu. apply elem_of_union in Hu as [Hu | Hu];
      apply elem_of_singleton in Hu; subst u; apply list_elem_of_In; simpl; tauto.
  - apply list_elem_of_In. simpl. tauto.
Qed.

(** the leader of a party of three leaves: the second member leads,
    and the party is in order *)
Lemma party_buttons_keep_order_trio :
  partiesInOrder (snd (handleLeavePartyButton "p1" "u1" trioWorld))
  /\ fst (handleLeavePartyButton "p1" "u1" trioWorld) = Ok (LeadershipTransferred "u2")
  /\ (leader <$> raidParties (snd (handleLeavePartyButton "p1" "u1" trioWorld)) !! "p1")
     = Some "u2".
Proof.
  destruct (party_buttons_keep_order "p1" "u1" trioWorld trioWorld_inOrder)
    as (_ & Horder & _ & Hleave & _).
  split; [exact Horder |].
  destruct (Hleave trioParty eq_refl) as (_ & _ & Hleader & _).
  exact (Hleader eq_refl "u2" ["u3"] eq_refl).
Defined.

Lemma set_readyMembers_same p : set_readyMembers (readyMembers p) p = p.
Proof. destruct p. reflexivity. Qed.

Lemma set_raidParties_same w : set_raidParties (fun _ => raidParties w) w = w.
Proof. destruct w. reflexivity. Qed.

(** X8: the ready button is a toggle.  Pressing [handleReadyForRaid]
    twice for the same party and user gives back the state before the
    first press, whether the party exists or not and whether the user is
    a member or not. *)
Theorem handleReadyForRaid_twice (partyId userId : string) (w : World) :
  execM (handleReadyForRaid partyId userId)
        (execM (handleReadyForRaid partyId userId) w) = w.
Proof.
  assert (Hworld : forall (f g : RaidParty -> RaidParty) p,
            raidParties w !! partyId = Some p -> g (f p) = p ->
            set_raidParties (alter g partyId) (set_raidParties (alter f partyId) w) = w).
  { intros f g p Hp Hgf.
    transitivity (set_raidParties (fun _ => raidParties w) w);
      [| apply set_raidParties_same].
    unfold set_raidParties. simpl. f_equal.
    apply map_eq. intros i. destruct (decide (partyId = i)) as [<- | Hne].
    - rewrite !lookup_alter_eq, Hp. simpl. f_equal. exact Hgf.
    - rewrite !lookup_alter_ne by assumption. reflexivity. }
  unfold execM, handleReadyForRaid, bind, gets, modParty, modify, ret. simpl.
  destruct (raidParties w !! partyId) as [p |] eqn:Hp; simpl; [| rewrite Hp; reflexivity].
  destruct (existsb (String.eqb userId) (members p)) eqn:Emem; simpl.
  2: { rewrite Hp. simpl. rewrite Emem. reflexivity. }
  destruct (bool_decide (userId ∈ readyMembers p)) eqn:Eready; simpl;
    rewrite lookup_alter_eq, Hp; simpl; rewrite Emem; simpl.
  - apply bool_decide_eq_true in Eready.
    rewrite bool_decide_eq_false_2.
    2: { intros Hx. apply elem_of_difference in Hx. destruct Hx as [_ Hx].
         apply Hx, elem_of_singleton. reflexivity. }
    simpl. apply (Hworld _ _ p eq_refl).
    transitivity (set_readyMembers (readyMembers p) p); [| apply set_readyMembers_same].
    unfold set_readyMembers. simpl. f_equal.
    apply set_eq. intros x.
    rewrite elem_of_union, elem_of_difference, elem_of_singleton.
    destruct (decide (x = userId)) as [-> |]; tauto.
  - apply bool_decide_eq_false in Eready.
    rewrite bool_decide_eq_true_2 by (apply elem_of_union_r, elem_of_singleton; reflexivity).
    simpl. apply (Hworld _ _ p eq_refl).
    transitivity (set_readyMembers (readyMembers p) p); [| apply set_readyMembers_same].
    unfold set_readyMembers. simpl. f_equal.
    apply set_eq. intros x.
    rewrite elem_of_difference, elem_of_union, elem_of_singleton.
    destruct (decide (x = userId)) as [-> |]; tauto.
Qed.

(** X9: a team raid that was carried out had every member ready.  For a
    party in order, when [handleExecuteTeamRaid] runs the coordinated
    raid, the request came from the leader and the ready members are
    exactly the members: comparing the sizes only, as the code does, is
    then enough. *)
Theorem executed_raid_had_all_ready (random : nat -> Q) (now : Z) (partyId userId : string)
    (w : World) (p : RaidParty) (total : Z) :
  raidParties w !! partyId = Some p ->
  inOrder p ->
  evalM (handleExecuteTeamRaid random now partyId userId) w = Ok (CoordinatedRaidDone total) ->
  leader p = userId
  /\ (forall u, u ∈ members p <-> u ∈ readyMembers p).
Proof.
  intros Hp (Hnd & Hsub & _) H.
  unfold evalM, handleExecuteTeamRaid, bind, gets in H. simpl in H. rewrite Hp in H.
  destruct (String.eqb (leader p) userId) eqn:Elead; simpl in H; [| discriminate H].
  apply String.eqb_eq in Elead.
  destruct (size (readyMembers p) <? length (members p))%nat eqn:Esize;
    simpl in H; [discriminate H |].
  apply Nat.ltb_ge in Esize. split; [exact Elead |].
  assert (Hsubset : readyMembers p ⊆ list_to_set (members p)).
  { intros u Hu. apply elem_of_list_to_set. apply Hsub. exact Hu. }
  assert (Hsize : size (list_to_set (members p) : gset string) = length (members p)).
  { apply size_list_to_set. exact Hnd. }
  assert (Heq : readyMembers p = list_to_set (members p)).
  { apply set_eq. apply set_subseteq_size_equiv; [exact Hsubset | lia]. }
  intros u. rewrite Heq, elem_of_list_to_set. reflexivity.
Qed.

(** the leader of a party of one, ready, executes the raid *)
Lemma executed_raid_had_all_ready_solo :
  leader soloParty = "u1" /\ (forall u, u ∈ members soloParty <-> u ∈ readyMembers soloParty).
Proof.
  apply (executed_raid_had_all_ready (fun _ => inject_Z 0) 5000 "p1" "u1" soloWorld
           soloParty 130).
  - reflexivity.
  - split; [| split].
    + apply NoDup_ListNoDup. repeat constructor; simpl; intuition.
    + intros u Hu. change (u ∈ ({[ "u1" ]} : gset string)) in Hu.
      apply elem_of_singleton in Hu. subst u.
      apply list_elem_of_In. simpl. tauto.
    + apply list_elem_of_In. simpl. tauto.
  - vm_compute. reflexivity.
Defined.

(** *** Cooldowns and abilities *)

Lemma ceilDiv_pos (n d : Z) : 0 < d -> (0 < ceilDiv n d <-> 0 < n).
Proof.
  intros Hd. unfold ceilDiv. split; intros H.
  - destruct (Z_lt_le_dec 0 n) as [Hn | Hn]; [exact Hn |].
    assert (0 <= - n / d) by (apply Z.div_pos; lia). lia.
  - assert (- n / d < 0) by (apply Z.div_lt_upper_bound; lia). lia.
Qed.

Lemma ceilDiv_bounds (n d : Z) : 0 < d -> n <= ceilDiv n d * d < n + d.
Proof.
  intros Hd. unfold ceilDiv.
  pose proof (Z.div_mod (- n) d ltac:(lia)) as Hdm.
  pose proof (Z.mod_pos_bound (- n) d Hd) as Hm.
  nia.
Qed.

(** X10: the two views of a cooldown agree.  For any content of the
    cooldown map, [isOnCooldown] and [getCooldownRemaining] either both
    fail (the entry of the user is a number) or both answer, and then
    the remaining seconds are not negative, the user is on cooldown
    exactly when seconds remain, is no longer on cooldown once the
    reported seconds have passed, and still is a second before that. *)
Theorem cooldown_views_agree (now : Z) (userId action : string)
    (cds : gmap string CooldownEntry) :
  match isOnCooldown now userId action cds, getCooldownRemaining now userId action cds with
  | Ok onCooldown, Ok seconds =>
      0 <= seconds
      /\ (onCooldown = true <-> 0 < seconds)
      /\ isOnCooldown (now + seconds * 1000) userId action cds = Ok false
      /\ (0 < seconds ->
          isOnCooldown (now + (seconds - 1) * 1000) userId action cds = Ok true)
  | Throw, Throw => True
  | _, _ => False
  end.
Proof.
  unfold isOnCooldown, getCooldownRemaining.
  destruct (userCooldowns userId cds) as [[ends |] |]; [| | exact I].
  2: { split; [lia | split; [split; [discriminate | lia] | split; [reflexivity | lia]]]. }
  destruct (ends !! action) as [cooldownEnd |].
  2: { split; [lia | split; [split; [discriminate | lia] | split; [reflexivity | lia]]]. }
  destruct (cooldownEnd =? 0) eqn:E0.
  { split; [lia | split; [split; [discriminate | lia] | split; [reflexivity | lia]]]. }
  cbv zeta.
  pose proof (ceilDiv_pos (cooldownEnd - now) 1000 ltac:(lia)) as Hpos.
  pose proof (ceilDiv_bounds (cooldownEnd - now) 1000 ltac:(lia)) as Hb.
  set (c := ceilDiv (cooldownEnd - now) 1000) in *.
  split; [lia |]. split; [| split].
  - rewrite Z.ltb_lt. lia.
  - f_equal. apply Z.ltb_ge. lia.
  - intros Hs. f_equal. apply Z.ltb_lt. lia.
Qed.

(** X11: a cooldown that was set runs for its duration.  After
    [setCooldown] the user is on cooldown for the action at any time
    before the end, set to the duration in seconds after the call, and
    not afterwards, with the remaining time rounded up to the second;
    the cooldowns of other users and of other actions read as before. *)
Theorem setCooldown_window (now : Z) (userId action : string) (duration : Z)
    (cds cds' : gmap string CooldownEntry) :
  setCooldown now userId action duration cds = Ok cds' ->
  now + duration * 1000 <> 0 ->
  (forall t,
     isOnCooldown t userId action cds' = Ok (t <? now + duration * 1000)
     /\ getCooldownRemaining t userId action cds'
        = Ok (Z.max 0 (ceilDiv (now + duration * 1000 - t) 1000)))
  /\ (forall t u a, (u, a) <> (userId, action) ->
        isOnCooldown t u a cds' = isOnCooldown t u a cds
        /\ getCooldownRemaining t u a cds' = getCooldownRemaining t u a cds).
Proof.
  intros Hset Hend. unfold setCooldown in Hset.
  destruct (userCooldowns userId cds) as [ends |] eqn:Hu; [| discriminate Hset].
  injection Hset as <-.
  assert (Hnew : userCooldowns userId
                   (<[ userId := UserCooldowns
                                   (<[ action := now + duration * 1000 ]> (orDefault ends ∅)) ]>
                      cds)
                 = Ok (Some (<[ action := now + duration * 1000 ]> (orDefault ends ∅)))).
  { unfold userCooldowns. rewrite lookup_insert_eq. reflexivity. }
  split.
  - intros t. unfold isOnCooldown, getCooldownRemaining. rewrite Hnew, lookup_insert_eq.
    apply Z.eqb_neq in Hend. rewrite Hend. split; reflexivity.
  - intros t u a Hne. unfold isOnCooldown, getCooldownRemaining.
    destruct (decide (u = userId)) as [-> | Hu'].
    + rewrite Hnew, Hu. assert (Ha : action <> a) by congruence.
      rewrite lookup_insert_ne by exact Ha.
      destruct ends as [ends |]; simpl; [split; reflexivity |].
      rewrite lookup_empty. split; reflexivity.
    + unfold userCooldowns. rewrite lookup_insert_ne by congruence. split; reflexivity.
Qed.

(** a raid cooldown of 300 seconds set at time 1000 still runs at 2000 *)
Lemma setCooldown_window_raid :
  isOnCooldown 2000 "u1" "raid"
    {[ "u1" := UserCooldowns {[ "raid" := 301000 ]} ]} = Ok true
  /\ getCooldownRemaining 2000 "u1" "raid"
       {[ "u1" := UserCooldowns {[ "raid" := 301000 ]} ]} = Ok 299.
Proof.
  assert (Hset : setCooldown 1000 "u1" "raid" 300 ∅
                 = Ok {[ "u1" := UserCooldowns {[ "raid" := 301000 ]} ]}).
  { vm_compute. reflexivity. }
  destruct (setCooldown_window 1000 "u1" "raid" 300 _ _ Hset ltac:(lia)) as [Hon _].
  exact (Hon 2000).
Defined.

Lemma executeAbilityEffects_class userId ability w :
  fst (executeAbilityEffects userId ability w) = Ok tt
  /\ (rclass <$> rebels (snd (executeAbilityEffects userId ability w)) !! userId)
     = (rclass <$> rebels w !! userId)
  /\ (energy <$> rebels (snd (executeAbilityEffects userId ability w)) !! userId)
     = (energy <$> rebels w !! userId).
Proof.
  unfold executeAbilityEffects.
  destruct (String.eqb (abilityName ability) "AI Loyalty"); simpl.
  - split; [reflexivity |]. rewrite lookup_alter_eq.
    destruct (rebels w !! userId); split; reflexivity.
  - split; [reflexivity | split; reflexivity].
Qed.

(** X12: an ability that was used is on cooldown for five minutes.
    When [handleUseAbility] activates an ability, the rebel had the
    energy that it costs and has exactly that much less afterwards, and
    pressing the same button again less than 300,000 ms later is
    refused with the minutes left, rounded up, and changes neither the
    state nor the cooldowns. *)
Theorem ability_cooldown (now later : Z) (customId userId : string)
    (cds cds1 : gmap string CooldownEntry) (w w1 : World) (name : string) (cost : Z) :
  handleUseAbility now customId userId cds w = (Ok (AbilityActivated name cost, cds1), w1) ->
  now <> 0 ->
  later - now < 300000 ->
  handleUseAbility later customId userId cds1 w1
  = (Ok (AbilityOnCooldown (ceilDiv (300000 - (later - now)) 60000), cds1), w1)
  /\ (exists r, rebels w !! userId = Some r
                /\ cost <= energy r
                /\ (energy <$> rebels w1 !! userId) = Some (energy r - cost)).
Proof.
  intros H Hnow Hlater. unfold handleUseAbility in *.
  set (abilityKey := if String.eqb customId "use_ability_1" then 0%nat else 1%nat) in *.
  cbv zeta in *.
  erewrite bind_eval in H by reflexivity. cbv beta in H.
  destruct (rebels w !! userId) as [r |] eqn:Hr; [| discriminate H].
  destruct (nth_error (getRebelAbilities r) abilityKey) as [ability |] eqn:Hab;
    [| discriminate H].
  assert (Huse :
    (if energy r <? abilityCost ability
     then ret (AbilityNotEnoughEnergy (abilityCost ability) (energy r), cds)
     else
       modRebel userId (fun r0 => set_energy (energy r0 - abilityCost ability) r0) ;;;
       executeAbilityEffects userId ability ;;;
       ret (AbilityActivated (abilityName ability) (abilityCost ability),
            <[ cooldownKey userId abilityKey := LastUsed now ]> cds)) w
    = (Ok (AbilityActivated name cost, cds1), w1)).
  { destruct (cds !! cooldownKey userId abilityKey) as [[ends | lastUsed] |]; try exact H.
    destruct (negb (lastUsed =? 0) && (now - lastUsed <? 300000)); [discriminate H | exact H]. }
  clear H.
  destruct (energy r <? abilityCost ability) eqn:Ecost; [discriminate Huse |].
  apply Z.ltb_ge in Ecost.
  erewrite bind_eval in Huse by reflexivity.
  destruct (executeAbilityEffects_class userId ability
              (set_rebels (alter (fun r0 => set_energy (energy r0 - abilityCost ability) r0)
                                 userId) w)) as (Hok & Hclass & Henergy).
  destruct (executeAbilityEffects userId ability _) as [res w2] eqn:Eeff.
  simpl in Hok, Hclass, Henergy. subst res.
  erewrite bind_eval in Huse by exact Eeff.
  injection Huse as <- <- <- <-.
  rewrite lookup_alter_eq, Hr in Hclass, Henergy. simpl in Hclass, Henergy.
  destruct (rebels w2 !! userId) as [r2 |] eqn:Hr2; [| discriminate Hclass].
  injection Hclass as Hclass. injection Henergy as Henergy.
  split.
  - erewrite bind_eval by reflexivity. cbv beta. rewrite Hr2.
    assert (Hsame : getRebelAbilities r2 = getRebelAbilities r).
    { unfold getRebelAbilities. rewrite Hclass. reflexivity. }
    rewrite Hsame, Hab, lookup_insert_eq.
    apply Z.eqb_neq in Hnow. rewrite Hnow.
    apply Z.ltb_lt in Hlater. rewrite Hlater. reflexivity.
  - exists r. split; [reflexivity |]. split; [exact Ecost |]. simpl in *. congruence.
Qed.

(** a new Model Trainer uses AI Loyalty for 20 energy and tries again a
    second later *)
Lemma ability_cooldown_new_rebel :
  let w := worldOf ["u1"] "Model Trainer" openai in
  let cds1 : gmap string CooldownEntry := {[ cooldownKey "u1" 0 := LastUsed 5000 ]} in
  let w1 := execM (handleUseAbility 5000 "use_ability_1" "u1" ∅) w in
  handleUseAbility 6000 "use_ability_1" "u1" cds1 w1 = (Ok (AbilityOnCooldown 5, cds1), w1)
  /\ (energy <$> rebels w1 !! "u1") = Some 80.
Proof.
  intros w cds1 w1.
  assert (H : handleUseAbility 5000 "use_ability_1" "u1" ∅ w
              = (Ok (AbilityActivated "AI Loyalty" 20, cds1), w1)).
  { vm_compute. reflexivity. }
  destruct (ability_cooldown 5000 6000 "use_ability_1" "u1" ∅ cds1 w w1 "AI Loyalty" 20
              H ltac:(lia) ltac:(lia)) as [Hagain (r & Hr & _ & Henergy)].
  split; [exact Hagain |].
  rewrite Henergy. f_equal.
  assert (E : Some r = Some (newRebel "Model Trainer" 0)) by (rewrite <- Hr; reflexivity).
  injection E as ->. reflexivity.
Defined.

(** *** The dispatch of the buttons *)

Lemma prefix_cons (c d : Ascii.ascii) (p s : string) :
  String.prefix (String c p) (String d s)
  = if Ascii.ascii_dec c d then String.prefix p s else false.
Proof. reflexivity. Qed.

Lemma prefix_app (p q s : string) :
  String.prefix (p +:+ q) s = true -> String.prefix p s = true.
Proof.
  revert s. induction p as [| c p IH]; intros s.
  - destruct s; reflexivity.
  - change (String c p +:+ q) with (String c (p +:+ q)).
    destruct s as [| d s]; [discriminate |]. rewrite !prefix_cons.
    destruct (Ascii.ascii_dec c d); [apply IH | discriminate].
Qed.

Lemma prefix_refl (p : string) : String.prefix p p = true.
Proof.
  induction p as [| c p IH]; [reflexivity |]. rewrite prefix_cons.
  destruct (Ascii.ascii_dec c c); [exact IH | congruence].
Qed.

(** two prefixes of one string: one is a prefix of the other *)
Lemma prefix_compatible (p q s : string) :
  String.prefix p s = true -> String.prefix q s = true ->
  String.prefix p q = true \/ String.prefix q p = true.
Proof.
  revert q s. induction p as [| c p IH]; intros q s Hp Hq.
  - left. destruct q; reflexivity.
  - destruct q as [| d q]; [right; reflexivity |].
    destruct s as [| e s]; [discriminate Hp |].
    rewrite prefix_cons in Hp, Hq. rewrite !prefix_cons.
    destruct (Ascii.ascii_dec c e) as [-> |]; [| discriminate Hp].
    destruct (Ascii.ascii_dec d e) as [-> |]; [| discriminate Hq].
    destruct (Ascii.ascii_dec e e); [| congruence].
    apply (IH q s Hp Hq).
Qed.

Lemma prefix_of_equal (p q s : string) :
  String.prefix p s = true -> String.eqb s q = true -> String.prefix p q = true.
Proof. intros Hp Hq. apply String.eqb_eq in Hq. subst s. exact Hp. Qed.

(** the hypothesis [H] says that [customId] begins with a text that the
    condition [E] of the branch taken excludes *)
Ltac clash H E :=
  repeat match type of E with
    | (_ || _) = true => apply orb_true_iff in E; destruct E as [E | E]
    | (_ && _) = true => apply andb_true_iff in E; destruct E as [E _]
    end;
  first
    [ pose proof (prefix_of_equal _ _ _ H E) as Hc; vm_compute in Hc; discriminate Hc
    | destruct (prefix_compatible _ _ _ H E) as [Hc | Hc]; vm_compute in Hc; discriminate Hc ].

(** X14: branches of [handleButton] that no button reaches.  Whatever
    the custom id, the branch for ['intel_all'] is never taken (the
    branch for ids that start with ['intel_'] comes first), nor is the
    branch that sends ['travel_foundation'] and ['travel_sanctuary'] to
    the safe zones (ids that start with ['travel_'] are handled
    before); the item handler is reached only by ids that start with
    ['items_'] or ['trade_item_'], and ids that start with
    ['market_sell_'] or ['auction_item_'], which its branch also lists,
    go to the market handler. *)
Theorem handleButton_dead_branches (customId : string) :
  handleButton customId <> IntelAll
  /\ handleButton customId <> TravelToSafeZone
  /\ (handleButton customId = ItemsButtons ->
      startsWith customId "items_" = true \/ startsWith customId "trade_item_" = true)
  /\ (startsWith customId "market_sell_" = true \/ startsWith customId "auction_item_" = true ->
      handleButton customId = MarketButtons).
Proof.
  set (P := fun h : Branch =>
    h <> IntelAll
    /\ h <> TravelToSafeZone
    /\ (h = ItemsButtons ->
        startsWith customId "items_" = true \/ startsWith customId "trade_item_" = true)
    /\ (startsWith customId "market_sell_" = true
        \/ startsWith customId "auction_item_" = true -> h = MarketButtons)).
  change (P (handleButton customId)).
  assert (Hleaf : forall (h : Branch) (c : bool),
            c = true ->
            h <> IntelAll -> h <> TravelToSafeZone -> h <> ItemsButtons ->
            (forall p, (p = "market_sell_" \/ p = "auction_item_") ->
                       String.prefix p customId = true -> c = true -> h = MarketButtons) ->
            P h).
  { intros h c Hc H1 H2 H3 H4. unfold P, startsWith.
    split; [exact H1 | split; [exact H2 | split; [intros H; contradiction |]]].
    intros [H | H]; [apply (H4 "market_sell_") | apply (H4 "auction_item_")]; auto. }
  unfold handleButton, startsWith.
  repeat lazymatch goal with
    | |- P (if ?b then _ else _) =>
        let E := fresh "E" in
        destruct b eqn:E;
        [ try solve [ apply (Hleaf _ _ E); try discriminate;
                      intros p [-> | ->] H E'; clash H E' ] | ]
    end.
  all: unfold P, startsWith; clear Hleaf P.
  all: assert (Hmarket : String.prefix "market_sell_" customId = true
                         \/ String.prefix "auction_item_" customId = true ->
                         String.prefix "market_" customId || String.prefix "auction_" customId
                         || String.eqb customId "my_market_listings" = true);
    [ intros [H | H];
      [ apply (prefix_app "market_" "sell_") in H | apply (prefix_app "auction_" "item_") in H ];
      rewrite H; try reflexivity; rewrite orb_true_r; reflexivity | ].
  - match goal with
    | H : String.eqb customId "intel_all" = true, H' : String.prefix "intel_" customId = false
      |- _ => apply String.eqb_eq in H; subst customId; vm_compute in H'; discriminate H'
    end.
  - match goal with
    | H : _ || _ = true, H' : String.prefix "travel_" customId = false |- _ =>
        apply orb_true_iff in H; destruct H as [H | H];
        apply String.eqb_eq in H; subst customId; vm_compute in H'; discriminate H'
    end.
  - repeat split; try discriminate.
  - match goal with
    | H : String.prefix "market_" customId || _ || _ = false |- _ =>
        rewrite H in Hmarket; rename H into Hno
    end.
    split; [discriminate | split; [discriminate | split]].
    + intros _.
      match goal with
      | H : _ || _ || _ || _ = true |- _ =>
          apply orb_true_iff in H; destruct H as [H | H];
          [ apply orb_true_iff in H; destruct H as [H | H];
            [ apply orb_true_iff in H; destruct H as [H | H]; [left | right]; exact H
            | specialize (Hmarket (or_introl H)); discriminate Hmarket ]
          | specialize (Hmarket (or_intror H)); discriminate Hmarket ]
      end.
    + intros H. specialize (Hmarket H). discriminate Hmarket.
  - match goal with
    | H : String.prefix "market_" customId || _ || _ = false |- _ =>
        rewrite H in Hmarket
    end.
    split; [discriminate | split; [discriminate | split; [discriminate |]]].
    intros H. specialize (Hmarket H). discriminate Hmarket.
Qed.

(** *** The party id of a button *)

Lemma includes_eq (s sub : string) :
  includes s sub
  = if String.prefix sub s then true
    else match s with
         | EmptyString => false
         | String _ t => includes t sub
         end.
Proof. destruct s; reflexivity. Qed.

Lemma replaceFirst_eq (p r s : string) :
  replaceFirst p r s
  = if String.prefix p s
    then r +:+ String.substring (String.length p) (String.length s - String.length p) s
    else match s with
         | EmptyString => EmptyString
         | String c t => String c (replaceFirst p r t)
         end.
Proof. destruct s; reflexivity. Qed.

Lemma substring_all (s : string) : String.substring 0 (String.length s) s = s.
Proof.
  induction s as [| c s IH]; [reflexivity |]. simpl. rewrite IH. reflexivity.
Qed.

Lemma prefix_append (p x : string) : String.prefix p (p +:+ x) = true.
Proof.
  induction p as [| c p IH].
  - destruct x; reflexivity.
  - change (String c p +:+ x) with (String c (p +:+ x)). rewrite prefix_cons.
    destruct (Ascii.ascii_dec c c); [exact IH | congruence].
Qed.

Lemma length_append (p x : string) :
  String.length (p +:+ x) = (String.length p + String.length x)%nat.
Proof.
  induction p as [| c p IH]; [reflexivity |].
  change (String c p +:+ x) with (String c (p +:+ x)). simpl. rewrite IH. reflexivity.
Qed.

Lemma substring_append (p x : string) :
  String.substring (String.length p) (String.length x) (p +:+ x) = x.
Proof.
  induction p as [| c p IH]; [apply substring_all |].
  change (String c p +:+ x) with (String c (p +:+ x)). simpl. exact IH.
Qed.

Lemma replaceFirst_prefix (p x : string) : replaceFirst p "" (p +:+ x) = x.
Proof.
  rewrite replaceFirst_eq, prefix_append, length_append.
  replace (String.length p + String.length x - String.length p)%nat
    with (String.length x) by lia.
  rewrite substring_append. reflexivity.
Qed.

Lemma replaceFirst_absent (p r s : string) :
  includes s p = false -> replaceFirst p r s = s.
Proof.
  induction s as [| c s IH]; rewrite includes_eq, replaceFirst_eq.
  - destruct (String.prefix p ""); intros H; [discriminate H | reflexivity].
  - destruct (String.prefix p (String c s)); intros H; [discriminate H |].
    rewrite (IH H). reflexivity.
Qed.

(** X15: which party a party button names.  The id of an
    ['execute_raid_'] button is cut back to the party id, whatever the
    party id is, and the button is sent to the team raid handler.  An
    ['execute_plan_'] button is sent to the battle plan handler, which
    calls the same [handleExecuteTeamRaid]; that handler removes
    ['execute_raid_'] only, so unless the party id contains that text
    it looks up the whole custom id, and replies that the party was not
    found when no party is stored under it. *)
Theorem party_button_ids (random : nat -> Q) (now : Z) (partyId userId : string)
    (w : World) :
  (executeButton random now ("execute_raid_" +:+ partyId) userId
   = handleExecuteTeamRaid random now partyId userId)
  /\ handleButton ("execute_raid_" +:+ partyId) = TeamRaidButtons
  /\ handleButton ("execute_plan_" +:+ partyId) = BattlePlanButtons
  /\ (includes partyId "execute_raid_" = false ->
      executeButton random now ("execute_plan_" +:+ partyId) userId
      = handleExecuteTeamRaid random now ("execute_plan_" +:+ partyId) userId
      /\ (raidParties w !! ("execute_plan_" +:+ partyId) = None ->
          executeButton random now ("execute_plan_" +:+ partyId) userId w
          = (Ok PartyNotFound, w))).
Proof.
  split; [| split; [| split]].
  - unfold executeButton. rewrite replaceFirst_prefix. reflexivity.
  - destruct partyId; reflexivity.
  - destruct partyId; reflexivity.
  - intros Hno.
    assert (E : replaceFirst "execute_raid_" "" ("execute_plan_" +:+ partyId)
                = "execute_plan_" +:+ partyId).
    { apply replaceFirst_absent. exact Hno. }
    unfold executeButton. rewrite E. split; [reflexivity |].
    intros Hnone. unfold handleExecuteTeamRaid, bind, gets. cbv beta.
    rewrite Hnone. reflexivity.
Qed.

(** *** The scalability configuration *)

Lemma scaledMax_half (max : Z) : Scalability.scaledMax max = max / 2.
Proof.
  unfold Scalability.scaledMax, floorQ, tenths, Qmult, inject_Z, Qfloor. simpl.
  change (Z.pos (1 * 10)) with (5 * 2).
  rewrite (Z.mul_comm max 5). apply Z.div_mul_cancel_l; lia.
Qed.

(** X13: [getScaledConfig] wears the rate limits down.  The function
    writes to the objects it shares with [ScalabilityConfig], so each
    call in emergency mode (more than 8000 users) halves all four rate
    limits again, rounding down: after [n] such calls a limit is the
    original one divided by 2 to the [n], and the limit of 5 trades is
    0 after three calls.  A call with at most 3000 users changes
    nothing, so nothing is ever restored, and no call, whatever the
    number of users, raises any of the four limits when it is not
    negative. *)
Theorem getScaledConfig_wears_limits_down (userCount : Z) (config : Scalability.Config) :
  (forall n : nat, 8000 < userCount ->
     let worn := Nat.iter n (Scalability.getScaledConfig userCount) config in
     Scalability.generalMax worn = Scalability.generalMax config / 2 ^ Z.of_nat n
     /\ Scalability.raidMax worn = Scalability.raidMax config / 2 ^ Z.of_nat n
     /\ Scalability.tradeMax worn = Scalability.tradeMax config / 2 ^ Z.of_nat n
     /\ Scalability.buttonMax worn = Scalability.buttonMax config / 2 ^ Z.of_nat n)
  /\ (8000 < userCount ->
      Scalability.tradeMax
        (Nat.iter 3 (Scalability.getScaledConfig userCount) Scalability.ScalabilityConfig)
      = 0)
  /\ (userCount <= 3000 -> Scalability.getScaledConfig userCount config = config)
  /\ (0 <= Scalability.generalMax config ->
      Scalability.generalMax (Scalability.getScaledConfig userCount config)
      <= Scalability.generalMax config)
  /\ (0 <= Scalability.raidMax config ->
      Scalability.raidMax (Scalability.getScaledConfig userCount config)
      <= Scalability.raidMax config)
  /\ (0 <= Scalability.tradeMax config ->
      Scalability.tradeMax (Scalability.getScaledConfig userCount config)
      <= Scalability.tradeMax config)
  /\ (0 <= Scalability.buttonMax config ->
      Scalability.buttonMax (Scalability.getScaledConfig userCount config)
      <= Scalability.buttonMax config).
Proof.
  assert (Hworn : forall (n : nat) c, 8000 < userCount ->
            let worn := Nat.iter n (Scalability.getScaledConfig userCount) c in
            Scalability.generalMax worn = Scalability.generalMax c / 2 ^ Z.of_nat n
            /\ Scalability.raidMax worn = Scalability.raidMax c / 2 ^ Z.of_nat n
            /\ Scalability.tradeMax worn = Scalability.tradeMax c / 2 ^ Z.of_nat n
            /\ Scalability.buttonMax worn = Scalability.buttonMax c / 2 ^ Z.of_nat n).
  { intros n c Hu worn. subst worn. apply Z.ltb_lt in Hu.
    induction n as [| n IH].
    - simpl. rewrite !Z.div_1_r. repeat split; reflexivity.
    - rewrite Nat.iter_succ. destruct IH as (Hg & Hr & Ht & Hb).
      unfold Scalability.getScaledConfig at 1 3 5 7. rewrite Hu. simpl.
      rewrite !scaledMax_half, Hg, Hr, Ht, Hb.
      assert (Hdiv : forall x, x / 2 ^ Z.of_nat n / 2 = x / 2 ^ Z.of_nat (S n)).
      { intros x. rewrite Nat2Z.inj_succ, Z.pow_succ_r by lia.
        rewrite Z.div_div by (try apply Z.pow_pos_nonneg; lia).
        rewrite Z.mul_comm. reflexivity. }
      rewrite !Hdiv. repeat split; reflexivity. }
  split; [| split; [| split; [| split; [| split; [| split]]]]].
  - intros n. apply Hworn.
  - intros Hu. destruct (Hworn 3%nat Scalability.ScalabilityConfig Hu) as (_ & _ & Ht & _).
    rewrite Ht. reflexivity.
  - intros Hu. unfold Scalability.getScaledConfig.
    assert (H1 : (8000 <? userCount) = false) by (apply Z.ltb_ge; lia).
    assert (H2 : (5000 <? userCount) = false) by (apply Z.ltb_ge; lia).
    assert (H3 : (3000 <? userCount) = false) by (apply Z.ltb_ge; lia).
    rewrite H1, H2, H3. reflexivity.
  - intros Hpos. unfold Scalability.getScaledConfig.
    destruct (8000 <? userCount); simpl.
    + rewrite scaledMax_half. apply Z.div_le_upper_bound; lia.
    + destruct (5000 <? userCount); simpl; [lia |].
      destruct (3000 <? userCount); simpl; lia.
  - intros Hpos. unfold Scalability.getScaledConfig.
    destruct (8000 <? userCount); simpl.
    + rewrite scaledMax_half. apply Z.div_le_upper_bound; lia.
    + destruct (5000 <? userCount); simpl; [lia |].
      destruct (3000 <? userCount); simpl; lia.
  - intros Hpos. unfold Scalability.getScaledConfig.
    destruct (8000 <? userCount); simpl.
    + rewrite scaledMax_half. apply Z.div_le_upper_bound; lia.
    + destruct (5000 <? userCount); simpl; [lia |].
      destruct (3000 <? userCount); simpl; lia.
  - intros Hpos. unfold Scalability.getScaledConfig.
    destruct (8000 <? userCount); simpl.
    + rewrite scaledMax_half. apply Z.div_le_upper_bound; lia.
    + destruct (5000 <? userCount); simpl; [lia |].
      destruct (3000 <? userCount); simpl; lia.
Qed.

(** *** Levels of the rebel data access layer *)

Lemma calculateLevel_below (e s : Z) :
  0 <= s -> s * s * 100 <= e < (s + 1) * (s + 1) * 100 -> Z.sqrt (e / 100) = s.
Proof.
  intros Hs [Hlo Hhi]. apply Z.sqrt_unique. split.
  - apply Z.div_le_lower_bound; lia.
  - apply Z.div_lt_upper_bound; [lia |]. unfold Z.succ. lia.
Qed.

(** X16: the experience to the next level is exact.  For an experience
    that is not negative, the level computed by [calculateLevel] is
    between 1 and 100; below level 100, [getExperienceToNextLevel] is
    positive, gaining that much reaches the next level exactly, and
    gaining any less leaves the level as it is; at level 100 it is 0. *)
Theorem getExperienceToNextLevel_reaches_next (experience : Z) :
  0 <= experience ->
  let lvl := RebelDAL.calculateLevel experience in
  let missing := getExperienceToNextLevel lvl experience in
  1 <= lvl <= 100
  /\ (lvl < 100 ->
      0 < missing
      /\ RebelDAL.calculateLevel (experience + missing) = lvl + 1
      /\ (forall gained, 0 <= gained < missing ->
            RebelDAL.calculateLevel (experience + gained) = lvl))
  /\ (lvl = 100 -> missing = 0).
Proof.
  intros He lvl missing. subst lvl missing.
  unfold RebelDAL.calculateLevel, getExperienceToNextLevel.
  assert (Hq : 0 <= experience / 100) by (apply Z.div_pos; lia).
  pose proof (Z.sqrt_spec (experience / 100) Hq) as Hs.
  pose proof (Z.sqrt_nonneg (experience / 100)) as Hs0.
  set (s := Z.sqrt (experience / 100)) in *. unfold Z.succ in Hs.
  assert (Hlo : s * s * 100 <= experience).
  { pose proof (Z.mul_div_le experience 100 ltac:(lia)). nia. }
  assert (Hhi : experience < (s + 1) * (s + 1) * 100).
  { pose proof (Z.mod_pos_bound experience 100 ltac:(lia)).
    pose proof (Z.div_mod experience 100 ltac:(lia)). nia. }
  split; [lia |]. split.
  - intros Hlt. assert (Hs99 : s + 1 < 100) by lia.
    rewrite Z.min_r in * by lia.
    assert (E100 : (100 <=? s + 1) = false) by (apply Z.leb_gt; lia).
    rewrite E100. cbv zeta. rewrite Z.pow_2_r.
    rewrite Z.max_r by lia. split; [lia |]. split.
    + replace (experience + ((s + 1) * (s + 1) * 100 - experience))
        with ((s + 1) * (s + 1) * 100) by lia.
      rewrite (calculateLevel_below _ (s + 1)) by lia. lia.
    + intros gained Hg. rewrite (calculateLevel_below _ s) by lia. lia.
  - intros H100. assert (E100 : (100 <=? Z.min 100 (s + 1)) = true) by (apply Z.leb_le; lia).
    rewrite E100. reflexivity.
Qed.

(** with 250 experience, level 2, 150 more reach level 3 *)
Lemma getExperienceToNextLevel_at_250 :
  getExperienceToNextLevel (RebelDAL.calculateLevel 250) 250 = 150
  /\ RebelDAL.calculateLevel (250 + 150) = 3
  /\ RebelDAL.calculateLevel (250 + 149) = 2.
Proof.
  destruct (getExperienceToNextLevel_reaches_next 250 ltac:(lia)) as (_ & Hnext & _).
  destruct (Hnext ltac:(vm_compute; reflexivity)) as (_ & Hreach & Hstay).
  split; [reflexivity |]. split; [exact Hreach |].
  exact (Hstay 149 ltac:(vm_compute; split; [discriminate | reflexivity])).
Defined.

(** *** Achievements *)

Lemma existsb_eqb_In (u : string) (l : list string) :
  existsb (String.eqb u) l = true <-> In u l.
Proof.
  rewrite existsb_exists. split.
  - intros (x & Hin & Heq). apply String.eqb_eq in Heq. subst. exact Hin.
  - intros Hin. exists u. split; [exact Hin | apply String.eqb_refl].
Qed.

Lemma award_world userId achievementId points (w : World) r unlocked :
  rebels w !! userId = Some r ->
  achievements w !! userId = Some unlocked ->
  set_rebels (alter (fun r => set_loyaltyScore (loyaltyScore r + points) r) userId)
    (set_achievements (alter (fun l => l ++ [achievementId]) userId) w)
  = set_rebel_and_unlocked userId (set_loyaltyScore (loyaltyScore r + points) r)
      (unlocked ++ [achievementId]) w.
Proof.
  intros Hr Ha. unfold set_rebel_and_unlocked, set_rebels, set_achievements. simpl.
  f_equal; apply map_eq; intros k; destruct (decide (userId = k)) as [<- | Hne].
  - rewrite lookup_alter_eq, lookup_insert_eq, Hr. reflexivity.
  - rewrite lookup_alter_ne, lookup_insert_ne by assumption. reflexivity.
  - rewrite lookup_alter_eq, lookup_insert_eq, Ha. reflexivity.
  - rewrite lookup_alter_ne, lookup_insert_ne by assumption. reflexivity.
Qed.

Lemma awardAchievement_spec userId achievementId (w : World) r unlocked :
  rebels w !! userId = Some r ->
  achievements w !! userId = Some unlocked ->
  awardAchievement userId achievementId w
  = match assoc achievementId achievementTemplates with
    | Some points =>
        if existsb (String.eqb achievementId) unlocked then (Ok false, w)
        else (Ok true,
              set_rebel_and_unlocked userId (set_loyaltyScore (loyaltyScore r + points) r)
                (unlocked ++ [achievementId]) w)
    | None => (Ok false, w)
    end.
Proof.
  intros Hr Ha. unfold awardAchievement, bind, gets, modRebel, modify, ret. simpl.
  rewrite Ha. destruct (assoc achievementId achievementTemplates) as [points |]; [| reflexivity].
  destruct (existsb (String.eqb achievementId) unlocked); [reflexivity |]. simpl.
  f_equal. apply award_world; assumption.
Qed.

(** X17: an achievement is awarded once.  For a user with a rebel and
    an achievement list without repetition, [awardAchievement] returns
    true exactly when the id is one of the templates and is not yet
    unlocked; it then appends the id and adds the points of the
    template to the loyalty score, and otherwise changes nothing.  The
    list stays without repetition, and awarding the same id again
    returns false and changes nothing. *)
Theorem awardAchievement_once (userId achievementId : string) (w : World) (r : Rebel)
    (unlocked : list string) :
  rebels w !! userId = Some r ->
  achievements w !! userId = Some unlocked ->
  List.NoDup unlocked ->
  let res := awardAchievement userId achievementId w in
  (fst res = Ok true <->
     In achievementId (map fst achievementTemplates) /\ ~ In achievementId unlocked)
  /\ (fst res = Ok true ->
      (loyaltyScore <$> rebels (snd res) !! userId)
      = Some (loyaltyScore r + pointsOf [achievementId])
      /\ achievements (snd res) !! userId = Some (unlocked ++ [achievementId]))
  /\ (fst res <> Ok true -> snd res = w)
  /\ (exists unlocked', achievements (snd res) !! userId = Some unlocked'
                        /\ List.NoDup unlocked')
  /\ awardAchievement userId achievementId (snd res) = (Ok false, snd res).
Proof.
  intros Hr Ha Hnd res. subst res.
  rewrite (awardAchievement_spec userId achievementId w r unlocked Hr Ha).
  assert (Htemplate : In achievementId (map fst achievementTemplates)
                      <-> is_Some (assoc achievementId achievementTemplates)).
  { unfold assoc. generalize achievementTemplates. intros l.
    induction l as [| [k v] l IH]; simpl.
    - split; [intros [] | intros [x Hx]; discriminate Hx].
    - destruct (String.eqb achievementId k) eqn:E.
      + apply String.eqb_eq in E. subst. split; [intros _; eauto | intros _; left; reflexivity].
      + apply String.eqb_neq in E. rewrite <- IH. split; [intros [H | H] | intros H].
        * congruence.
        * exact H.
        * right. exact H. }
  destruct (assoc achievementId achievementTemplates) as [points |] eqn:Et.
  - destruct (existsb (String.eqb achievementId) unlocked) eqn:Ein.
    + apply existsb_eqb_In in Ein. simpl.
      split; [split; [discriminate | intros [_ H]; contradiction] |].
      split; [discriminate |]. split; [reflexivity |].
      split; [exists unlocked; split; assumption |].
      rewrite (awardAchievement_spec userId achievementId w r unlocked Hr Ha), Et.
      apply existsb_eqb_In in Ein. rewrite Ein. reflexivity.
    + assert (Hnot : ~ In achievementId unlocked).
      { intros H. apply existsb_eqb_In in H. congruence. }
      simpl. split; [split; [intros _; split; [apply Htemplate; eauto | exact Hnot]
                            | reflexivity] |].
      split.
      { intros _. rewrite !lookup_insert_eq. simpl. split; [| reflexivity].
        unfold pointsOf. simpl. rewrite Et. simpl. f_equal. lia. }
      split; [intros H; exfalso; apply H; reflexivity |].
      split.
      { exists (unlocked ++ [achievementId]). rewrite lookup_insert_eq.
        split; [reflexivity |]. apply NoDup_ListNoDup. apply NoDup_app.
        split; [apply NoDup_ListNoDup; exact Hnd |]. split.
        - intros x Hx Hx'. apply list_elem_of_In in Hx.
          apply list_elem_of_singleton in Hx'. subst. contradiction.
        - apply NoDup_singleton. }
      erewrite awardAchievement_spec.
      2: { simpl. apply lookup_insert_eq. }
      2: { simpl. apply lookup_insert_eq. }
      rewrite Et.
      assert (E : existsb (String.eqb achievementId) (unlocked ++ [achievementId]) = true).
      { apply existsb_eqb_In. apply in_or_app. right. left. reflexivity. }
      rewrite E. reflexivity.
  - simpl. split; [split; [discriminate | intros [H _]; apply Htemplate in H;
                           destruct H as [x Hx]; discriminate Hx] |].
    split; [discriminate |]. split; [reflexivity |].
    split; [exists unlocked; split; assumption |].
    rewrite (awardAchievement_spec userId achievementId w r unlocked Hr Ha), Et. reflexivity.
Qed.

(** the first raid of a new rebel is worth 25 points, once *)
Lemma awardAchievement_once_first_raid :
  let res := awardAchievement "u1" "first_raid" (worldOf ["u1"] "Model Trainer" openai) in
  fst res = Ok true
  /\ (loyaltyScore <$> rebels (snd res) !! "u1") = Some 25
  /\ awardAchievement "u1" "first_raid" (snd res) = (Ok false, snd res).
Proof.
  intros res.
  destruct (awardAchievement_once "u1" "first_raid" (worldOf ["u1"] "Model Trainer" openai)
              (newRebel "Model Trainer" 0) [] eq_refl eq_refl (List.NoDup_nil _))
    as (Hiff & Hyes & _ & _ & Hagain).
  assert (Htrue : fst res = Ok true).
  { apply Hiff. split; [simpl; tauto | intros []]. }
  split; [exact Htrue |]. split; [| exact Hagain].
  exact (proj1 (Hyes Htrue)).
Defined.

Lemma checkOne_spec userId cond achievementId acc (w : World) r unlocked points :
  rebels w !! userId = Some r ->
  achievements w !! userId = Some unlocked ->
  assoc achievementId achievementTemplates = Some points ->
  checkOne userId cond achievementId acc w
  = if cond r && negb (existsb (String.eqb achievementId) unlocked)
    then (Ok (acc ++ [achievementId]),
          set_rebel_and_unlocked userId (set_loyaltyScore (loyaltyScore r + points) r)
            (unlocked ++ [achievementId]) w)
    else (Ok acc, w).
Proof.
  intros Hr Ha Ht. unfold checkOne, hasAchievement.
  unfold bind at 1. unfold gets at 1. cbv beta iota.
  unfold bind at 1. unfold bind at 1. unfold gets at 1. cbv beta iota.
  rewrite Ha, Hr. unfold ret at 1. cbv beta iota.
  destruct (cond r && negb (existsb (String.eqb achievementId) unlocked)) eqn:E;
    [| reflexivity].
  apply andb_true_iff in E. destruct E as [_ E]. apply negb_true_iff in E.
  unfold bind. rewrite (awardAchievement_spec userId achievementId w r unlocked Hr Ha), Ht, E.
  reflexivity.
Qed.

Lemma pointsOf_snoc news id points :
  assoc id achievementTemplates = Some points -> pointsOf (news ++ [id]) = pointsOf news + points.
Proof.
  intros H. unfold pointsOf. rewrite map_app, sumZ_app. simpl. rewrite H. simpl. lia.
Qed.

Lemma checkOne_checked userId r unlocked w cond achievementId points news w1 :
  assoc achievementId achievementTemplates = Some points ->
  checked userId r unlocked w news w1 ->
  exists news',
    fst (checkOne userId cond achievementId news w1) = Ok news'
    /\ checked userId r unlocked w news' (snd (checkOne userId cond achievementId news w1))
    /\ (forall r1, rebels w1 !! userId = Some r1 ->
          (In achievementId news' <->
             In achievementId news
             \/ (cond r1 = true /\ ~ In achievementId (unlocked ++ news))))
    /\ (forall id, id <> achievementId -> (In id news' <-> In id news)).
Proof.
  intros Ht ((r1 & Hr1 & Hloy & Hdmg & Hdef) & Hach & Hnew & Hnd & Hframe).
  rewrite (checkOne_spec userId cond achievementId news w1 r1 (unlocked ++ news) points
             Hr1 Hach Ht).
  destruct (cond r1) eqn:Ec; simpl.
  2: { exists news. split; [reflexivity |]. split.
       - split; [exists r1; auto |]. auto.
       - split; [| intros; reflexivity]. intros r2 Hr2. rewrite Hr1 in Hr2.
         injection Hr2 as <-. rewrite Ec. split; [auto | intros [H | [H _]]; [exact H |]].
         discriminate H. }
  destruct (existsb (String.eqb achievementId) (unlocked ++ news)) eqn:Ein; simpl.
  - apply existsb_eqb_In in Ein. exists news. split; [reflexivity |]. split.
    + split; [exists r1; auto |]. auto.
    + split; [| intros; reflexivity]. intros r2 _.
      split; [auto | intros [H | [_ H]]; [exact H | contradiction]].
  - assert (Hnot : ~ In achievementId (unlocked ++ news)).
    { intros H. apply existsb_eqb_In in H. congruence. }
    exists (news ++ [achievementId]). split; [reflexivity |]. split; [| split].
    + split; [| split; [| split; [| split]]].
      * eexists. simpl. rewrite lookup_insert_eq. split; [reflexivity |]. simpl.
        rewrite (pointsOf_snoc _ _ _ Ht). split; [lia | split; assumption].
      * simpl. rewrite lookup_insert_eq, <- app_assoc. reflexivity.
      * intros id Hid. apply in_app_or in Hid. destruct Hid as [Hid | [<- | []]].
        -- apply Hnew. exact Hid.
        -- intros H. apply Hnot. apply in_or_app. left. exact H.
      * apply NoDup_ListNoDup. apply NoDup_app.
        split; [apply NoDup_ListNoDup; exact Hnd |]. split; [| apply NoDup_singleton].
        intros x Hx Hx'. apply list_elem_of_In in Hx.
        apply list_elem_of_singleton in Hx'. subst.
        apply Hnot. apply in_or_app. right. exact Hx.
      * intros u Hu. simpl. rewrite !lookup_insert_ne by congruence. apply Hframe. exact Hu.
    + intros r2 Hr2. rewrite Hr1 in Hr2. injection Hr2 as <-.
      split; [intros _; right; split; [exact Ec | exact Hnot] |].
      intros _. apply in_or_app. right. left. reflexivity.
    + intros id Hne. split; intros H.
      * apply in_app_or in H. destruct H as [H | [H | []]]; [exact H | congruence].
      * apply in_or_app. left. exact H.
Qed.

Lemma points_nonneg id : 0 <= orDefault (assoc id achievementTemplates) 0.
Proof.
  unfold achievementTemplates, assoc.
  repeat match goal with
    | |- context [String.eqb ?a ?b] => destruct (String.eqb a b)
    end; simpl; lia.
Qed.

Lemma pointsOf_nonneg l : 0 <= pointsOf l.
Proof.
  induction l as [| x l IH]; unfold pointsOf in *; simpl; [lia |].
  pose proof (points_nonneg x). lia.
Qed.

Lemma pointsOf_ge id points l :
  assoc id achievementTemplates = Some points -> In id l -> points <= pointsOf l.
Proof.
  intros Ht. induction l as [| x l IH]; intros Hin; [destruct Hin |].
  change (pointsOf (x :: l)) with (orDefault (assoc x achievementTemplates) 0 + pointsOf l).
  destruct Hin as [-> | Hin].
  - rewrite Ht. simpl. pose proof (pointsOf_nonneg l). lia.
  - pose proof (points_nonneg x). specialize (IH Hin). lia.
Qed.

Lemma checkAchievements_checked (userId : string) (w : World) (r : Rebel)
    (unlocked : list string) :
  rebels w !! userId = Some r ->
  achievements w !! userId = Some unlocked ->
  exists news w',
    checkAchievements userId w = (Ok news, w')
    /\ checked userId r unlocked w news w'
    /\ (In "damage_1k" news <->
          1000 <= corporateDamage r /\ ~ In "damage_1k" unlocked)
    /\ (In "damage_10k" news <->
          10000 <= corporateDamage r /\ ~ In "damage_10k" unlocked)
    /\ (In "damage_100k" news <->
          100000 <= corporateDamage r /\ ~ In "damage_100k" unlocked)
    /\ (In "all_corps_defeated" news <->
          5 <= corporationsDefeated r /\ ~ In "all_corps_defeated" unlocked)
    /\ (0 <= loyaltyScore r -> In "damage_1k" news -> ~ In "loyalty_100" unlocked ->
        In "loyalty_100" news).
Proof.
  intros Hr Ha.
  assert (H0 : checked userId r unlocked w [] w).
  { split; [exists r; unfold pointsOf; simpl; repeat split; [exact Hr | lia] |].
    rewrite app_nil_r. split; [exact Ha |]. split; [intros id [] |].
    split; [constructor | intros; split; reflexivity]. }
  unfold checkAchievements.
  rewrite (bind_eval _ _ w w (Some r)) by (unfold gets; rewrite Hr; reflexivity).
  cbv beta iota.
  destruct (checkOne_checked userId r unlocked w (fun r => 1000 <=? corporateDamage r)
              "damage_1k" 100 [] w eq_refl H0) as (n1 & E1 & C1 & M1 & O1).
  destruct (checkOne userId _ "damage_1k" [] w) as [res1 w1] eqn:Q1.
  simpl in E1, C1, M1, O1. subst res1. rewrite (bind_eval _ _ _ _ _ Q1). clear Q1.
  destruct (checkOne_checked userId r unlocked w (fun r => 10000 <=? corporateDamage r)
              "damage_10k" 250 n1 w1 eq_refl C1) as (n2 & E2 & C2 & M2 & O2).
  destruct (checkOne userId _ "damage_10k" n1 w1) as [res2 w2] eqn:Q2.
  simpl in E2, C2, M2, O2. subst res2. rewrite (bind_eval _ _ _ _ _ Q2). clear Q2.
  destruct (checkOne_checked userId r unlocked w (fun r => 100000 <=? corporateDamage r)
              "damage_100k" 500 n2 w2 eq_refl C2) as (n3 & E3 & C3 & M3 & O3).
  destruct (checkOne userId _ "damage_100k" n2 w2) as [res3 w3] eqn:Q3.
  simpl in E3, C3, M3, O3. subst res3. rewrite (bind_eval _ _ _ _ _ Q3). clear Q3.
  destruct (checkOne_checked userId r unlocked w (fun r => 100 <=? loyaltyScore r)
              "loyalty_100" 50 n3 w3 eq_refl C3) as (n4 & E4 & C4 & M4 & O4).
  destruct (checkOne userId _ "loyalty_100" n3 w3) as [res4 w4] eqn:Q4.
  simpl in E4, C4, M4, O4. subst res4. rewrite (bind_eval _ _ _ _ _ Q4). clear Q4.
  destruct (checkOne_checked userId r unlocked w (fun r => 1000 <=? loyaltyScore r)
              "loyalty_1k" 150 n4 w4 eq_refl C4) as (n5 & E5 & C5 & M5 & O5).
  destruct (checkOne userId _ "loyalty_1k" n4 w4) as [res5 w5] eqn:Q5.
  simpl in E5, C5, M5, O5. subst res5. rewrite (bind_eval _ _ _ _ _ Q5). clear Q5.
  destruct (checkOne_checked userId r unlocked w (fun r => 10000 <=? loyaltyScore r)
              "loyalty_10k" 400 n5 w5 eq_refl C5) as (n6 & E6 & C6 & M6 & O6).
  destruct (checkOne userId _ "loyalty_10k" n5 w5) as [res6 w6] eqn:Q6.
  simpl in E6, C6, M6, O6. subst res6. rewrite (bind_eval _ _ _ _ _ Q6). clear Q6.
  destruct (checkOne_checked userId r unlocked w (fun r => 5 <=? corporationsDefeated r)
              "all_corps_defeated" 500 n6 w6 eq_refl C6) as (n7 & E7 & C7 & M7 & O7).
  destruct (checkOne userId _ "all_corps_defeated" n6 w6) as [res7 w7] eqn:Q7.
  simpl in E7, C7, M7, O7. subst res7.
  exists n7, w7. split; [reflexivity |]. split; [exact C7 |].
  destruct H0 as ((r0 & Hr0 & _ & Hd0 & Hf0) & _).
  destruct C1 as ((r1 & Hr1 & _ & Hd1 & Hf1) & _).
  destruct C2 as ((r2 & Hr2 & _ & Hd2 & Hf2) & _).
  destruct C3 as ((r3 & Hr3 & Hl3 & _) & _).
  specialize (M4 r3 Hr3). simpl in M4. rewrite Hl3, Z.leb_le in M4.
  destruct C6 as ((r6 & Hr6 & _ & Hd6 & Hf6) & _).
  specialize (M1 r0 Hr0). specialize (M2 r1 Hr1). specialize (M3 r2 Hr2).
  specialize (M7 r6 Hr6). simpl in M1, M2, M3, M7.
  rewrite Hd0 in M1. rewrite Hd1 in M2. rewrite Hd2 in M3. rewrite Hf6 in M7.
  rewrite Z.leb_le in M1, M2, M3, M7.
  assert (Hn : forall id (l : list string),
            ~ In id (unlocked ++ l) <-> ~ In id unlocked /\ ~ In id l).
  { intros id l. rewrite in_app_iff. tauto. }
  rewrite Hn in M1, M2, M3, M7.
  split; [| split; [| split; [| split]]].
  - rewrite (O7 "damage_1k"), (O6 "damage_1k"), (O5 "damage_1k"), (O4 "damage_1k"),
      (O3 "damage_1k"), (O2 "damage_1k") by discriminate.
    rewrite M1. simpl. tauto.
  - rewrite (O7 "damage_10k"), (O6 "damage_10k"), (O5 "damage_10k"), (O4 "damage_10k"),
      (O3 "damage_10k") by discriminate.
    rewrite M2, (O1 "damage_10k") by discriminate. simpl. tauto.
  - rewrite (O7 "damage_100k"), (O6 "damage_100k"), (O5 "damage_100k"), (O4 "damage_100k")
      by discriminate.
    rewrite M3, (O2 "damage_100k"), (O1 "damage_100k") by discriminate. simpl. tauto.
  - rewrite M7, (O6 "all_corps_defeated"), (O5 "all_corps_defeated"),
      (O4 "all_corps_defeated"), (O3 "all_corps_defeated"), (O2 "all_corps_defeated"),
      (O1 "all_corps_defeated") by discriminate.
    simpl. tauto.
  - intros Hloyal Hdmg Hnot.
    rewrite (O7 "damage_1k"), (O6 "damage_1k"), (O5 "damage_1k"), (O4 "damage_1k")
      in Hdmg by discriminate.
    rewrite (O7 "loyalty_100"), (O6 "loyalty_100"), (O5 "loyalty_100") by discriminate.
    apply M4.
    destruct (in_dec String.string_dec "loyalty_100" n3) as [Hin | Hout]; [left; exact Hin |].
    right. split.
    + pose proof (pointsOf_ge "damage_1k" 100 n3 eq_refl Hdmg). lia.
    + rewrite in_app_iff. tauto.
Qed.

(** X18: what [checkAchievements] reports.  For a user with a rebel
    and an achievement list, the call returns the list of the
    achievements it has just unlocked: they are appended to the list of
    the user, none of them was unlocked before or is reported twice,
    and the loyalty score grows by the sum of their points.  A damage
    achievement is among them exactly when the damage of the rebel has
    reached its threshold and it was not unlocked, likewise the one for
    five defeated corporations; the loyalty thresholds are read after
    the points of the damage achievements have been added, so a rebel
    with a loyalty that is not negative who unlocks the 1k damage
    achievement unlocks the one for 100 loyalty in the same call.
    Nobody else's rebel or achievements change. *)
Theorem checkAchievements_reports (userId : string) (w : World) (r : Rebel)
    (unlocked : list string) :
  rebels w !! userId = Some r ->
  achievements w !! userId = Some unlocked ->
  exists news,
    evalM (checkAchievements userId) w = Ok news
    /\ achievements (execM (checkAchievements userId) w) !! userId = Some (unlocked ++ news)
    /\ (loyaltyScore <$> rebels (execM (checkAchievements userId) w) !! userId)
       = Some (loyaltyScore r + pointsOf news)
    /\ List.NoDup news
    /\ (forall id, In id news -> ~ In id unlocked)
    /\ (In "damage_1k" news <->
          1000 <= corporateDamage r /\ ~ In "damage_1k" unlocked)
    /\ (In "damage_10k" news <->
          10000 <= corporateDamage r /\ ~ In "damage_10k" unlocked)
    /\ (In "damage_100k" news <->
          100000 <= corporateDamage r /\ ~ In "damage_100k" unlocked)
    /\ (In "all_corps_defeated" news <->
          5 <= corporationsDefeated r /\ ~ In "all_corps_defeated" unlocked)
    /\ (0 <= loyaltyScore r -> In "damage_1k" news -> ~ In "loyalty_100" unlocked ->
        In "loyalty_100" news)
    /\ (forall u, u <> userId ->
          rebels (execM (checkAchievements userId) w) !! u = rebels w !! u
          /\ achievements (execM (checkAchievements userId) w) !! u = achievements w !! u).
Proof.
  intros Hr Ha.
  destruct (checkAchievements_checked userId w r unlocked Hr Ha)
    as (news & w' & E & ((r' & Hr' & Hloy & _) & Hach & Hnew & Hnd & Hframe)
        & H1 & H2 & H3 & H4 & H5).
  exists news. unfold evalM, execM. rewrite E. simpl.
  split; [reflexivity |]. split; [exact Hach |].
  split; [rewrite Hr'; simpl; f_equal; exact Hloy |].
  split; [exact Hnd |]. split; [exact Hnew |].
  split; [exact H1 |]. split; [exact H2 |]. split; [exact H3 |]. split; [exact H4 |].
  split; [exact H5 |]. exact Hframe.
Qed.

(** a rebel with 1200 damage and no loyalty unlocks the 1k damage
    achievement and, with its 100 points, the one for 100 loyalty *)
Lemma checkAchievements_reports_veteran :
  exists news,
    evalM (checkAchievements "u1") veteranWorld = Ok news
    /\ In "damage_1k" news /\ In "loyalty_100" news
    /\ (loyaltyScore <$> rebels (execM (checkAchievements "u1") veteranWorld) !! "u1")
       = Some (pointsOf news).
Proof.
  destruct (checkAchievements_reports "u1" veteranWorld
              (set_corporateDamage 1200 (newRebel "Model Trainer" 0)) [] eq_refl eq_refl)
    as (news & Heval & _ & Hloyalty & _ & _ & Hdamage & _ & _ & _ & Hsame & _).
  assert (Hin : In "damage_1k" news).
  { apply Hdamage. split; [simpl; lia | intros []]. }
  exists news. split; [exact Heval |]. split; [exact Hin |]. split.
  - apply Hsame; [simpl; lia | exact Hin | intros []].
  - exact Hloyalty.
Defined.

(** *** Shields *)

Lemma fold_max_ge (ps : list Z) : forall p x, In x (p :: ps) -> x <= fold_left Z.max ps p.
Proof.
  induction ps as [| q ps IH]; intros p x Hx; simpl.
  - destruct Hx as [Hx | []]. lia.
  - pose proof (IH (Z.max p q) (Z.max p q) (or_introl eq_refl)) as Hm.
    destruct Hx as [Hx | [Hx | Hx]]; [lia | lia |].
    apply IH. right. exact Hx.
Qed.

Lemma getRebelProtection_level now userId (w : World) inv :
  inventory w !! userId = Some inv ->
  getRebelProtection now userId w
  = (Ok match map protectionOf (List.filter (activeDefense now) (items inv)) with
        | [] => None
        | p :: ps => Some (fold_left Z.max ps p)
        end, w).
Proof.
  intros Hinv. unfold getRebelProtection, bind, gets. simpl. rewrite Hinv.
  change (fun it : Item =>
            match assoc (itemType it) defensiveItems with
            | Some d => truthyTime (activatedAt it)
                        && (now - orDefault (activatedAt it) 0 <? duration d)
            | None => false
            end) with (activeDefense now).
  change (fun it : Item => orDefault (protection <$> assoc (itemType it) defensiveItems) 0)
    with protectionOf.
  destruct (map protectionOf (List.filter (activeDefense now) (items inv))); reflexivity.
Qed.

Lemma bestOf_best (l : list (nat * Item)) (b : nat * Item) :
  bestOf l = Some b ->
  In b l /\ (forall q, In q l -> protectionOf (snd q) <= protectionOf (snd b)).
Proof.
  destruct l as [| first rest]; [discriminate |]. simpl. intros [= <-].
  revert first. induction rest as [| p rest IH]; intros first; simpl.
  - split; [left; reflexivity | intros q [<- | []]; lia].
  - destruct (protectionOf (snd first) <? protectionOf (snd p)) eqn:E.
    + apply Z.ltb_lt in E. destruct (IH p) as [Hin Hmax]. split.
      * destruct Hin as [<- | Hin]; [right; left; reflexivity | right; right; exact Hin].
      * intros q [<- | [<- | Hq]].
        -- specialize (Hmax p (or_introl eq_refl)). lia.
        -- apply Hmax. left. reflexivity.
        -- apply Hmax. right. exact Hq.
    + apply Z.ltb_ge in E. destruct (IH first) as [Hin Hmax]. split.
      * destruct Hin as [<- | Hin]; [left; reflexivity | right; right; exact Hin].
      * intros q [<- | [<- | Hq]].
        -- apply Hmax. left. reflexivity.
        -- specialize (Hmax first (or_introl eq_refl)). lia.
        -- apply Hmax. right. exact Hq.
Qed.

Lemma defensiveItems_sane k d :
  assoc k defensiveItems = Some d -> 0 < duration d /\ 0 <= protection d.
Proof.
  unfold defensiveItems, assoc.
  repeat match goal with
    | |- context [String.eqb ?a ?b] => destruct (String.eqb a b)
    end;
    intros H; try discriminate H; injection H as <-; simpl; lia.
Qed.

Lemma protectionOf_nonneg it : 0 <= protectionOf it.
Proof.
  unfold protectionOf. destruct (assoc (itemType it) defensiveItems) as [d |] eqn:E; simpl.
  - apply (defensiveItems_sane _ _ E).
  - lia.
Qed.

Lemma In_combine_seq {A} (l : list A) (i : nat) (x : A) :
  In (i, x) (combine (seq 0 (length l)) l) <-> l !! i = Some x.
Proof.
  assert (H : forall (l : list A) s i x,
            In (i, x) (combine (seq s (length l)) l)
            <-> (s <= i)%nat /\ l !! (i - s)%nat = Some x).
  { clear. induction l as [| a l IH]; intros s i x; simpl.
    - split; [intros [] | intros [_ H]; discriminate H].
    - rewrite IH. split.
      + intros [[= <- <-] | [Hs Hl]].
        * split; [lia |]. rewrite Nat.sub_diag. reflexivity.
        * split; [lia |]. replace (i - s)%nat with (S (i - S s)) by lia. exact Hl.
      + intros [Hs Hl]. destruct (i - s)%nat as [| n] eqn:En.
        * left. injection Hl as <-. f_equal. lia.
        * right. split; [lia |]. replace (i - S s)%nat with n by lia. exact Hl. }
  rewrite H, Nat.sub_0_r. split; [intros [_ Hx]; exact Hx | intros Hx; split; [lia | exact Hx]].
Qed.

Lemma available_active now it d :
  assoc (itemType it) defensiveItems = Some d ->
  available now it = negb (activeDefense now it).
Proof.
  intros H. unfold available, activeDefense. rewrite H.
  rewrite negb_andb. f_equal. rewrite Z.leb_antisym. reflexivity.
Qed.

(** X20: an activated shield protects.  For a user with a rebel and an
    inventory, at a time other than 0, [handleActivateShield] either
    activates an item or finds none.  When it activates one, the
    protection that [getRebelProtection] reads right afterwards is at
    least the percentage of the reply and at least the protection of
    every item of the inventory: the item chosen is the best one that
    was available, and whatever was better is active already.  When it
    finds none, nothing changes and every defensive item of the
    inventory is active. *)
Theorem handleActivateShield_protects (now : Z) (userId : string) (w : World)
    (r : Rebel) (inv : Inventory) :
  rebels w !! userId = Some r ->
  inventory w !! userId = Some inv ->
  now <> 0 ->
  let res := handleActivateShield now userId w in
  match fst res with
  | Ok (ShieldActivated _ percent _) =>
      exists best,
        evalM (getRebelProtection now userId) (snd res) = Ok (Some best)
        /\ percent <= best
        /\ (forall it, In it (items inv) -> protectionOf it <= best)
  | Ok NoDefensiveItems =>
      snd res = w
      /\ (forall it, In it (items inv) ->
            is_Some (assoc (itemType it) defensiveItems) -> activeDefense now it = true)
  | _ => False
  end.
Proof.
  intros Hr Hinv Hnow res. subst res.
  unfold handleActivateShield, bind, gets, modInventory, modify, fromOption, ret, throw. simpl.
  rewrite Hr, Hinv.
  set (defensive := List.filter (fun p => available now (snd p))
                      (combine (seq 0 (length (items inv))) (items inv))).
  destruct (bestOf defensive) as [[i best] |] eqn:Ebest.
  - destruct (bestOf_best defensive (i, best) Ebest) as [Hin Hmax].
    apply filter_In in Hin. destruct Hin as [Hin Hav]. simpl in Hav.
    apply In_combine_seq in Hin.
    destruct (assoc (itemType best) defensiveItems) as [d |] eqn:Ed.
    2: { unfold available in Hav. rewrite Ed in Hav. discriminate Hav. }
    simpl.
    set (best' := set_activatedAt (Some now) best).
    set (inv' := set_items (<[ i := best' ]> (items inv)) inv).
    assert (Hinv' : alter (fun inv0 => set_items (<[ i := best' ]> (items inv0)) inv0) userId
                      (inventory w) !! userId = Some inv').
    { rewrite lookup_alter_eq, Hinv. reflexivity. }
    unfold evalM.
    rewrite (getRebelProtection_level now userId _ inv') by exact Hinv'. simpl.
    destruct (defensiveItems_sane _ _ Ed) as [Hdur Hprot].
    assert (Hbest' : activeDefense now best' = true).
    { unfold activeDefense, best'. simpl. rewrite Ed. simpl.
      apply Z.eqb_neq in Hnow. rewrite Hnow. simpl. apply Z.ltb_lt. lia. }
    assert (Hpb : protectionOf best' = protection d).
    { unfold protectionOf, best'. simpl. rewrite Ed. reflexivity. }
    assert (Hpbest : protectionOf best = protection d).
    { unfold protectionOf. rewrite Ed. reflexivity. }
    assert (Hi : (i < length (items inv))%nat).
    { apply lookup_lt_Some in Hin. exact Hin. }
    assert (Hactive : forall it, In it (<[ i := best' ]> (items inv)) ->
              activeDefense now it = true ->
              In (protectionOf it)
                 (map protectionOf
                    (List.filter (activeDefense now) (<[ i := best' ]> (items inv))))).
    { intros it Hit Hact. apply in_map. apply filter_In. split; assumption. }
    assert (Hbin : In best' (<[ i := best' ]> (items inv))).
    { apply list_elem_of_In. apply list_elem_of_lookup. exists i.
      apply list_lookup_insert_eq. exact Hi. }
    pose proof (Hactive best' Hbin Hbest') as Hpin.
    destruct (map protectionOf
                (List.filter (activeDefense now) (<[ i := best' ]> (items inv))))
      as [| p ps] eqn:Emap; [destruct Hpin |].
    exists (fold_left Z.max ps p). split; [reflexivity |].
    assert (Hlevel : protection d <= fold_left Z.max ps p).
    { rewrite <- Hpb. apply fold_max_ge. exact Hpin. }
    split; [exact Hlevel |].
    intros it Hit. apply list_elem_of_In in Hit. apply list_elem_of_lookup in Hit.
    destruct Hit as [j Hj].
    destruct (decide (j = i)) as [-> | Hne].
    + rewrite Hin in Hj. injection Hj as <-. lia.
    + destruct (activeDefense now it) eqn:Eact.
      * apply fold_max_ge. apply Hactive; [| exact Eact].
        apply list_elem_of_In. apply list_elem_of_lookup. exists j.
        rewrite list_lookup_insert_ne by congruence. exact Hj.
      * destruct (assoc (itemType it) defensiveItems) as [dj |] eqn:Edj.
        -- assert (Hq : In (j, it) defensive).
           { apply filter_In. split; [apply In_combine_seq; exact Hj |]. simpl.
             rewrite (available_active now it dj Edj), Eact. reflexivity. }
           specialize (Hmax (j, it) Hq). simpl in Hmax. lia.
        -- unfold protectionOf. rewrite Edj. simpl. lia.
  - simpl. split; [reflexivity |].
    intros it Hit [dj Edj].
    destruct (activeDefense now it) eqn:Eact; [reflexivity |].
    apply list_elem_of_In in Hit. apply list_elem_of_lookup in Hit. destruct Hit as [j Hj].
    assert (Hq : In (j, it) defensive).
    { apply filter_In. split; [apply In_combine_seq; exact Hj |]. simpl.
      rewrite (available_active now it dj Edj), Eact. reflexivity. }
    destruct defensive; [destruct Hq | discriminate Ebest].
Qed.

(** of an Encryption Cloak and a Digital Shield the shield is activated *)
Lemma handleActivateShield_protects_shield :
  fst (handleActivateShield 5000 "u1" shieldWorld)
  = Ok (ShieldActivated "Digital Shield" 75 60)
  /\ exists best,
       evalM (getRebelProtection 5000 "u1") (snd (handleActivateShield 5000 "u1" shieldWorld))
       = Ok (Some best)
       /\ 75 <= best.
Proof.
  assert (E : fst (handleActivateShield 5000 "u1" shieldWorld)
              = Ok (ShieldActivated "Digital Shield" 75 60)).
  { vm_compute. reflexivity. }
  split; [exact E |].
  pose proof (handleActivateShield_protects 5000 "u1" shieldWorld
                (newRebel "Model Trainer" 0) _ eq_refl eq_refl ltac:(lia)) as H.
  cbv zeta in H. rewrite E in H. destruct H as (best & Hlevel & Hbest & _).
  exists best. split; [exact Hlevel | exact Hbest].
Defined.

(** *** Market prices *)

Lemma itemCounts_supply (listings : list (string * Listing)) (ty : string) :
  itemCounts listings !! ty
  = if supply ty listings =? 0 then None else Some (supply ty listings).
Proof.
  unfold itemCounts, supply.
  assert (H : forall (l : list (string * Listing)) (m : gmap string Z) (n : nat),
            m !! ty = (if Z.of_nat n =? 0 then None else Some (Z.of_nat n)) ->
            fold_left (fun counts p =>
                         let ty := listedType (snd p) in
                         <[ ty := orDefault (counts !! ty) 0 + 1 ]> counts) l m !! ty
            = (let k := (n + length (List.filter
                                       (fun p => String.eqb (listedType (snd p)) ty) l))%nat in
               if Z.of_nat k =? 0 then None else Some (Z.of_nat k))).
  { induction l as [| p l IH]; intros m n Hm; simpl.
    - rewrite Nat.add_0_r. exact Hm.
    - destruct (String.eqb (listedType (snd p)) ty) eqn:E.
      + apply String.eqb_eq in E. simpl.
        rewrite (IH _ (S n)).
        * cbv zeta. replace (S n + _)%nat with (n + S (length (List.filter
              (fun p0 => String.eqb (listedType (snd p0)) ty) l)))%nat by lia. reflexivity.
        * rewrite E, lookup_insert_eq, Hm.
          destruct (Z.of_nat n =? 0) eqn:E0.
          -- apply Z.eqb_eq in E0. simpl. replace (Z.of_nat (S n) =? 0) with false
               by (symmetry; apply Z.eqb_neq; lia). f_equal. lia.
          -- simpl. replace (Z.of_nat (S n) =? 0) with false
               by (symmetry; apply Z.eqb_neq; lia). f_equal. lia.
      + apply String.eqb_neq in E. rewrite (IH _ n).
        * reflexivity.
        * rewrite lookup_insert_ne by exact E. exact Hm. }
  rewrite (H listings ∅ 0%nat); [reflexivity |]. rewrite lookup_empty. reflexivity.
Qed.

Lemma priceMultiplier_cases (count : Z) :
  1 <= count ->
  Qeq (priceMultiplier count)
      (if 55 <=? count then Qmake 1 2
       else if 10 <? count then Qmake (105 - count) 100
       else if count <? 3 then Qmake (111 - 2 * count) 100
       else inject_Z 1).
Proof.
  intros Hc. unfold priceMultiplier, Qmaximum, Qminimum.
  destruct (10 <? count) eqn:E10.
  - apply Z.ltb_lt in E10.
    set (m := Qminus (95 # 100) (Qmult (inject_Z (count - 10)) (1 # 100))).
    assert (Hm : Qeq m (Qmake (105 - count) 100)).
    { unfold m, Qeq, Qminus, Qplus, Qopp, Qmult, inject_Z. simpl. lia. }
    assert (H2 : Qle_bool (inject_Z 2) m = false).
    { apply not_true_is_false. intros H. apply Qle_bool_iff in H. rewrite Hm in H.
      unfold Qle, inject_Z in H. simpl in H. lia. }
    rewrite H2.
    destruct (55 <=? count) eqn:E55.
    + apply Z.leb_le in E55.
      assert (H5 : Qle_bool m (5 # 10) = true).
      { apply Qle_bool_iff. rewrite Hm. unfold Qle. simpl. lia. }
      rewrite H5. reflexivity.
    + apply Z.leb_gt in E55.
      destruct (Qle_bool m (5 # 10)) eqn:H5; [| exact Hm].
      apply Qle_bool_iff in H5. rewrite Hm in H5. unfold Qle in H5. simpl in H5. lia.
  - apply Z.ltb_ge in E10.
    assert (E55 : (55 <=? count) = false) by (apply Z.leb_gt; lia). rewrite E55.
    destruct (count <? 3) eqn:E3.
    + apply Z.ltb_lt in E3.
      set (m := Qplus (105 # 100) (Qmult (inject_Z (3 - count)) (2 # 100))).
      assert (Hm : Qeq m (Qmake (111 - 2 * count) 100)).
      { unfold m, Qeq, Qplus, Qmult, inject_Z. simpl. lia. }
      assert (H2 : Qle_bool (inject_Z 2) m = false).
      { apply not_true_is_false. intros H. apply Qle_bool_iff in H. rewrite Hm in H.
        unfold Qle, inject_Z in H. simpl in H. lia. }
      rewrite H2.
      destruct (Qle_bool m (5 # 10)) eqn:H5; [| exact Hm].
      apply Qle_bool_iff in H5. rewrite Hm in H5. unfold Qle in H5. simpl in H5. lia.
    + reflexivity.
Qed.

(** X19: the price multipliers of [updateMarketPrices].  A type has a
    multiplier exactly when at least one listing is of that type (a
    listing without a type counts as ['misc']), and the multiplier
    depends on the number of its listings only.  It lies between 1/2
    and 1.09, so the upper clamp of 2 never applies; it never rises
    when the number of listings grows, and it is 1 for three to ten
    listings. *)
Theorem updateMarketPrices_bounds (w : World) (ty : string) :
  updateMarketPrices w !! ty
  = (if supply ty (marketplace w) =? 0 then None
     else Some (priceMultiplier (supply ty (marketplace w))))
  /\ (forall m, updateMarketPrices w !! ty = Some m ->
        Qle (Qmake 1 2) m /\ Qle m (Qmake 109 100))
  /\ (forall c1 c2, 1 <= c1 <= c2 -> Qle (priceMultiplier c2) (priceMultiplier c1))
  /\ (forall c, 3 <= c <= 10 -> Qeq (priceMultiplier c) (inject_Z 1)).
Proof.
  assert (Hlookup : updateMarketPrices w !! ty
                    = (if supply ty (marketplace w) =? 0 then None
                       else Some (priceMultiplier (supply ty (marketplace w))))).
  { unfold updateMarketPrices. rewrite lookup_fmap, itemCounts_supply.
    destruct (supply ty (marketplace w) =? 0); reflexivity. }
  assert (Hcases : forall c, 1 <= c ->
            Qle (Qmake 1 2) (priceMultiplier c) /\ Qle (priceMultiplier c) (Qmake 109 100)).
  { intros c Hc. rewrite (priceMultiplier_cases c Hc).
    destruct (55 <=? c) eqn:E55; [split; unfold Qle; simpl; lia |].
    apply Z.leb_gt in E55.
    destruct (10 <? c) eqn:E10; [apply Z.ltb_lt in E10; split; unfold Qle; simpl; lia |].
    destruct (c <? 3) eqn:E3; [apply Z.ltb_lt in E3; split; unfold Qle; simpl; lia |].
    split; unfold Qle; simpl; lia. }
  split; [exact Hlookup |]. split; [| split].
  - intros m Hm. rewrite Hlookup in Hm.
    destruct (supply ty (marketplace w) =? 0) eqn:E0; [discriminate Hm |].
    injection Hm as <-. apply Hcases. apply Z.eqb_neq in E0. unfold supply in *. lia.
  - intros c1 c2 [H1 H12].
    rewrite (priceMultiplier_cases c1) by lia. rewrite (priceMultiplier_cases c2) by lia.
    destruct (55 <=? c1) eqn:A1; destruct (55 <=? c2) eqn:A2;
      destruct (10 <? c1) eqn:B1; destruct (10 <? c2) eqn:B2;
      destruct (c1 <? 3) eqn:C1; destruct (c2 <? 3) eqn:C2;
      try apply Z.leb_le in A1; try apply Z.leb_gt in A1;
      try apply Z.leb_le in A2; try apply Z.leb_gt in A2;
      try apply Z.ltb_lt in B1; try apply Z.ltb_ge in B1;
      try apply Z.ltb_lt in B2; try apply Z.ltb_ge in B2;
      try apply Z.ltb_lt in C1; try apply Z.ltb_ge in C1;
      try apply Z.ltb_lt in C2; try apply Z.ltb_ge in C2;
      try lia; unfold Qle; simpl; lia.
  - intros c Hc. rewrite (priceMultiplier_cases c) by lia.
    assert (E55 : (55 <=? c) = false) by (apply Z.leb_gt; lia).
    assert (E10 : (10 <? c) = false) by (apply Z.ltb_ge; lia).
    assert (E3 : (c <? 3) = false) by (apply Z.ltb_ge; lia).
    rewrite E55, E10, E3. reflexivity.
Qed.

(** *** Enlisting *)

(** X21: a class button enlists a user once.  Whatever the custom id,
    the class it stands for is one that the damage formula knows.  For
    a user who is a rebel already nothing changes; a user who is not
    gets a new rebel of that class with the 10 loyalty points of the
    first achievement, a new inventory and the achievement list with
    that achievement, while nobody else's data changes; and any class
    button pressed afterwards is refused without a change. *)
Theorem handleClassSelection_enlists_once (now later : Z) (customId again userId : string)
    (w : World) :
  let res := handleClassSelection now customId userId w in
  let className := getClassNameFromId customId in
  is_Some (assoc className classMultipliers)
  /\ (is_Some (rebels w !! userId) -> res = (Ok AlreadyRebel, w))
  /\ (rebels w !! userId = None ->
      fst res = Ok (Welcome className)
      /\ rebels (snd res) !! userId = Some (set_loyaltyScore 10 (newRebel className now))
      /\ inventory (snd res) !! userId = Some newInventory
      /\ achievements (snd res) !! userId = Some ["first_rebel"]
      /\ (forall u, u <> userId ->
            rebels (snd res) !! u = rebels w !! u
            /\ inventory (snd res) !! u = inventory w !! u
            /\ achievements (snd res) !! u = achievements w !! u))
  /\ handleClassSelection later again userId (snd res) = (Ok AlreadyRebel, snd res).
Proof.
  intros res className. subst res className. split; [| split; [| split]].
  - unfold getClassNameFromId, assoc.
    repeat match goal with
      | |- context [String.eqb customId ?b] => destruct (String.eqb customId b)
      end; simpl; eauto.
  - intros [r Hr]. unfold handleClassSelection, bind, gets. simpl. rewrite Hr. reflexivity.
  - intros Hr. unfold handleClassSelection, createRebel, awardAchievement, bind, gets,
      modRebel, modify, ret. simpl. rewrite Hr. simpl. rewrite lookup_insert_eq. simpl.
    split; [reflexivity |]. rewrite !lookup_alter_eq, !lookup_insert_eq. simpl.
    split; [reflexivity |]. split; [reflexivity |]. split; [reflexivity |].
    intros u Hu. rewrite !lookup_alter_ne, !lookup_insert_ne by congruence.
    split; [reflexivity | split; reflexivity].
  - destruct (rebels w !! userId) as [r |] eqn:Hr.
    + unfold handleClassSelection at 2. unfold bind, gets. simpl. rewrite Hr. simpl.
      unfold handleClassSelection, bind, gets. simpl. rewrite Hr. reflexivity.
    + unfold handleClassSelection, createRebel, awardAchievement, bind, gets,
        modRebel, modify, ret. simpl. rewrite Hr. simpl. rewrite lookup_insert_eq. simpl.
      rewrite lookup_alter_eq, lookup_insert_eq. reflexivity.
Qed.

(** X22: the buttons of the admin dashboard reach no handler.  The
    dashboard of [/admin status] offers buttons whose ids start with
    ['admin_']; [handleButton] has no branch for such an id, whatever
    follows the prefix, and answers with its last branch, the reply for
    features that are yet to come. *)
Theorem admin_buttons_unhandled (customId : string) :
  startsWith customId "admin_" = true -> handleButton customId = ComingSoon.
Proof.
  unfold handleButton, startsWith. intros H.
  repeat lazymatch goal with
    | |- (if ?b then _ else _) = _ =>
        let E := fresh "E" in
        destruct b eqn:E; [exfalso; clash H E | clear E]
    end.
  reflexivity.
Qed.

(** the three buttons of the dashboard *)
Lemma admin_buttons_unhandled_dashboard :
  handleButton "admin_refresh_status" = ComingSoon
  /\ handleButton "admin_detailed_metrics" = ComingSoon
  /\ handleButton "admin_force_cleanup" = ComingSoon.
Proof.
  split; [| split].
  - exact (admin_buttons_unhandled "admin_refresh_status" eq_refl).
  - exact (admin_buttons_unhandled "admin_detailed_metrics" eq_refl).
  - exact (admin_buttons_unhandled "admin_force_cleanup" eq_refl).
Defined.

(** *** The market timer *)

Lemma cleanupExpiredListings_le now w :
  invLe (inventory w) (inventory (cleanupExpiredListings now w)).
Proof.
  unfold cleanupExpiredListings. simpl.
  assert (H : forall (l : list (string * Listing)) invs0 invs,
            invLe invs0 invs ->
            invLe invs0
              (fold_left (fun invs p =>
                            if expired now (snd p)
                            then returnToSeller (lsellerId (snd p)) (litem (snd p)) invs
                            else invs) l invs)).
  { induction l as [| p l IH]; intros invs0 invs Hle; simpl; [exact Hle |].
    apply IH. eapply invLe_trans; [exact Hle |].
    destruct (expired now (snd p)); [apply returnToSeller_le | apply invLe_refl]. }
  apply H. apply invLe_refl.
Qed.

Lemma cleanupExpiredListings_fixed now w :
  (forall p, In p (marketplace w) -> expired now (snd p) = false) ->
  cleanupExpiredListings now w = w.
Proof.
  intros Hno. unfold cleanupExpiredListings.
  assert (Hfold : forall (l : list (string * Listing)) invs,
            (forall p, In p l -> expired now (snd p) = false) ->
            fold_left (fun invs p =>
                         if expired now (snd p)
                         then returnToSeller (lsellerId (snd p)) (litem (snd p)) invs
                         else invs) l invs = invs).
  { induction l as [| p l IH]; intros invs Hl; simpl; [reflexivity |].
    rewrite (Hl p (or_introl eq_refl)). apply IH. intros q Hq. apply Hl. right. exact Hq. }
  assert (Hfilter : forall l : list (string * Listing),
            (forall p, In p l -> expired now (snd p) = false) ->
            List.filter (fun p => negb (expired now (snd p))) l = l).
  { induction l as [| p l IH]; intros Hl; simpl; [reflexivity |].
    rewrite (Hl p (or_introl eq_refl)). simpl. f_equal.
    apply IH. intros q Hq. apply Hl. right. exact Hq. }
  rewrite (Hfold _ _ Hno), (Hfilter _ Hno). destruct w. reflexivity.
Qed.

Lemma processAuctionTimers_marketplace now w :
  marketplace (processAuctionTimers now w) = marketplace w.
Proof.
  unfold processAuctionTimers.
  destruct (sweepAuctions now (inventory w) (auctions w)). reflexivity.
Qed.

Lemma processAuctionTimers_le now w :
  invLe (inventory w) (inventory (processAuctionTimers now w)).
Proof.
  unfold processAuctionTimers.
  pose proof (sweepAuctions_le now (auctions w) (inventory w)) as H.
  destruct (sweepAuctions now (inventory w) (auctions w)). exact H.
Qed.

(** X23: the market timer.  One run of the callback of
    [startMarketUpdates], the sweep of the expired listings followed by
    the sweep of the auctions, leaves no expired listing behind; every
    inventory keeps its capacity and holds at least as many items as
    before, and inventories that were within their capacity still are.
    Running it again at the same times changes nothing, so that no item
    and no payment is handed out twice. *)
Theorem marketUpdate_settles (nowListings nowAuctions : Z) (w : World) :
  let w' := marketUpdate nowListings nowAuctions w in
  (forall p, In p (marketplace w') -> expired nowListings (snd p) = false)
  /\ invLe (inventory w) (inventory w')
  /\ (withinCapacity (inventory w) -> withinCapacity (inventory w'))
  /\ marketUpdate nowListings nowAuctions w' = w'.
Proof.
  intros w'. subst w'. unfold marketUpdate.
  assert (Hnone : forall p,
            In p (marketplace (processAuctionTimers nowAuctions
                                 (cleanupExpiredListings nowListings w))) ->
            expired nowListings (snd p) = false).
  { intros p. rewrite processAuctionTimers_marketplace. simpl. intros Hp.
    apply filter_In in Hp. destruct Hp as [_ Hp]. apply negb_true_iff in Hp. exact Hp. }
  assert (Hle : invLe (inventory w)
                  (inventory (processAuctionTimers nowAuctions
                                (cleanupExpiredListings nowListings w)))).
  { eapply invLe_trans; [apply cleanupExpiredListings_le | apply processAuctionTimers_le]. }
  split; [exact Hnone |]. split; [exact Hle |]. split.
  - intros Hw. eapply invLe_withinCapacity; [exact Hle | exact Hw].
  - rewrite (cleanupExpiredListings_fixed nowListings _ Hnone).
    apply processAuctionTimers_idempotent.
Qed.

(** *** The damage of a raid *)

Lemma floor_tenths (s m : Z) : floorQ (Qmult (inject_Z s) (tenths m)) = s * m / 10.
Proof. unfold floorQ, tenths, Qmult, inject_Z, Qfloor. simpl. reflexivity. Qed.

Lemma calculateDamage_least (rebel : Rebel) :
  1 <= level rebel -> 0 <= loyaltyScore rebel -> 48 <= Game.calculateDamage rebel.
Proof.
  intros Hl Hs. unfold Game.calculateDamage. cbv zeta.
  assert (Hq : 0 <= loyaltyScore rebel / 100) by (apply Z.div_pos; lia).
  set (s := 50 + level rebel * 10 + loyaltyScore rebel / 100 * 5).
  assert (Hsum : 60 <= s) by (unfold s; lia).
  assert (Hm : exists m, orDefault (assoc (rclass rebel) classMultipliers) (tenths 10) = tenths m
                         /\ 8 <= m).
  { unfold classMultipliers, assoc.
    repeat match goal with
      | |- context [String.eqb ?a ?b] => destruct (String.eqb a b)
      end; simpl; eexists; (split; [reflexivity | lia]). }
  destruct Hm as (m & -> & Hm). rewrite floor_tenths.
  apply Z.div_le_lower_bound; nia.
Qed.

Lemma actualDamage_range (base : Z) (r : Q) :
  0 <= base -> inUnit r ->
  base * 8 / 10
  <= floorQ (Qmult (inject_Z base) (Qplus (tenths 8) (Qmult r (tenths 4))))
  <= base * 12 / 10.
Proof.
  intros Hb [H0 H1].
  rewrite <- !floor_tenths. unfold floorQ.
  assert (Hbq : Qle (inject_Z 0) (inject_Z base)) by (rewrite <- Zle_Qle; exact Hb).
  destruct r as [rn rd]. unfold inUnit, Qle, Qlt, inject_Z in H0, H1. simpl in H0, H1.
  split; apply Qfloor_resp_le; unfold Qle, Qmult, Qplus, tenths, inject_Z; simpl.
  - rewrite !Pos2Z.inj_mul. nia.
  - rewrite !Pos2Z.inj_mul. nia.
Qed.

(** X24: the damage of a raid stays in its range.  For a rebel of
    level 1 or more with a loyalty that is not negative, and a draw in
    [0, 1), the base damage is at least 48, and a button raid that is
    carried out reports a damage between 80% and 120% of the base
    damage, both rounded down, so at least 38, and an experience of a
    twentieth of the damage, rounded down, plus 10. *)
Theorem raid_damage_bounds (random : nat -> Q) (now : Z) (corpId userId : string)
    (w w' : World) (rebel : Rebel) (d e : Z) (leveledUp isDefeated : bool)
    (newAchievements : list string) :
  rebels w !! userId = Some rebel ->
  1 <= level rebel ->
  0 <= loyaltyScore rebel ->
  inUnit (random (rng w)) ->
  handleRaidAction random now corpId userId w
  = (Ok (Raided d e leveledUp isDefeated newAchievements), w') ->
  let base := Game.calculateDamage rebel in
  48 <= base
  /\ base * 8 / 10 <= d <= base * 12 / 10
  /\ 38 <= d
  /\ e = d / 20 + 10.
Proof.
  intros Hr Hl Hs Hu H base.
  pose proof (calculateDamage_least rebel Hl Hs) as Hbase. fold base in Hbase.
  assert (Hd : d = floorQ (Qmult (inject_Z base)
                             (Qplus (tenths 8) (Qmult (random (rng w)) (tenths 4))))
               /\ e = d / 20 + 10).
  { unfold handleRaidAction in H.
    binv H as orebel w0 E. injection E as <- <-. rewrite Hr in H.
    destruct (energy rebel <? 25); [discriminate H |].
    unfold executeRaid in H.
    binv H as oc w0 E. injection E as <- <-.
    destruct (corporations w !! corpId) as [c |]; [| discriminate H].
    binv H as orebel w0 E. injection E as <- <-.
    binv H as rebel0 w0 E. rewrite Hr in E. injection E as <- <-.
    binv H as r w1 E. injection E as <- <-. cbv zeta in H.
    fold base in H. set (d0 := floorQ _) in H.
    binv H as u2 w2 E. clear E.
    binv H as u3 w3 E. clear E.
    binv H as lu0 w4 E. clear E.
    binv H as h w5 E. clear E.
    binv H as u5 w6 E. clear E.
    binv H as u6 w7 E. clear E.
    binv H as ach0 w8 E. clear E.
    binv H as u8 w9 E. clear E.
    injection H as <- <- _ _ _ _. split; reflexivity. }
  destruct Hd as [Hd He].
  pose proof (actualDamage_range base (random (rng w)) ltac:(lia) Hu) as Hrange.
  rewrite <- Hd in Hrange.
  split; [exact Hbase |]. split; [exact Hrange |]. split; [| exact He].
  assert (38 <= base * 8 / 10) by (apply Z.div_le_lower_bound; lia). lia.
Qed.

(** a new Model Trainer with the draw 1/2: base damage 60, damage 60,
    experience 13 *)
Lemma raid_damage_bounds_new_rebel :
  let base := Game.calculateDamage (newRebel "Model Trainer" 0) in
  48 <= base /\ base * 8 / 10 <= 60 <= base * 12 / 10 /\ 38 <= 60 /\ 13 = 60 / 20 + 10.
Proof.
  assert (Hraid : handleRaidAction (fun _ => Qmake 1 2) 5000 "openai" "u1"
                    (worldOf ["u1"] "Model Trainer" openai)
                  = (Ok (Raided 60 13 false false []),
                     execM (handleRaidAction (fun _ => Qmake 1 2) 5000 "openai" "u1")
                           (worldOf ["u1"] "Model Trainer" openai))).
  { vm_compute. reflexivity. }
  refine (raid_damage_bounds (fun _ => Qmake 1 2) 5000 "openai" "u1"
            (worldOf ["u1"] "Model Trainer" openai) _
            (newRebel "Model Trainer" 0) 60 13 false false [] _ _ _ _ Hraid).
  - reflexivity.
  - simpl. lia.
  - simpl. lia.
  - split; [unfold Qle | unfold Qlt]; simpl; lia.
Defined.

(** *** The second level of the dispatch *)

Lemma handleButton_market (customId : string) :
  handleButton customId = MarketButtons ->
  startsWith customId "market_" || startsWith customId "auction_"
  || String.eqb customId "my_market_listings" = true.
Proof.
  unfold handleButton.
  repeat lazymatch goal with
    | |- (if ?b then _ else _) = _ -> _ =>
        destruct b eqn:?; [first [discriminate | intros _; reflexivity] |]
    end.
  discriminate.
Qed.

Lemma handleButton_items (customId : string) :
  handleButton customId = ItemsButtons ->
  startsWith customId "items_" = true \/ startsWith customId "trade_item_" = true.
Proof.
  unfold handleButton.
  repeat lazymatch goal with
    | |- (if ?b then _ else _) = _ -> _ =>
        let E := fresh "E" in
        destruct b eqn:E; [first [discriminate | intros _] |]
    end; [| discriminate].
  unfold startsWith in *.
  match goal with
  | Hm : String.prefix "market_" customId || _ || _ = false,
    Hi : _ || _ || _ || _ = true |- _ =>
      apply orb_false_iff in Hm; destruct Hm as [Hm _];
      apply orb_false_iff in Hm; destruct Hm as [Hm Ha];
      apply orb_true_iff in Hi; destruct Hi as [Hi | Hi];
      [ apply orb_true_iff in Hi; destruct Hi as [Hi | Hi];
        [ apply orb_true_iff in Hi; destruct Hi as [Hi | Hi]; [left | right]; exact Hi
        | apply (prefix_app "market_" "sell_") in Hi; congruence ]
      | apply (prefix_app "auction_" "item_") in Hi; congruence ]
  end.
Qed.

(** two conditions on one custom id, beginnings or equalities, that no
    id meets together *)
Ltac ids_clash H E :=
  repeat match type of H with
    | (_ || _) = true => apply orb_true_iff in H; destruct H as [H | H]
    | (_ && _) = true => apply andb_true_iff in H; destruct H as [H _]
    | _ \/ _ => destruct H as [H | H]
    end;
  repeat match type of E with
    | (_ || _) = true => apply orb_true_iff in E; destruct E as [E | E]
    | (_ && _) = true => apply andb_true_iff in E; destruct E as [E _]
    end;
  first
    [ discriminate H
    | discriminate E
    | apply String.eqb_eq in H; subst; vm_compute in E; discriminate E
    | apply String.eqb_eq in E; subst; vm_compute in H; discriminate H
    | match type of H with
      | _ = _ :> string => subst; vm_compute in E; discriminate E
      end
    | let Hc := fresh "Hc" in
      destruct (prefix_compatible _ _ _ H E) as [Hc | Hc]; vm_compute in Hc; discriminate Hc ].

(** X25: branches behind the market and the item buttons that no button
    reaches.  [handleButton] sends an id to the market handler when it
    starts with ['market_'] or ['auction_'] or is ['my_market_listings'],
    and to the item handler when it starts with ['items_'] or
    ['trade_item_'].  So the branches of [handleMarketButtons] for
    removing a listing, cancelling an auction, the own auctions and the
    trade calculator are never taken, its auction list only by
    ['auction_refresh'], and the branches of [handleItemsButtons] for
    the trade menu, the sell menu, selling and auctioning an item are
    never taken either.  The ids of the first kind get the reply for
    features yet to come; an id that starts with ['market_sell_'] or
    ['auction_item_'] reaches the market handler, which has no branch
    for it and sends no reply. *)
Theorem second_level_dead_branches (customId : string) :
  route customId <> Market RemoveListing
  /\ route customId <> Market CancelAuction
  /\ route customId <> Market MyAuctions
  /\ route customId <> Market TradeCalculator
  /\ route customId <> Items TradeMenu
  /\ route customId <> Items MarketSellMenu
  /\ route customId <> Items MarketSellItem
  /\ route customId <> Items AuctionItem
  /\ (route customId = Market BrowseAuctions -> customId = "auction_refresh")
  /\ (startsWith customId "remove_listing_" = true
      \/ startsWith customId "cancel_auction_" = true
      \/ customId = "my_auctions" \/ customId = "browse_auctions"
      \/ customId = "trade_calculator" \/ customId = "trade_menu" ->
      route customId = Top ComingSoon)
  /\ (startsWith customId "market_sell_" = true \/ startsWith customId "auction_item_" = true ->
      route customId = Market NoMarketReply).
Proof.
  assert (Hmarket : forall m, route customId = Market m ->
            handleMarketButtons customId = m
            /\ startsWith customId "market_" || startsWith customId "auction_"
               || String.eqb customId "my_market_listings" = true).
  { intros m. unfold route. destruct (handleButton customId) eqn:Hb; try discriminate.
    intros [= <-]. split; [reflexivity | apply handleButton_market; exact Hb]. }
  assert (Hitems : forall i, route customId = Items i ->
            handleItemsButtons customId = i
            /\ (startsWith customId "items_" = true
                \/ startsWith customId "trade_item_" = true)).
  { intros i. unfold route. destruct (handleButton customId) eqn:Hb; try discriminate.
    intros [= <-]. split; [reflexivity | apply handleButton_items; exact Hb]. }
  assert (Hsoon : forall p,
            In p ["remove_listing_"; "cancel_auction_"; "my_auctions"; "browse_auctions";
                  "trade_calculator"; "trade_menu"] ->
            String.prefix p customId = true -> handleButton customId = ComingSoon).
  { intros p Hp H. unfold handleButton, startsWith.
    repeat lazymatch goal with
      | |- (if ?b then _ else _) = _ =>
          let E := fresh "E" in
          destruct b eqn:E;
          [ exfalso; simpl in Hp;
            repeat (destruct Hp as [<- | Hp]; [ids_clash H E |]); destruct Hp
          | clear E ]
      end.
    reflexivity. }
  assert (Htop : forall p,
            In p ["remove_listing_"; "cancel_auction_"; "my_auctions"; "browse_auctions";
                  "trade_calculator"; "trade_menu"] ->
            String.prefix p customId = true -> route customId = Top ComingSoon).
  { intros p Hp H. unfold route. rewrite (Hsoon p Hp H). reflexivity. }
  assert (Hself : forall q : string, customId = q -> String.prefix q customId = true).
  { intros q <-. apply prefix_refl. }
  split; [| split; [| split; [| split; [| split; [| split; [| split; [| split;
    [| split; [| split]]]]]]]]].
  1-4: intros H; apply Hmarket in H as [H Hc]; unfold handleMarketButtons, startsWith in *;
    repeat lazymatch type of H with
      | (if ?b then _ else _) = _ =>
          let E := fresh "E" in
          destruct b eqn:E; [try discriminate H; ids_clash Hc E | clear E]
      end;
    discriminate H.
  1-4: intros H; apply Hitems in H as [H Hc]; unfold handleItemsButtons, startsWith in *;
    repeat lazymatch type of H with
      | (if ?b then _ else _) = _ =>
          let E := fresh "E" in
          destruct b eqn:E; [try discriminate H; ids_clash Hc E | clear E]
      end;
    discriminate H.
  - intros H. apply Hmarket in H as [H Hc]. unfold handleMarketButtons, startsWith in *.
    repeat lazymatch type of H with
      | (if ?b then _ else _) = _ =>
          let E := fresh "E" in
          destruct b eqn:E; [try discriminate H | clear E]
      end; [| discriminate H].
    apply orb_true_iff in E. destruct E as [E | E]; apply String.eqb_eq in E.
    + subst customId. vm_compute in Hc. discriminate Hc.
    + exact E.
  - unfold startsWith.
    intros [H | [H | [H | [H | [H | H]]]]].
    + apply (Htop "remove_listing_"); [simpl; tauto | exact H].
    + apply (Htop "cancel_auction_"); [simpl; tauto | exact H].
    + apply (Htop "my_auctions"); [simpl; tauto | apply Hself; exact H].
    + apply (Htop "browse_auctions"); [simpl; tauto | apply Hself; exact H].
    + apply (Htop "trade_calculator"); [simpl; tauto | apply Hself; exact H].
    + apply (Htop "trade_menu"); [simpl; tauto | apply Hself; exact H].
  - unfold startsWith. intros H.
    assert (Hm : String.prefix "market_" customId || String.prefix "auction_" customId
                 || String.eqb customId "my_market_listings" = true).
    { destruct H as [H | H];
        [ apply (prefix_app "market_" "sell_") in H | apply (prefix_app "auction_" "item_") in H ];
        rewrite H; try reflexivity; rewrite orb_true_r; reflexivity. }
    assert (Hb : handleButton customId = MarketButtons).
    { unfold handleButton, startsWith.
      repeat lazymatch goal with
        | |- (if ?b then _ else _) = _ =>
            let E := fresh "E" in
            destruct b eqn:E;
            [ first [reflexivity | exfalso; ids_clash H E]
            | first [congruence | clear E] ]
        end. }
    unfold route. rewrite Hb. f_equal. unfold handleMarketButtons, startsWith.
    repeat lazymatch goal with
      | |- (if ?b then _ else _) = _ =>
          let E := fresh "E" in
          destruct b eqn:E; [exfalso; ids_clash H E | clear E]
      end.
    reflexivity.
Qed.

(** *** The team loot *)

Lemma takeShare_items len index its inv :
  itemCount inv <= capacity inv ->
  takeShare len index its inv
  = mkInventory
      (items inv
       ++ firstn (Z.to_nat (capacity inv - itemCount inv)) (offeredItems len index its))
      (capacity inv) (credits inv).
Proof.
  unfold takeShare, offeredItems. generalize (combine (seq 0 (length its)) its). intros l.
  revert inv. induction l as [| p l IH]; intros inv Hle; simpl.
  - rewrite firstn_nil, app_nil_r. destruct inv. reflexivity.
  - destruct (fst p mod len =? index)%nat; simpl.
    + destruct (itemCount inv <? capacity inv) eqn:E.
      * apply Z.ltb_lt in E.
        assert (Hc : itemCount (pushItem (snd p) inv) = itemCount inv + 1).
        { unfold itemCount. simpl. rewrite length_app. simpl. lia. }
        rewrite IH by (rewrite Hc; simpl; lia). rewrite Hc. simpl.
        replace (Z.to_nat (capacity inv - itemCount inv))
          with (S (Z.to_nat (capacity inv - (itemCount inv + 1)))) by lia.
        simpl. rewrite <- app_assoc. reflexivity.
      * apply Z.ltb_ge in E. rewrite IH by assumption.
        replace (Z.to_nat (capacity inv - itemCount inv)) with 0%nat by lia.
        reflexivity.
    + apply IH. assumption.
Qed.

Lemma fold_alter_lookup (F : nat -> Inventory -> Inventory) (l : list (nat * string)) :
  NoDup (map snd l) ->
  forall (invs : gmap string Inventory) (u : string),
    fold_left (fun invs p => alter (F (fst p)) (snd p) invs) l invs !! u
    = match List.find (fun p => String.eqb (snd p) u) l with
      | Some p => F (fst p) <$> invs !! u
      | None => invs !! u
      end.
Proof.
  induction l as [| p l IH]; intros Hnd invs u; simpl; [reflexivity |].
  simpl in Hnd. apply NoDup_cons in Hnd. destruct Hnd as [Hp Hnd].
  rewrite (IH Hnd). destruct (String.eqb (snd p) u) eqn:E.
  - apply String.eqb_eq in E. subst u.
    destruct (List.find (fun q => String.eqb (snd q) (snd p)) l) as [q |] eqn:Ef.
    + exfalso. apply find_some in Ef. destruct Ef as [Hin Heq].
      apply String.eqb_eq in Heq. apply Hp. rewrite <- Heq.
      apply list_elem_of_In. apply in_map. exact Hin.
    + apply lookup_alter_eq.
  - apply String.eqb_neq in E.
    destruct (List.find (fun q => String.eqb (snd q) u) l);
      rewrite lookup_alter_ne by exact E; reflexivity.
Qed.

Lemma find_position (l : list string) (u : string) :
  NoDup l ->
  forall (s i : nat), l !! i = Some u ->
    List.find (fun p : nat * string => String.eqb (snd p) u) (combine (seq s (length l)) l)
    = Some ((s + i)%nat, u).
Proof.
  induction l as [| x l IH]; intros Hnd s i Hi; [discriminate Hi |].
  apply NoDup_cons in Hnd. destruct Hnd as [Hx Hnd]. simpl.
  destruct i as [| i]; simpl in Hi.
  - injection Hi as ->. rewrite String.eqb_refl, Nat.add_0_r. reflexivity.
  - destruct (String.eqb x u) eqn:E.
    + apply String.eqb_eq in E. subst x. exfalso. apply Hx.
      apply list_elem_of_lookup. exists i. exact Hi.
    + rewrite (IH Hnd (S s) i Hi). f_equal. f_equal. lia.
Qed.

Lemma find_absent (l : list string) (u : string) (s : nat) :
  u ∉ l ->
  List.find (fun p : nat * string => String.eqb (snd p) u) (combine (seq s (length l)) l)
  = None.
Proof.
  revert s. induction l as [| x l IH]; intros s Hu; simpl; [reflexivity |].
  destruct (String.eqb x u) eqn:E.
  - apply String.eqb_eq in E. subst x. exfalso. apply Hu. apply list_elem_of_here.
  - apply IH. intros H. apply Hu. apply list_elem_of_further. exact H.
Qed.

Lemma map_snd_combine_seq (l : list string) (s : nat) :
  map snd (combine (seq s (length l)) l) = l.
Proof.
  revert s. induction l as [| x l IH]; intros s; simpl; [reflexivity |].
  rewrite IH. reflexivity.
Qed.

(** X26: how the team loot is dealt.  For a party without a member
    listed twice and inventories within their capacity,
    [distributeTeamLoot] gives every member who has an inventory the
    same share of the credits, the credits of the loot divided by the
    team size and rounded down, and of the items the member's position
    is offered (every item goes to one position) the first ones that
    fit, in the order of the loot; the capacity stays.  The inventory
    of anyone else is untouched and no inventory is created.  For a
    loot with credits that are not negative, the shares of the whole
    team together do not exceed the credits of the loot. *)
Theorem distributeTeamLoot_deals_fairly (party : RaidParty) (tl : TeamLoot)
    (invs : gmap string Inventory) :
  NoDup (members party) ->
  withinCapacity invs ->
  let len := length (members party) in
  let share := lootCredits tl / Z.of_nat len in
  let after := distributeTeamLoot party tl invs in
  (forall i u inv,
     members party !! i = Some u -> invs !! u = Some inv ->
     after !! u
     = Some (mkInventory
               (items inv
                ++ firstn (Z.to_nat (capacity inv - itemCount inv))
                          (offeredItems len i (lootItems tl)))
               (capacity inv) (credits inv + share)))
  /\ (forall u, u ∉ members party -> after !! u = invs !! u)
  /\ (forall u, invs !! u = None -> after !! u = None)
  /\ (0 <= lootCredits tl -> members party <> [] ->
      0 <= share /\ Z.of_nat len * share <= lootCredits tl).
Proof.
  intros Hnd Hcap len share after.
  assert (Hlookup : forall u,
            after !! u
            = match List.find (fun p : nat * string => String.eqb (snd p) u)
                              (combine (seq 0 len) (members party)) with
              | Some p =>
                  (fun inv => takeShare len (fst p) (lootItems tl)
                                (set_credits (credits inv + share) inv)) <$> invs !! u
              | None => invs !! u
              end).
  { intros u. subst after. unfold distributeTeamLoot. fold len. fold share.
    apply (fold_alter_lookup
             (fun i inv => takeShare len i (lootItems tl)
                             (set_credits (credits inv + share) inv))).
    unfold len. rewrite map_snd_combine_seq. exact Hnd. }
  split; [| split; [| split]].
  - intros i u inv Hi Hu. rewrite Hlookup. unfold len at 1.
    rewrite (find_position _ u Hnd 0 i Hi), Hu. simpl. f_equal.
    rewrite takeShare_items by (apply (Hcap u inv Hu)). reflexivity.
  - intros u Hu. rewrite Hlookup. unfold len. rewrite (find_absent _ u 0 Hu). reflexivity.
  - intros u Hu. rewrite Hlookup, Hu.
    destruct (List.find _ _); reflexivity.
  - intros Hpos Hne. subst share.
    assert (Hlen : 0 < Z.of_nat len).
    { unfold len. destruct (members party); [congruence | simpl; lia]. }
    split; [apply Z.div_pos; lia | apply Z.mul_div_le; lia].
Qed.

(** of 100 credits and two items, the second of three members gets 33
    credits and the second item *)
Lemma distributeTeamLoot_deals_fairly_trio :
  distributeTeamLoot trioParty (mkTeamLoot 100 [junk 30; junk 31]) (inventory trioWorld)
    !! "u2"
  = Some (mkInventory [junk 31] 20 133).
Proof.
  assert (Hnd : NoDup (members trioParty)).
  { apply NoDup_ListNoDup. repeat constructor; simpl; intuition discriminate. }
  assert (Hcap : withinCapacity (inventory trioWorld)).
  { intros u inv Hu.
    assert (Hnew : inv = newInventory).
    { unfold trioWorld, worldOf in Hu. simpl in Hu.
      repeat (apply lookup_insert_Some in Hu as [[_ Hu] | [_ Hu]]; [symmetry; exact Hu |]).
      rewrite lookup_empty in Hu. discriminate Hu. }
    subst inv. vm_compute. discriminate. }
  destruct (distributeTeamLoot_deals_fairly trioParty (mkTeamLoot 100 [junk 30; junk 31])
              (inventory trioWorld) Hnd Hcap) as (Hmember & _).
  exact (Hmember 1%nat "u2" newInventory eq_refl eq_refl).
Defined.
